(** * angular-selector-parser: the selector parser and the selector matcher

    A shallow embedding of [src/index.js]: the class [CssSelector]
    (regular-expression driven [parse], [unescapeAttribute],
    [escapeAttribute], [toString]) and the classes [SelectorMatcher],
    [SelectorListContext] and [SelectorContext] (the index with its terminal
    and partial maps, [addSelectables], [match] and [finalize]).

    Strings.  A JavaScript string is a sequence of UTF-16 code units.  The
    development covers the strings all of whose code units are below 256:
    an [ascii] is such a code unit and a [string] such a JavaScript string.
    On these the classes [\w] and [\s] of the regular expression and
    [toLowerCase] are the functions [is_word], [is_space] and [toLowerCase]
    below. *)

From Stdlib Require Import String Ascii List Bool Arith Lia NArith Permutation.
From stdpp Require Import base option list strings.
Import ListNotations.

Open Scope bool_scope.

(** ** Characters *)

Module Chars.

Definition code (c : ascii) : N := N_of_ascii c.

Definition between (lo hi c : ascii) : bool :=
  (code lo <=? code c)%N && (code c <=? code hi)%N.

Definition backslash : ascii := "092"%char.
Definition dquote : ascii := "034"%char.
Definition squote : ascii := "039"%char.
Definition dollar : ascii := "$"%char.

(** [\w]: letters, digits and the underscore. *)
Definition is_word (c : ascii) : bool :=
  between "a" "z" c || between "A" "Z" c || between "0" "9" c
  || Ascii.eqb c "_".

(** [\s] on code units below 256: tab, line feed, vertical tab, form feed,
    carriage return, space and the no-break space (code 160). *)
Definition is_space (c : ascii) : bool :=
  between "009" "013" c || Ascii.eqb c " " || Ascii.eqb c "160".

(** [[-\w]]: the characters of a tag, a class name or an id. *)
Definition is_tag_char (c : ascii) : bool :=
  Ascii.eqb c "-" || is_word c.

(** [[-.\w*\\$]]: the characters of an attribute name. *)
Definition is_name_char (c : ascii) : bool :=
  Ascii.eqb c "-" || Ascii.eqb c "." || is_word c || Ascii.eqb c "*"
  || Ascii.eqb c backslash || Ascii.eqb c dollar.

Definition is_quote (c : ascii) : bool :=
  Ascii.eqb c dquote || Ascii.eqb c squote.

(** The negated class of the value, which excludes the closing bracket
    and both quotes: the characters of an attribute value. *)
Definition is_value_char (c : ascii) : bool :=
  negb (Ascii.eqb c "]" || is_quote c).

(** [String.prototype.toLowerCase] on one code unit below 256: the letters
    A to Z and the upper case letters of the Latin-1 supplement (codes 192
    to 222 apart from the multiplication sign, 215) move up by 32. *)
Definition lower (c : ascii) : ascii :=
  if between "A" "Z" c
     || (between "192" "222" c && negb (Ascii.eqb c "215"))
  then ascii_of_N (code c + 32)
  else c.

End Chars.

(** ** Strings *)

Fixpoint toLowerCase (s : string) : string :=
  match s with
  | EmptyString => EmptyString
  | String c s' => String (Chars.lower c) (toLowerCase s')
  end.

(** [s.slice(1)] *)
Definition slice1 (s : string) : string :=
  match s with
  | EmptyString => EmptyString
  | String _ s' => s'
  end.

(** The longest prefix of [s] whose characters satisfy [p], and what is left
    of [s] after it: a greedy [[...]*]. *)
Fixpoint span (p : ascii -> bool) (s : string) : string * string :=
  match s with
  | EmptyString => (EmptyString, EmptyString)
  | String c s' =>
      if p c then let '(run, rest) := span p s' in (String c run, rest)
      else (EmptyString, s)
  end.

(** [s] without its prefix [p], when it starts with [p]. *)
Fixpoint strip (p s : string) : option string :=
  match p with
  | EmptyString => Some s
  | String a p' =>
      match s with
      | EmptyString => None
      | String b s' => if Ascii.eqb a b then strip p' s' else None
      end
  end.

(** A JavaScript string used as a condition: the empty string is falsy. *)
Definition nonempty (s : string) : bool :=
  match s with EmptyString => false | String _ _ => true end.

(** An optional string (a capture group, [element]) used as a condition:
    [undefined], [null] and the empty string are falsy. *)
Definition truthy (o : option string) : bool :=
  match o with Some s => nonempty s | None => false end.

(** ** The regular expression [_SELECTOR_REGEXP] *)

(** The result of [exec]: the capture groups 1 to 8, named as the comments of
    the source name them.  A group that took no part in the match is
    [undefined] ([None]). *)
Record RegExpMatch : Type := mkMatch {
  NOT : option string;              (* 1: the opening of a negation *)
  TAG : option string;              (* 2: the tag with its prefix *)
  PREFIX : option string;           (* 3: a dot, a hash or empty *)
  ATTRIBUTE : option string;        (* 4: the attribute name *)
  ATTRIBUTE_STRING : option string; (* 5: the quote of the value *)
  ATTRIBUTE_VALUE : option string;  (* 6: the attribute value *)
  NOT_END : option string;          (* 7: the closing parenthesis *)
  SEPARATOR : option string         (* 8: the comma with the blanks around *)
}.

Definition no_group : RegExpMatch :=
  mkMatch None None None None None None None None.

(** Alternative 1, [(\:not\()]. *)
Definition alt_not (s : string) : option (RegExpMatch * string) :=
  match strip ":not(" s with
  | Some rest =>
      Some (mkMatch (Some ":not(") None None None None None None None, rest)
  | None => None
  end.

(** Alternative 2, [(([\.\#]?)[-\w]+)].  The optional prefix is taken when it
    is there: without it the run [[-\w]+] would have to start at the prefix
    character, which is no tag character.  The run is the longest one, as
    nothing follows it in the alternative. *)
Definition alt_tag (s : string) : option (RegExpMatch * string) :=
  let '(prefix, s1) :=
    match s with
    | String c s' =>
        if Ascii.eqb c "." || Ascii.eqb c "#" then (String c "", s')
        else ("", s)
    | EmptyString => ("", s)
    end in
  let '(run, rest) := span Chars.is_tag_char s1 in
  if nonempty run
  then Some (mkMatch None (Some (prefix +:+ run)) (Some prefix)
                     None None None None None, rest)
  else None.

(** Alternative 3: an opening bracket, the name [([-.\w*\\$]+)] (group 4),
    optionally [=], a quote or nothing (group 5), the value (group 6, any
    characters but the closing bracket and the two quotes) and group 5
    again, then the closing bracket.
    The name is the longest run of name characters: a shorter one would be
    followed by a name character, where only [=] or the closing bracket can
    go on.  After [=], a quote is taken when there is one, the value is the
    longest run of value characters (it can only be followed by a quote or
    the closing bracket, which are no value characters), and the same quote
    and the closing bracket must follow; when they do not, giving the quote
    back leaves an empty value in front of the quote, and giving the whole
    group back leaves [=] where the bracket should be: the alternative
    fails. *)
Definition alt_attribute (s : string) : option (RegExpMatch * string) :=
  match s with
  | String "[" s1 =>
      let '(name, s2) := span Chars.is_name_char s1 in
      if nonempty name then
        match s2 with
        | String "]" rest =>
            Some (mkMatch None None None (Some name) None None None None, rest)
        | String "=" s3 =>
            let '(quote, s4) :=
              match s3 with
              | String q s' =>
                  if Chars.is_quote q then (String q "", s') else ("", s3)
              | EmptyString => ("", s3)
              end in
            let '(value, s5) := span Chars.is_value_char s4 in
            match strip (quote +:+ "]") s5 with
            | Some rest =>
                Some (mkMatch None None None (Some name) (Some quote)
                              (Some value) None None, rest)
            | None => None
            end
        | _ => None
        end
      else None
  | _ => None
  end.

(** Alternative 4, [(\))]. *)
Definition alt_not_end (s : string) : option (RegExpMatch * string) :=
  match s with
  | String ")" rest =>
      Some (mkMatch None None None None None None (Some ")") None, rest)
  | _ => None
  end.

(** Alternative 5, group 8: any blanks [\s], a comma, any blanks.  No blank
    is a comma, so both runs of blanks are the longest ones. *)
Definition alt_separator (s : string) : option (RegExpMatch * string) :=
  let '(before, s1) := span Chars.is_space s in
  match s1 with
  | String "," s2 =>
      let '(after, rest) := span Chars.is_space s2 in
      Some (mkMatch None None None None None None None
                    (Some (before +:+ "," +:+ after)), rest)
  | _ => None
  end.

Definition or_else {A} (x : option A) (y : option A) : option A :=
  match x with Some _ => x | None => y end.

(** A match of the whole expression that starts at the first character of
    [s]: the alternatives in their order. *)
Definition match_here (s : string) : option (RegExpMatch * string) :=
  or_else (alt_not s)
    (or_else (alt_tag s)
       (or_else (alt_attribute s)
          (or_else (alt_not_end s) (alt_separator s)))).

(** [_SELECTOR_REGEXP.exec(selector)] with the [g] flag: the first argument
    stands for the part of [selector] from [lastIndex] on.  The search tries
    every start position from there to the end; a match moves [lastIndex]
    behind itself (the string returned), and no match ends the loop. *)
Fixpoint exec (s : string) : option (RegExpMatch * string) :=
  match match_here s with
  | Some r => Some r
  | None =>
      match s with
      | EmptyString => None
      | String _ s' => exec s'
      end
  end.

(** The matches the loop [while (match = _SELECTOR_REGEXP.exec(selector))]
    sees, in order.  Every match is at least one character long, so
    [length s] rounds and one more for the final failure are enough
    ([matches_unfold] below). *)
Fixpoint matches_from (fuel : nat) (s : string) : list RegExpMatch :=
  match fuel with
  | O => []
  | S fuel' =>
      match exec s with
      | Some (m, rest) => m :: matches_from fuel' rest
      | None => []
      end
  end.

Definition matches (s : string) : list RegExpMatch :=
  matches_from (S (String.length s)) s.

(** ** The class [CssSelector] *)

(** [element] is [null] ([None]) or a string.  [attrs] is, in the source, a
    flat array of names at the even and values at the odd places; only
    [addAttribute] writes it, two slots at a time, so the model keeps the
    pairs. *)
#[warnings="-register-all"]
Inductive CssSelector : Type := mkCssSelector {
  element : option string;
  classNames : list string;
  attrs : list (string * string);
  notSelectors : list CssSelector
}.

(** [new CssSelector()] *)
Definition new_CssSelector : CssSelector := mkCssSelector None [] [] [].

(** What [parse] and [unescapeAttribute] throw: the three [Error]s of the
    source, told apart by their message (nesting of a negation, several
    selectors in a negation, an unescaped dollar in the attribute given). *)
Inductive Error : Type :=
  | NestedNot
  | MultipleSelectorsInNot
  | UnescapedDollar (attr : string).

Inductive Result (A : Type) : Type :=
  | Ok (a : A)
  | Throw (e : Error).
Arguments Ok {A} a.
Arguments Throw {A} e.

(** The loop of [unescapeAttribute] from position [i] on, [s] being the rest
    of [attr] from there: a backslash is dropped and sets [escaping], a
    dollar while [escaping] is off throws, any other character is kept and
    switches [escaping] off. *)
Fixpoint unescape_loop (attr s : string) (escaping : bool) : Result string :=
  match s with
  | EmptyString => Ok EmptyString
  | String char s' =>
      if Ascii.eqb char Chars.backslash then unescape_loop attr s' true
      else if Ascii.eqb char Chars.dollar && negb escaping
      then Throw (UnescapedDollar attr)
      else match unescape_loop attr s' false with
           | Ok result => Ok (String char result)
           | Throw e => Throw e
           end
  end.

Definition unescapeAttribute (attr : string) : Result string :=
  unescape_loop attr attr false.

(** [s.replace(/c/g, by)] for a single character [c]. *)
Fixpoint replace_all (c : ascii) (by_ : string) (s : string) : string :=
  match s with
  | EmptyString => EmptyString
  | String x s' =>
      if Ascii.eqb x c then by_ +:+ replace_all c by_ s'
      else String x (replace_all c by_ s')
  end.

(** [escapeAttribute]: every backslash is doubled, then every dollar gets a
    backslash in front. *)
Definition escapeAttribute (attr : string) : string :=
  replace_all Chars.dollar (String Chars.backslash (String Chars.dollar ""))
    (replace_all Chars.backslash
       (String Chars.backslash (String Chars.backslash "")) attr).

Definition hasElementSelector (c : CssSelector) : bool := truthy (element c).

Definition isElementSelector (c : CssSelector) : bool :=
  hasElementSelector c && (length (classNames c) =? 0)
  && (length (attrs c) =? 0) && (length (notSelectors c) =? 0).

Definition setElement (e : option string) (c : CssSelector) : CssSelector :=
  mkCssSelector e (classNames c) (attrs c) (notSelectors c).

(** [addAttribute(name, value = '')]: the value stored is
    [value && value.toLowerCase() || ''], the lower-cased value when there is
    a non-empty one and the empty string otherwise. *)
Definition addAttribute (name : string) (value : option string)
    (c : CssSelector) : CssSelector :=
  let stored :=
    match value with
    | Some v => if nonempty v then toLowerCase v else ""
    | None => ""
    end in
  mkCssSelector (element c) (classNames c) (attrs c ++ [(name, stored)])
    (notSelectors c).

Definition addClassName (name : string) (c : CssSelector) : CssSelector :=
  mkCssSelector (element c) (classNames c ++ [toLowerCase name]) (attrs c)
    (notSelectors c).

Fixpoint concat_strings (l : list string) : string :=
  match l with
  | [] => ""
  | s :: l' => s +:+ concat_strings l'
  end.

(** One attribute of [toString]: the escaped name in brackets, followed by
    [=] and the value when the value is not empty. *)
Definition attr_toString (a : string * string) : string :=
  "[" +:+ escapeAttribute (fst a)
      +:+ (if nonempty (snd a) then "=" +:+ snd a else "") +:+ "]".

Fixpoint toString (c : CssSelector) : string :=
  (match element c with Some e => e | None => "" end)
  +:+ concat_strings (map (fun klass => "." +:+ klass) (classNames c))
  +:+ concat_strings (map attr_toString (attrs c))
  +:+ concat_strings
        (map (fun notSelector => ":not(" +:+ toString notSelector +:+ ")")
             (notSelectors c)).

(** ** [CssSelector.parse] *)

(** The variables of the loop.  [current] is not a field: it is the object
    [cssSelector] while [inNot] is off, and while [inNot] is on it is the
    selector pushed last onto [cssSelector.notSelectors] (the assignments to
    [current] and to [inNot] come in pairs), so a call on [current] updates
    that place of [cssSelector]. *)
Record ParseState : Type := mkParseState {
  results : list CssSelector;
  cssSelector : CssSelector;
  inNot : bool
}.

Definition map_last {A} (f : A -> A) (l : list A) : list A :=
  match rev l with
  | [] => []
  | x :: before => rev before ++ [f x]
  end.

Definition on_current (f : CssSelector -> CssSelector) (st : ParseState)
    : ParseState :=
  if inNot st
  then mkParseState (results st)
         (mkCssSelector (element (cssSelector st))
            (classNames (cssSelector st)) (attrs (cssSelector st))
            (map_last f (notSelectors (cssSelector st))))
         true
  else mkParseState (results st) (f (cssSelector st)) false.

(** [_addResult]: a selector that has negations and nothing else gets the
    element [*] before it is pushed. *)
Definition _addResult (res : list CssSelector) (cssSel : CssSelector)
    : list CssSelector :=
  if (0 <? length (notSelectors cssSel)) && negb (truthy (element cssSel))
     && (length (classNames cssSel) =? 0) && (length (attrs cssSel) =? 0)
  then res ++ [setElement (Some "*") cssSel]
  else res ++ [cssSel].

Definition bind {A B} (r : Result A) (k : A -> Result B) : Result B :=
  match r with
  | Ok a => k a
  | Throw e => Throw e
  end.

(** The body of the [while] loop for one match, statement by statement. *)

(** [if (match[NOT]) { if (inNot) throw ...; inNot = true; current = new
    CssSelector(); cssSelector.notSelectors.push(current); }] *)
Definition step_not (m : RegExpMatch) (st : ParseState) : Result ParseState :=
  if truthy (NOT m) then
    if inNot st then Throw NestedNot
    else Ok (mkParseState (results st)
               (mkCssSelector (element (cssSelector st))
                  (classNames (cssSelector st)) (attrs (cssSelector st))
                  (notSelectors (cssSelector st) ++ [new_CssSelector]))
               true)
  else Ok st.

(** [const tag = match[TAG]; if (tag) { ... }] *)
Definition step_tag (m : RegExpMatch) (st : ParseState) : ParseState :=
  match TAG m with
  | Some tag =>
      if nonempty tag then
        if bool_decide (PREFIX m = Some "#")
        then on_current (addAttribute "id" (Some (slice1 tag))) st
        else if bool_decide (PREFIX m = Some ".")
        then on_current (addClassName (slice1 tag)) st
        else on_current (setElement (Some tag)) st
      else st
  | None => st
  end.

(** [const attribute = match[ATTRIBUTE]; if (attribute) { ... }] *)
Definition step_attribute (m : RegExpMatch) (st : ParseState)
    : Result ParseState :=
  match ATTRIBUTE m with
  | Some attribute =>
      if nonempty attribute then
        bind (unescapeAttribute attribute) (fun name =>
        Ok (on_current (addAttribute name (ATTRIBUTE_VALUE m)) st))
      else Ok st
  | None => Ok st
  end.

(** [if (match[NOT_END]) { inNot = false; current = cssSelector; }] *)
Definition step_not_end (m : RegExpMatch) (st : ParseState) : ParseState :=
  if truthy (NOT_END m)
  then mkParseState (results st) (cssSelector st) false
  else st.

(** [if (match[SEPARATOR]) { if (inNot) throw ...; _addResult(results,
    cssSelector); cssSelector = current = new CssSelector(); }] *)
Definition step_separator (m : RegExpMatch) (st : ParseState)
    : Result ParseState :=
  if truthy (SEPARATOR m) then
    if inNot st then Throw MultipleSelectorsInNot
    else Ok (mkParseState (_addResult (results st) (cssSelector st))
               new_CssSelector false)
  else Ok st.

Definition parse_step (m : RegExpMatch) (st : ParseState)
    : Result ParseState :=
  bind (step_not m st) (fun st1 =>
  bind (step_attribute m (step_tag m st1)) (fun st3 =>
  step_separator m (step_not_end m st3))).

Fixpoint parse_loop (ms : list RegExpMatch) (st : ParseState)
    : Result ParseState :=
  match ms with
  | [] => Ok st
  | m :: ms' => bind (parse_step m st) (parse_loop ms')
  end.

Definition parse (selector : string) : Result (list CssSelector) :=
  bind (parse_loop (matches selector) (mkParseState [] new_CssSelector false))
       (fun st => Ok (_addResult (results st) (cssSelector st))).

(** ** The classes [SelectorMatcher], [SelectorListContext] and
    [SelectorContext] *)

(** A JavaScript [Map] with string keys, in insertion order.  Only [get] and
    [set] are used by the source. *)
Definition JsMap (V : Type) : Type := list (string * V).

Fixpoint Map_get {V} (name : string) (map : JsMap V) : option V :=
  match map with
  | [] => None
  | (key, v) :: rest =>
      if String.eqb key name then Some v else Map_get name rest
  end.

Fixpoint Map_set {V} (name : string) (v : V) (map : JsMap V) : JsMap V :=
  match map with
  | [] => [(name, v)]
  | (key, v0) :: rest =>
      if String.eqb key name then (key, v) :: rest
      else (key, v0) :: Map_set name v rest
  end.

(** [map.get(name)] followed by a test of the result: [found v] when the key
    is there with value [v], [missing] when it is not ([Map_get_k_get]
    below).  In this form the value found is visibly a part of [map], which
    lets [match] recurse into a nested matcher. *)
Definition Map_get_k {V R} (found : V -> R) (missing : R)
    : string -> JsMap V -> R :=
  fix get (name : string) (map : JsMap V) : R :=
    match map with
    | [] => missing
    | (key, v) :: rest =>
        if String.eqb key name then found v else get name rest
    end.

(** The objects of class [SelectorListContext] live in a store and are
    referred to by their index in it: the entries of one batch and the
    [_listContexts] of the matcher share one of them. *)
Record SelectorListContext : Type := mkSelectorListContext {
  selectors : list CssSelector;
  alreadyMatched : bool
}.

Abbreviation Store := (list SelectorListContext).

(** The callback context is [null] or an object given by the caller, which
    the matcher only hands back; a number stands for the object. *)
Definition CallbackCtxt : Type := option nat.

(** [this.notSelectors] is [selector.notSelectors], the same array. *)
Record SelectorContext : Type := mkSelectorContext {
  selector : CssSelector;
  cbContext : CallbackCtxt;
  listContext : option nat
}.

#[warnings="-register-all"]
Inductive SelectorMatcher : Type := mkSelectorMatcher {
  _elementMap : JsMap (list SelectorContext);
  _elementPartialMap : JsMap SelectorMatcher;
  _classMap : JsMap (list SelectorContext);
  _classPartialMap : JsMap SelectorMatcher;
  _attrValueMap : JsMap (JsMap (list SelectorContext));
  _attrValuePartialMap : JsMap (JsMap SelectorMatcher);
  _listContexts : list nat
}.

(** [new SelectorMatcher()] *)
Definition new_SelectorMatcher : SelectorMatcher :=
  mkSelectorMatcher [] [] [] [] [] [] [].

Definition set_elementMap (map : JsMap (list SelectorContext))
    (m : SelectorMatcher) : SelectorMatcher :=
  mkSelectorMatcher map (_elementPartialMap m) (_classMap m)
    (_classPartialMap m) (_attrValueMap m) (_attrValuePartialMap m)
    (_listContexts m).

Definition set_elementPartialMap (map : JsMap SelectorMatcher)
    (m : SelectorMatcher) : SelectorMatcher :=
  mkSelectorMatcher (_elementMap m) map (_classMap m)
    (_classPartialMap m) (_attrValueMap m) (_attrValuePartialMap m)
    (_listContexts m).

Definition set_classMap (map : JsMap (list SelectorContext))
    (m : SelectorMatcher) : SelectorMatcher :=
  mkSelectorMatcher (_elementMap m) (_elementPartialMap m) map
    (_classPartialMap m) (_attrValueMap m) (_attrValuePartialMap m)
    (_listContexts m).

Definition set_classPartialMap (map : JsMap SelectorMatcher)
    (m : SelectorMatcher) : SelectorMatcher :=
  mkSelectorMatcher (_elementMap m) (_elementPartialMap m) (_classMap m)
    map (_attrValueMap m) (_attrValuePartialMap m) (_listContexts m).

Definition set_attrValueMap (map : JsMap (JsMap (list SelectorContext)))
    (m : SelectorMatcher) : SelectorMatcher :=
  mkSelectorMatcher (_elementMap m) (_elementPartialMap m) (_classMap m)
    (_classPartialMap m) map (_attrValuePartialMap m) (_listContexts m).

Definition set_attrValuePartialMap (map : JsMap (JsMap SelectorMatcher))
    (m : SelectorMatcher) : SelectorMatcher :=
  mkSelectorMatcher (_elementMap m) (_elementPartialMap m) (_classMap m)
    (_classPartialMap m) (_attrValueMap m) map (_listContexts m).

Definition push_listContext (g : nat) (m : SelectorMatcher)
    : SelectorMatcher :=
  mkSelectorMatcher (_elementMap m) (_elementPartialMap m) (_classMap m)
    (_classPartialMap m) (_attrValueMap m) (_attrValuePartialMap m)
    (_listContexts m ++ [g]).

(** *** Building the index *)

(** [_addTerminal(map, name, selectable)]: the list under [name], created
    when it is missing, gets [selectable] pushed. *)
Definition _addTerminal (map : JsMap (list SelectorContext)) (name : string)
    (selectable : SelectorContext) : JsMap (list SelectorContext) :=
  match Map_get name map with
  | Some terminalList => Map_set name (terminalList ++ [selectable]) map
  | None => Map_set name [selectable] map
  end.

(** [_addPartial(map, name)] returns the matcher under [name], a new one when
    it is missing.  The source also stores the new matcher in [map] and goes
    on to change the matcher returned in place; the model stores the changed
    matcher under [name] when the changes are done ([with_partial]). *)
Definition _addPartial (map : JsMap SelectorMatcher) (name : string)
    : SelectorMatcher :=
  match Map_get name map with
  | Some matcher => matcher
  | None => new_SelectorMatcher
  end.

Definition with_partial (map : JsMap SelectorMatcher) (name : string)
    (rest_of_loop : SelectorMatcher -> SelectorMatcher)
    : JsMap SelectorMatcher :=
  Map_set name (rest_of_loop (_addPartial map name)) map.

(** [map.get(name)], and a new [Map] set under [name] when it is missing. *)
Definition get_or_new {V} (name : string) (map : JsMap (JsMap V)) : JsMap V :=
  match Map_get name map with
  | Some values => values
  | None => []
  end.

(** The loop over [attrs] of [_addSelectable], from the pair given first on,
    with [matcher] the matcher the loop has come down to.  The last pair is
    the terminal one ([i === attrs.length - 2]). *)
Fixpoint add_attrs (attrs : list (string * string))
    (selectable : SelectorContext) (matcher : SelectorMatcher)
    : SelectorMatcher :=
  match attrs with
  | [] => matcher
  | (name, value) :: rest =>
      if length rest =? 0 then
        let terminalValuesMap := get_or_new name (_attrValueMap matcher) in
        add_attrs rest selectable
          (set_attrValueMap
             (Map_set name (_addTerminal terminalValuesMap value selectable)
                (_attrValueMap matcher))
             matcher)
      else
        let partialValuesMap :=
          get_or_new name (_attrValuePartialMap matcher) in
        set_attrValuePartialMap
          (Map_set name
             (with_partial partialValuesMap value
                (add_attrs rest selectable))
             (_attrValuePartialMap matcher))
          matcher
  end.

(** The loop over [classNames], followed by the loop over [attrs].  A class
    name is terminal when there are no attributes and it is the last one. *)
Fixpoint add_classNames (classNames : list string)
    (attrs : list (string * string)) (selectable : SelectorContext)
    (matcher : SelectorMatcher) : SelectorMatcher :=
  match classNames with
  | [] => add_attrs attrs selectable matcher
  | className :: rest =>
      if (length attrs =? 0) && (length rest =? 0) then
        add_classNames rest attrs selectable
          (set_classMap
             (_addTerminal (_classMap matcher) className selectable) matcher)
      else
        set_classPartialMap
          (with_partial (_classPartialMap matcher) className
             (add_classNames rest attrs selectable))
          matcher
  end.

(** [_addSelectable(cssSelector, callbackCtxt, listContext)] on the matcher
    [this]. *)
Definition _addSelectable (cssSelector : CssSelector)
    (callbackCtxt : CallbackCtxt) (listContext : option nat)
    (this : SelectorMatcher) : SelectorMatcher :=
  let selectable := mkSelectorContext cssSelector callbackCtxt listContext in
  match element cssSelector with
  | Some element =>
      if nonempty element then
        if (length (attrs cssSelector) =? 0)
           && (length (classNames cssSelector) =? 0)
        then
          add_classNames (classNames cssSelector) (attrs cssSelector)
            selectable
            (set_elementMap
               (_addTerminal (_elementMap this) element selectable) this)
        else
          set_elementPartialMap
            (with_partial (_elementPartialMap this) element
               (add_classNames (classNames cssSelector) (attrs cssSelector)
                  selectable))
            this
      else
        add_classNames (classNames cssSelector) (attrs cssSelector)
          selectable this
  | None =>
      add_classNames (classNames cssSelector) (attrs cssSelector)
        selectable this
  end.

(** [addSelectables(cssSelectors, callbackCtxt)]: a batch of more than one
    selector gets a new [SelectorListContext], allocated at the end of the
    store and pushed onto [_listContexts]. *)
Definition addSelectables (cssSelectors : list CssSelector)
    (callbackCtxt : CallbackCtxt) (this : SelectorMatcher) (store : Store)
    : SelectorMatcher * Store :=
  let '(listContext, this', store') :=
    if 1 <? length cssSelectors
    then (Some (length store), push_listContext (length store) this,
          store ++ [mkSelectorListContext cssSelectors false])
    else (None, this, store) in
  (fold_left (fun matcher cssSelector =>
                _addSelectable cssSelector callbackCtxt listContext matcher)
             cssSelectors this',
   store').

(** [SelectorMatcher.createNotMatcher(notSelectors)].  The matcher and its
    list context are new objects that nothing else refers to, so they get a
    store of their own. *)
Definition createNotMatcher (notSelectors : list CssSelector)
    : SelectorMatcher * Store :=
  addSelectables notSelectors None new_SelectorMatcher [].

(** *** Matching *)

(** What a call of [match] can change: the flags of the list contexts, and
    the calls of the callback made so far, each with its two arguments. *)
Record State : Type := mkState {
  store : Store;
  calls : list (CssSelector * CallbackCtxt)
}.

Definition set_alreadyMatched (b : bool) (g : nat) (s : Store) : Store :=
  alter (fun ctx => mkSelectorListContext (selectors ctx) b) g s.

(** [for (...) this._listContexts[i].alreadyMatched = false] *)
Definition reset_listContexts (listContexts : list nat) (st : State)
    : State :=
  mkState (fold_left (fun s g => set_alreadyMatched false g s)
             listContexts (store st))
          (calls st).

(** [!this.listContext || !this.listContext.alreadyMatched] *)
Definition not_yet_matched (listContext : option nat) (st : State) : bool :=
  match listContext with
  | None => true
  | Some g =>
      match store st !! g with
      | Some ctx => negb (alreadyMatched ctx)
      | None => true
      end
  end.

(** [result = probe || result], the probe run in the state reached. *)
Definition or_result (probe : State -> option (bool * State))
    (acc : bool * State) : option (bool * State) :=
  '(r, st') ← probe (snd acc); Some (r || fst acc, st').

Fixpoint for_each {A} (body : A -> bool * State -> option (bool * State))
    (l : list A) (acc : bool * State) : option (bool * State) :=
  match l with
  | [] => Some acc
  | a :: l' => acc' ← body a acc; for_each body l' acc'
  end.

Section Matching.

(** [notMatch notSelectors cssSelector] is the result of
    [createNotMatcher(notSelectors).match(cssSelector, null)], given
    below by [match_fuel]; [None] when the nesting of negations is deeper
    than the fuel. *)
Variable notMatch : list CssSelector -> CssSelector -> option bool.

(** [matchedCallback] tells whether a callback was passed; the callback of
    the model records its arguments in [calls]. *)
Definition finalize (this : SelectorContext) (cssSelector : CssSelector)
    (callback : bool) (st : State) : option (bool * State) :=
  result ←
    (if (0 <? length (notSelectors (selector this)))
        && not_yet_matched (listContext this) st
     then negb <$> notMatch (notSelectors (selector this)) cssSelector
     else Some true);
  if result && callback && not_yet_matched (listContext this) st
  then Some (result,
             mkState
               (match listContext this with
                | Some g => set_alreadyMatched true g (store st)
                | None => store st
                end)
               (calls st ++ [(selector this, cbContext this)]))
  else Some (result, st).

(** The loop of [_matchTerminal]:
    [result = selectable.finalize(cssSelector, matchedCallback) || result]. *)
Fixpoint finalize_loop (selectables : list SelectorContext)
    (cssSelector : CssSelector) (matchedCallback : bool)
    (acc : bool * State) : option (bool * State) :=
  match selectables with
  | [] => Some acc
  | selectable :: rest =>
      acc' ← or_result (finalize selectable cssSelector matchedCallback) acc;
      finalize_loop rest cssSelector matchedCallback acc'
  end.

(** [_matchTerminal(map, name, cssSelector, matchedCallback)]; [map] may
    be [undefined] and [name] may be [null]. *)
Definition _matchTerminal (map : option (JsMap (list SelectorContext)))
    (name : option string) (cssSelector : CssSelector)
    (matchedCallback : bool) (st : State) : option (bool * State) :=
  match map, name with
  | Some map, Some name =>
      let selectables :=
        default [] (Map_get name map) ++ default [] (Map_get "*" map) in
      if length selectables =? 0 then Some (false, st)
      else finalize_loop selectables cssSelector matchedCallback (false, st)
  | _, _ => Some (false, st)
  end.

(** [_matchPartial(map, name, cssSelector, matchedCallback)] for a [map]
    that is there, [nested_match] being [match] on a nested matcher. *)
Definition _matchPartial
    (nested_match : SelectorMatcher -> State -> option (bool * State))
    (map : JsMap SelectorMatcher) (name : option string) (st : State)
    : option (bool * State) :=
  match name with
  | Some name =>
      Map_get_k (fun nestedSelector => nested_match nestedSelector st)
                (Some (false, st)) name map
  | None => Some (false, st)
  end.

(** [match(cssSelector, matchedCallback)] on the matcher [this]. *)
Fixpoint match_ (this : SelectorMatcher) (cssSelector : CssSelector)
    (matchedCallback : bool) (st : State) {struct this}
    : option (bool * State) :=
  let terminal map name :=
    or_result (_matchTerminal map name cssSelector matchedCallback) in
  let partial map name :=
    or_result
      (_matchPartial
         (fun nested => match_ nested cssSelector matchedCallback)
         map name) in
  let acc := (false, reset_listContexts (_listContexts this) st) in
  acc ← terminal (Some (_elementMap this)) (element cssSelector) acc;
  acc ← partial (_elementPartialMap this) (element cssSelector) acc;
  acc ←
    for_each
      (fun className acc =>
         acc ← terminal (Some (_classMap this)) (Some className) acc;
         partial (_classPartialMap this) (Some className) acc)
      (classNames cssSelector) acc;
  for_each
    (fun '(name, value) acc =>
       let terminalValuesMap := Map_get name (_attrValueMap this) in
       acc ←
         (if nonempty value
          then terminal terminalValuesMap (Some "") acc
          else Some acc);
       acc ← terminal terminalValuesMap (Some value) acc;
       (* partialValuesMap = this._attrValuePartialMap.get(name); on
          undefined both calls of _matchPartial return false *)
       Map_get_k
         (fun partialValuesMap =>
            acc ←
              (if nonempty value
               then partial partialValuesMap (Some "") acc
               else Some acc);
            partial partialValuesMap (Some value) acc)
         (Some acc)
         name (_attrValuePartialMap this))
    (attrs cssSelector) acc.

End Matching.

(** [match] with the matchers of the negations run by [match] itself, at
    most [fuel] negations deep. *)
Fixpoint match_fuel (fuel : nat)
    : SelectorMatcher -> CssSelector -> bool -> State -> option (bool * State) :=
  match_
    (fun notSelectors cssSelector =>
       match fuel with
       | O => None
       | S fuel' =>
           let '(notMatcher, store0) := createNotMatcher notSelectors in
           fst <$> match_fuel fuel' notMatcher cssSelector false
                     (mkState store0 [])
       end).

(** How deep the negations of a selector nest. *)
Fixpoint not_depth (c : CssSelector) : nat :=
  match notSelectors c with
  | [] => 0
  | _ :: _ => S (list_max (map not_depth (notSelectors c)))
  end.

(** All entries of an index. *)
Fixpoint entries (m : SelectorMatcher) : list SelectorContext :=
  flat_map snd (_elementMap m)
  ++ flat_map (fun '(_, nested) => entries nested) (_elementPartialMap m)
  ++ flat_map snd (_classMap m)
  ++ flat_map (fun '(_, nested) => entries nested) (_classPartialMap m)
  ++ flat_map (fun '(_, values) => flat_map snd values) (_attrValueMap m)
  ++ flat_map
       (fun '(_, values) =>
          flat_map (fun '(_, nested) => entries nested) values)
       (_attrValuePartialMap m).

Definition matcher_depth (m : SelectorMatcher) : nat :=
  list_max (map (fun e => not_depth (selector e)) (entries m)).

(** [this.match(cssSelector, matchedCallback)]: the fuel is the depth of the
    negations in the index, which is enough ([SelectorMatcher_match_total]
    below). *)
Definition SelectorMatcher_match (this : SelectorMatcher)
    (cssSelector : CssSelector) (matchedCallback : bool) (st : State)
    : option (bool * State) :=
  match_fuel (matcher_depth this) this cssSelector matchedCallback st.

(** A matcher as a caller builds it: [new SelectorMatcher()] followed by
    calls of [addSelectables], one per batch. *)
Definition Batch : Type := list CssSelector * CallbackCtxt.

Definition build (batches : list Batch) : SelectorMatcher * Store :=
  fold_left (fun '(m, s) '(cssSelectors, callbackCtxt) =>
               addSelectables cssSelectors callbackCtxt m s)
            batches (new_SelectorMatcher, []).

(** *** The probes of a query, as a sequence *)

(** What one call of [match] does, in order: it resets the list contexts of
    the matcher it runs on, and it calls [finalize] on the entries its
    lookups find. *)
Inductive Event : Type :=
  | Reset (listContexts : list nat)
  | Finalize (selectable : SelectorContext).

(** The entries [_matchTerminal(map, name, ...)] finalizes: those under
    [name] followed by those under the wildcard. *)
Definition terminal_hits (map : option (JsMap (list SelectorContext)))
    (name : option string) : list SelectorContext :=
  match map, name with
  | Some map, Some name =>
      default [] (Map_get name map) ++ default [] (Map_get "*" map)
  | _, _ => []
  end.

(** The events of [this.match(cssSelector, ...)], those of the nested calls
    included: [match_] with every probe replaced by the events it
    causes ([match_trace] below). *)
Fixpoint trace (this : SelectorMatcher) (cssSelector : CssSelector)
    {struct this} : list Event :=
  let terminal map name := List.map Finalize (terminal_hits map name) in
  let partial (map : JsMap SelectorMatcher) (name : option string) :=
    match name with
    | Some name =>
        Map_get_k (fun nested => trace nested cssSelector) [] name map
    | None => []
    end in
  Reset (_listContexts this)
  :: terminal (Some (_elementMap this)) (element cssSelector)
  ++ partial (_elementPartialMap this) (element cssSelector)
  ++ flat_map
       (fun className =>
          terminal (Some (_classMap this)) (Some className)
          ++ partial (_classPartialMap this) (Some className))
       (classNames cssSelector)
  ++ flat_map
       (fun '(name, value) =>
          let terminalValuesMap := Map_get name (_attrValueMap this) in
          (if nonempty value then terminal terminalValuesMap (Some "")
           else [])
          ++ terminal terminalValuesMap (Some value)
          ++ Map_get_k
               (fun partialValuesMap =>
                  (if nonempty value
                   then partial partialValuesMap (Some "") else [])
                  ++ partial partialValuesMap (Some value))
               [] name (_attrValuePartialMap this))
       (attrs cssSelector).

(** Running a sequence of events: a reset resets, and the result of a
    [finalize] is or-ed into the result so far. *)
Fixpoint run_events (notMatch : list CssSelector -> CssSelector -> option bool)
    (cssSelector : CssSelector) (matchedCallback : bool)
    (events : list Event) (acc : bool * State) : option (bool * State) :=
  match events with
  | [] => Some acc
  | Reset listContexts :: rest =>
      run_events notMatch cssSelector matchedCallback rest
        (fst acc, reset_listContexts listContexts (snd acc))
  | Finalize selectable :: rest =>
      acc' ← or_result
               (finalize notMatch selectable cssSelector matchedCallback) acc;
      run_events notMatch cssSelector matchedCallback rest acc'
  end.

(** The negation matcher of [finalize] as [match_fuel] runs it with [fuel]
    levels of negation left. *)
Definition notMatch_at (fuel : nat)
    : list CssSelector -> CssSelector -> option bool :=
  fun notSelectors cssSelector =>
    match fuel with
    | O => None
    | S fuel' =>
        let '(notMatcher, store0) := createNotMatcher notSelectors in
        fst <$> match_fuel fuel' notMatcher cssSelector false
                  (mkState store0 [])
    end.

(** A reset of no list context changes nothing. *)
Definition effective (ev : Event) : bool :=
  match ev with
  | Reset [] => false
  | _ => true
  end.

(** The entries a query finalizes, in order. *)
Definition finalized (events : list Event) : list SelectorContext :=
  flat_map (fun ev => match ev with Finalize e => [e] | Reset _ => [] end)
           events.

(** A selector without constraints: no element (or an empty one), no class
    names, no attributes. *)
Definition no_constraint (s : CssSelector) : Prop :=
  truthy (element s) = false /\ classNames s = [] /\ attrs s = [].

(** *** The index seen as a trie *)

(** The three axes of the index under one type of key: an element name, a
    class name, or an attribute name with a value. *)
Inductive Key : Type :=
  | KElement (name : string)
  | KClass (name : string)
  | KAttr (name value : string).

#[global] Instance Key_eq_dec : EqDecision Key.
Proof. solve_decision. Defined.

(** The list of the terminal map of the axis under the key, empty when
    there is none. *)
Definition terminal_at (m : SelectorMatcher) (k : Key)
    : list SelectorContext :=
  match k with
  | KElement name => default [] (Map_get name (_elementMap m))
  | KClass name => default [] (Map_get name (_classMap m))
  | KAttr name value =>
      default [] (Map_get name (_attrValueMap m) ≫= Map_get value)
  end.

(** The nested matcher of the partial map of the axis under the key. *)
Definition partial_at (m : SelectorMatcher) (k : Key)
    : option SelectorMatcher :=
  match k with
  | KElement name => Map_get name (_elementPartialMap m)
  | KClass name => Map_get name (_classPartialMap m)
  | KAttr name value => Map_get name (_attrValuePartialMap m) ≫= Map_get value
  end.

(** The key [_matchTerminal] looks up besides the one it is given. *)
Definition wildcard (k : Key) : Key :=
  match k with
  | KElement _ => KElement "*"
  | KClass _ => KClass "*"
  | KAttr name _ => KAttr name "*"
  end.

(** A call of [_matchTerminal] or of [_matchPartial] with the key it is
    given. *)
Inductive Probe : Type :=
  | Terminal (k : Key)
  | Partial (k : Key).

(** The probes of [match] for a query, in the order of the source. *)
Definition probes (cssSelector : CssSelector) : list Probe :=
  match element cssSelector with
  | Some e => [Terminal (KElement e); Partial (KElement e)]
  | None => []
  end
  ++ flat_map (fun c => [Terminal (KClass c); Partial (KClass c)])
       (classNames cssSelector)
  ++ flat_map
       (fun '(name, value) =>
          (if nonempty value then [Terminal (KAttr name "")] else [])
          ++ [Terminal (KAttr name value)]
          ++ (if nonempty value then [Partial (KAttr name "")] else [])
          ++ [Partial (KAttr name value)])
       (attrs cssSelector).

Definition probe_events (m : SelectorMatcher) (cssSelector : CssSelector)
    (p : Probe) : list Event :=
  match p with
  | Terminal k => map Finalize (terminal_at m k ++ terminal_at m (wildcard k))
  | Partial k =>
      match partial_at m k with
      | Some nested => trace nested cssSelector
      | None => []
      end
  end.

(** The events of a call of [match] after its reset. *)
Definition body (m : SelectorMatcher) (cssSelector : CssSelector)
    : list Event :=
  flat_map (probe_events m cssSelector) (probes cssSelector).

(** The constraints of a selector in the order in which [_addSelectable]
    inserts them: the element, the class names, the attributes. *)
Definition path (s : CssSelector) : list Key :=
  match element s with
  | Some e => if nonempty e then [KElement e] else []
  | None => []
  end
  ++ map KClass (classNames s)
  ++ map (fun '(name, value) => KAttr name value) (attrs s).

(** [F] inserts the entry [sel] along the path [p]: it leaves the list
    contexts alone, descends through the partial maps of all keys but the
    last, creating matchers where there are none, and pushes [sel] onto the
    terminal list of the last key. *)
Fixpoint inserts (p : list Key) (sel : SelectorContext)
    (F : SelectorMatcher -> SelectorMatcher) : Prop :=
  match p with
  | [] => forall m, F m = m
  | k :: p' =>
      match p' with
      | [] =>
          forall m,
            _listContexts (F m) = _listContexts m
            /\ (forall k', terminal_at (F m) k' =
                           terminal_at m k'
                           ++ (if decide (k = k') then [sel] else []))
            /\ (forall k', partial_at (F m) k' = partial_at m k')
      | _ :: _ =>
          exists G,
            inserts p' sel G
            /\ forall m,
                 _listContexts (F m) = _listContexts m
                 /\ (forall k', terminal_at (F m) k' = terminal_at m k')
                 /\ (forall k', partial_at (F m) k' =
                                if decide (k = k')
                                then Some (G (default new_SelectorMatcher
                                                (partial_at m k)))
                                else partial_at m k')
      end
  end.

(** How often a query reaches the end of a path: the number of its probes
    that follow the path key by key, the last one a terminal probe of the
    last key or of a key whose wildcard it is. *)
Fixpoint hits (p : list Key) (cssSelector : CssSelector) : nat :=
  match p with
  | [] => 0
  | k :: p' =>
      match p' with
      | [] =>
          list_sum
            (map (fun pr =>
                    match pr with
                    | Terminal k' =>
                        (if decide (k = k') then 1 else 0)
                        + (if decide (k = wildcard k') then 1 else 0)
                    | Partial _ => 0
                    end)
                 (probes cssSelector))
      | _ :: _ =>
          list_sum
            (map (fun pr =>
                    match pr with
                    | Partial k' =>
                        if decide (k = k') then hits p' cssSelector else 0
                    | Terminal _ => 0
                    end)
                 (probes cssSelector))
      end
  end.

(** The entries that a sequence of batches registers, the batches of more
    than one selector numbered from [n] on. *)
Fixpoint registered_from (n : nat) (batches : list Batch)
    : list SelectorContext :=
  match batches with
  | [] => []
  | (cssSelectors, callbackCtxt) :: rest =>
      if 1 <? length cssSelectors
      then map (fun s => mkSelectorContext s callbackCtxt (Some n))
               cssSelectors
           ++ registered_from (S n) rest
      else map (fun s => mkSelectorContext s callbackCtxt None) cssSelectors
           ++ registered_from n rest
  end.

Definition registered (batches : list Batch) : list SelectorContext :=
  registered_from 0 batches.

(** The entry is not excluded by its negations: it has none, or the matcher
    of its negations does not match the query. *)
Definition passes
    (notMatch : list CssSelector -> CssSelector -> option bool)
    (cssSelector : CssSelector) (e : SelectorContext) : bool :=
  match notSelectors (selector e) with
  | [] => true
  | _ :: _ =>
      negb (default false (notMatch (notSelectors (selector e)) cssSelector))
  end.

(** The reset of a call of [match], when it resets anything. *)
Definition reset_event (lcs : list nat) : list Event :=
  match lcs with [] => [] | _ :: _ => [Reset lcs] end.

(** The calls of [finalize] a query causes on the entries given: each entry
    as often as the query reaches the end of its path. *)
Definition hit_events (es : list SelectorContext) (cssSelector : CssSelector)
    : list Event :=
  flat_map (fun e => repeat (Finalize e)
                       (hits (path (selector e)) cssSelector))
           es.

(** The negation matcher of [finalize] with the fuel its selectors need. *)
Definition notMatch (notSelectors : list CssSelector)
    (cssSelector : CssSelector) : option bool :=
  notMatch_at (S (list_max (map not_depth notSelectors)))
    notSelectors cssSelector.

(** The step of [build]. *)
Definition add_batch (acc : SelectorMatcher * Store) (b : Batch)
    : SelectorMatcher * Store :=
  addSelectables (fst b) (snd b) (fst acc) (snd acc).

(** [alreadyMatched] of the list context [g] of a store. *)
Definition flag (s : Store) (g : nat) : bool :=
  match s !! g with
  | Some ctx => alreadyMatched ctx
  | None => false
  end.

(** The calls of the callback that [finalize] makes for the entry [e]. *)
Definition call_of (e : SelectorContext) : CssSelector * CallbackCtxt :=
  (selector e, cbContext e).

(** The states of a run with a callback ([st_t]) and of the same run
    without one ([st_f]) when the result so far is [b]: a flag that differs
    is set in the run with the callback, and then the result is true. *)
Definition related (b : bool) (st_t st_f : State) : Prop :=
  forall g,
    flag (store st_t) g = flag (store st_f) g
    \/ (flag (store st_t) g = true /\ b = true).

(** The selector of a single attribute, [[name]] or [[name=value]]. *)
Definition attr_selector (name value : string) : CssSelector :=
  mkCssSelector None [] [(name, value)] [].

(** The selector parsed from [input:not(.disabled)]. *)
Definition input_not_disabled : CssSelector :=
  mkCssSelector (Some "input") [] [] [mkCssSelector None ["disabled"] [] []].

(** The number of batches of more than one selector, each of which gets a
    list context. *)
Definition groups (batches : list Batch) : nat :=
  length (List.filter (fun b : Batch => 1 <? length (fst b)) batches).

(** The calls of the callback that were made with the context [ctx]. *)
Definition calls_with (ctx : CallbackCtxt)
    (cs : list (CssSelector * CallbackCtxt))
    : list (CssSelector * CallbackCtxt) :=
  List.filter (fun c => bool_decide (snd c = ctx)) cs.

(** ** The conditions under which [parse] raises, as the specification words
    them *)

Definition opens_negation (m : RegExpMatch) : bool := truthy (NOT m).
Definition closes_negation (m : RegExpMatch) : bool := truthy (NOT_END m).
Definition is_separator (m : RegExpMatch) : bool := truthy (SEPARATOR m).

(** A negation group is open after the tokens [before], [open] telling
    whether one was open in front of them: the last opening or closing token
    among them, when there is one, is an opening token. *)
Fixpoint negation_open_from (open : bool) (before : list RegExpMatch) : bool :=
  match before with
  | [] => open
  | m :: rest =>
      negation_open_from
        (if opens_negation m then true
         else if closes_negation m then false else open)
        rest
  end.

Definition negation_open (before : list RegExpMatch) : bool :=
  negation_open_from false before.

(** The attribute name holds a dollar that no backslash stands in front
    of. *)
Definition unescaped_dollar (name : string) : Prop :=
  exists pre post : string,
    name = pre +:+ String Chars.dollar post /\
    ~ (exists pre', pre = pre' +:+ String Chars.backslash "").

(** The token [m], met after the tokens [before], is one of the three error
    conditions, and [e] is the error of that condition. *)
Definition raises_from (open : bool) (before : list RegExpMatch)
    (m : RegExpMatch) (e : Error) : Prop :=
  (opens_negation m = true /\ negation_open_from open before = true
   /\ e = NestedNot)
  \/ (is_separator m = true /\ negation_open_from open before = true
      /\ e = MultipleSelectorsInNot)
  \/ (exists name, ATTRIBUTE m = Some name /\ unescaped_dollar name
                   /\ e = UnescapedDollar name).

Definition raises (before : list RegExpMatch) (m : RegExpMatch) (e : Error)
    : Prop :=
  raises_from false before m e.

(** [_addResult] changes the selector: it has negations and nothing else. *)
Definition only_negations (c : CssSelector) : Prop :=
  notSelectors c <> [] /\ truthy (element c) = false
  /\ classNames c = [] /\ attrs c = [].

(** The value of [escaping] in [unescapeAttribute] after the characters
    [pre], when it was [escaping] before them: the last character, if there
    is one, is a backslash. *)
Fixpoint ends_escaping (escaping : bool) (pre : string) : bool :=
  match pre with
  | EmptyString => escaping
  | String c pre' => ends_escaping (Ascii.eqb c Chars.backslash) pre'
  end.

(** The elements of an array joined by a separator, as [Array.prototype.join]
    and the conversion of an array to a string (separator [,]) do it. *)
Fixpoint join (sep : string) (l : list string) : string :=
  match l with
  | [] => ""
  | [s] => s
  | s :: rest => s +:+ sep +:+ join sep rest
  end.

(** The selectors that [parse] returned, as text: each one by [toString],
    with commas between them. *)
Definition serialize (rs : list CssSelector) : string :=
  join "," (map toString rs).

(** All characters of a string are in a class. *)
Fixpoint forall_chars (p : ascii -> bool) (s : string) : bool :=
  match s with
  | EmptyString => true
  | String c s' => p c && forall_chars p s'
  end.

(** The five forms a match of the regular expression has: exactly one of the
    alternatives took part, with the characters its classes allow. *)
Inductive Token : RegExpMatch -> Prop :=
  | Token_not :
      Token (mkMatch (Some ":not(") None None None None None None None)
  | Token_tag (prefix run : string) :
      nonempty run = true ->
      prefix = "" \/ prefix = "." \/ prefix = "#" ->
      forall_chars Chars.is_tag_char run = true ->
      Token (mkMatch None (Some (prefix +:+ run)) (Some prefix)
                     None None None None None)
  | Token_attribute (name : string) (quote value : option string) :
      nonempty name = true ->
      forall_chars Chars.is_name_char name = true ->
      (forall v, value = Some v ->
                 forall_chars Chars.is_value_char v = true) ->
      Token (mkMatch None None None (Some name) quote value None None)
  | Token_not_end :
      Token (mkMatch None None None None None None (Some ")") None)
  | Token_separator (sep : string) :
      nonempty sep = true ->
      Token (mkMatch None None None None None None None (Some sep)).

(** ** The selectors that [parse] builds *)

(** A name as [unescapeAttribute] returns it: the characters of the name
    class but the backslash. *)
Definition is_plain_name_char (c : ascii) : bool :=
  Chars.is_name_char c && negb (Ascii.eqb c Chars.backslash).

(** A tag as the second alternative matches it. *)
Definition is_tag (t : string) : Prop :=
  nonempty t = true /\ forall_chars Chars.is_tag_char t = true.

Definition elem_ok (e : option string) : Prop :=
  match e with
  | None => True
  | Some t => is_tag t
  end.

Definition ok_class (k : string) : Prop := is_tag k /\ toLowerCase k = k.

Definition ok_attr (a : string * string) : Prop :=
  forall_chars is_plain_name_char (fst a) = true
  /\ forall_chars Chars.is_value_char (snd a) = true
  /\ toLowerCase (snd a) = snd a.

(** A selector of a negation while and after it is built. *)
Definition ok_inner (n : CssSelector) : Prop :=
  elem_ok (element n) /\ Forall ok_class (classNames n)
  /\ Forall ok_attr (attrs n) /\ notSelectors n = [].

(** A top-level selector while it is built, before [_addResult]. *)
Definition ok_open (c : CssSelector) : Prop :=
  elem_ok (element c) /\ Forall ok_class (classNames c)
  /\ Forall ok_attr (attrs c) /\ Forall ok_inner (notSelectors c).

(** The selector as [_addResult] pushes it. *)
Definition sealed (cssSel : CssSelector) : CssSelector :=
  if (0 <? length (notSelectors cssSel)) && negb (truthy (element cssSel))
     && (length (classNames cssSel) =? 0) && (length (attrs cssSel) =? 0)
  then setElement (Some "*") cssSel
  else cssSel.

(** No attribute of the selector or of its negations has the empty name. *)
Definition names_nonempty (c : CssSelector) : Prop :=
  Forall (fun a => nonempty (fst a) = true) (attrs c)
  /\ Forall (fun n => Forall (fun a => nonempty (fst a) = true) (attrs n))
            (notSelectors c).

(** The state of [parse] between two iterations. *)
Definition ok_state (st : ParseState) : Prop :=
  Forall (fun r => exists c, ok_open c /\ r = sealed c) (results st)
  /\ ok_open (cssSelector st)
  /\ (inNot st = true -> notSelectors (cssSelector st) <> []).

(** The functions that [parse] applies to [current] keep the selector
    well-formed, at the top level and in a negation. *)
Definition keeps_ok (f : CssSelector -> CssSelector) : Prop :=
  (forall c, ok_open c -> ok_open (f c) /\ notSelectors (f c) = notSelectors c)
  /\ (forall n, ok_inner n -> ok_inner (f n)).

(** ** Reading a serialization *)

(** The string is empty or its first character is in the class. *)
Definition starts (p : ascii -> bool) (s : string) : bool :=
  match s with
  | EmptyString => true
  | String c _ => p c
  end.

(** The characters that [toString] and [serialize] write after a tag or a
    class name: the dot of a class, the bracket of an attribute, the colon
    of a negation, the comma and the closing parenthesis. *)
Definition is_delimiter (c : ascii) : bool :=
  Ascii.eqb c "." || Ascii.eqb c "[" || Ascii.eqb c ":" || Ascii.eqb c ","
  || Ascii.eqb c ")".

Definition no_tag (c : ascii) : bool := negb (Chars.is_tag_char c).
Definition no_name (c : ascii) : bool := negb (Chars.is_name_char c).
Definition no_value (c : ascii) : bool := negb (Chars.is_value_char c).
Definition no_space (c : ascii) : bool := negb (Chars.is_space c).

(** The matches of the expression, by what they captured. *)
Definition tag_match (prefix run : string) : RegExpMatch :=
  mkMatch None (Some (prefix +:+ run)) (Some prefix) None None None None None.

Definition attribute_match (name : string) (quote value : option string)
    : RegExpMatch :=
  mkMatch None None None (Some name) quote value None None.

Definition not_match : RegExpMatch :=
  mkMatch (Some ":not(") None None None None None None None.

Definition not_end_match : RegExpMatch :=
  mkMatch None None None None None None (Some ")") None.

Definition separator_match (sep : string) : RegExpMatch :=
  mkMatch None None None None None None None (Some sep).

(** The loop of [parse] on the text [s] from the state [st]. *)
Definition parse_from (s : string) (st : ParseState) : Result ParseState :=
  parse_loop (matches s) st.

(** The state of the loop outside a negation, and in a negation of
    [cssSelector] whose selector is [x]. *)
Definition top (res : list CssSelector) (c : CssSelector) : ParseState :=
  mkParseState res c false.

Definition with_not (c x : CssSelector) : CssSelector :=
  mkCssSelector (element c) (classNames c) (attrs c) (notSelectors c ++ [x]).

Definition inside (res : list CssSelector) (c x : CssSelector) : ParseState :=
  mkParseState res (with_not c x) true.

(** A state as a function of [current]. *)
Definition focus (K : CssSelector -> ParseState) : Prop :=
  forall f x, on_current f (K x) = K (f x).

(** The parts of [toString]. *)
Definition element_text (e : option string) : string :=
  match e with Some e => e | None => "" end.

Definition classes_text (ks : list string) : string :=
  concat_strings (map (fun klass => "." +:+ klass) ks).

Definition attrs_text (l : list (string * string)) : string :=
  concat_strings (map attr_toString l).

Definition nots_text (ns : list CssSelector) : string :=
  concat_strings
    (map (fun notSelector => ":not(" +:+ toString notSelector +:+ ")") ns).

(** ** What the index decides *)

(** The query has the constraint [k]: the element, the class name, or the
    attribute with the value; an attribute constraint without a value is
    met by the attribute with any value. *)
Definition carries (q : CssSelector) (k : Key) : bool :=
  match k with
  | KElement e => bool_decide (element q = Some e)
  | KClass c => existsb (String.eqb c) (classNames q)
  | KAttr n v =>
      existsb (fun a => String.eqb n (fst a) && String.eqb v (snd a))
              (attrs q)
      || (String.eqb v "" && existsb (fun a => String.eqb n (fst a)) (attrs q))
  end.

(** The constraint is the wildcard of its axis and the query has something
    on that axis: an element, a class name, the attribute. *)
Definition carries_wildcard (q : CssSelector) (k : Key) : bool :=
  match k with
  | KElement e =>
      String.eqb e "*"
      && match element q with Some _ => true | None => false end
  | KClass c => String.eqb c "*" && (0 <? length (classNames q))
  | KAttr n v =>
      String.eqb v "*" && existsb (fun a => String.eqb n (fst a)) (attrs q)
  end.

(** The query has all constraints of a path that is not empty, the last
    one possibly as the wildcard. *)
Fixpoint reaches (p : list Key) (q : CssSelector) : bool :=
  match p with
  | [] => false
  | k :: p' =>
      match p' with
      | [] => carries q k || carries_wildcard q k
      | _ :: _ => carries q k && reaches p' q
      end
  end.

(** The registered selector [s] selects the query [q]: the query has the
    constraints of [s], and none of the negations of [s] selects it. *)
Fixpoint selects (s q : CssSelector) {struct s} : bool :=
  reaches (path s) q
  && forallb (fun notSelector => negb (selects notSelector q))
       (notSelectors s).

(** The selectors of a sequence of batches. *)
Definition all_selectors (batches : list Batch) : list CssSelector :=
  flat_map fst batches.

(** The query [q'] has what the query [q] has. *)
Definition query_le (q q' : CssSelector) : Prop :=
  (forall e, element q = Some e -> element q' = Some e)
  /\ (forall c, In c (classNames q) -> In c (classNames q'))
  /\ (forall a, In a (attrs q) -> In a (attrs q')).

(** ** Strings and selectors, for the statements about [CssSelector] *)

(** The string without the occurrences of the character [c]. *)
Fixpoint without (c : ascii) (s : string) : string :=
  match s with
  | EmptyString => EmptyString
  | String x s' =>
      if Ascii.eqb x c then without c s' else String x (without c s')
  end.

(** A selector as [parse] returns it: the element, when there is one, is a
    tag or the [*] that [_addResult] sets; the class names are tags in lower
    case; the attribute names have no backslash and the values are in lower
    case, without quote and closing bracket; the negations have no
    negations of their own. *)
Definition parsed_shape (r : CssSelector) : Prop :=
  (element r = Some "*" \/ elem_ok (element r))
  /\ Forall ok_class (classNames r) /\ Forall ok_attr (attrs r)
  /\ Forall ok_inner (notSelectors r).

(** ** The handler of the page *)

Definition line_feed : ascii := "010".

(** [s.split('\n')]: the pieces of [s] between the line feeds, at least
    one. *)
Fixpoint split_lines (s : string) : list string :=
  match s with
  | EmptyString => [EmptyString]
  | String c s' =>
      if Ascii.eqb c line_feed then EmptyString :: split_lines s'
      else match split_lines s' with
           | line :: lines => String c line :: lines
           | [] => [String c EmptyString]
           end
  end.

(** [s.replace(/^ +/g, '')]: [s] without the spaces it starts with. *)
Fixpoint strip_spaces (s : string) : string :=
  match s with
  | String c s' => if Ascii.eqb c " " then strip_spaces s' else s
  | EmptyString => EmptyString
  end.

(** [list.map(CssSelector.parse)]: the results in order; the first call
    that throws ends the [map]. *)
Fixpoint map_parse (l : list string) : Result (list (list CssSelector)) :=
  match l with
  | [] => Ok []
  | s :: l' =>
      bind (parse s) (fun rs =>
      bind (map_parse l') (fun rss => Ok (rs :: rss)))
  end.

(** The text that [parseContent] of the [DOMContentLoaded] handler writes
    to [parsed.value], as a function of [origin.value]: the lines of
    [origin.value] without their leading spaces are parsed, and
    [join('\n')] turns every result, an array of selectors, into a string
    by the conversion of arrays ([join(',')] of the [toString] of the
    selectors, which is [serialize]).  When a call of [parse] throws, the
    handler ends with that error and writes nothing.  The share link, which
    [parseContent] sets as well, is not part of the model. *)
Definition parseContent (origin : string) : Result string :=
  bind (map_parse (map strip_spaces (split_lines origin))) (fun parsed =>
  Ok (join (String line_feed "") (map serialize parsed))).

Definition no_line_feed (c : ascii) : bool := negb (Ascii.eqb c line_feed).

(** What a match captured that [parse] reads as text: the tag, the
    attribute name and the attribute value consist of characters of the
    class [p]. *)
Definition captures (p : ascii -> bool) (m : RegExpMatch) : Prop :=
  (forall t, TAG m = Some t -> forall_chars p t = true)
  /\ (forall a, ATTRIBUTE m = Some a -> forall_chars p a = true)
  /\ (forall v, ATTRIBUTE_VALUE m = Some v -> forall_chars p v = true).

(** The characters that [parse] and [toString] write of their own. *)
Definition written : string :=
  String Chars.backslash (String Chars.dollar ".[]=:not()*,id").

(** The state of [parse] in which the texts of the results and of the
    selector being built consist of characters of the class [p]. *)
Definition text_state (p : ascii -> bool) (st : ParseState) : Prop :=
  Forall (fun r => forall_chars p (toString r) = true) (results st)
  /\ forall_chars p (toString (cssSelector st)) = true.

(** ** The selectors of a list, one by one *)

(** The matches of a text, cut at the separators: the matches each
    selector of the list is built from.  There is one segment more than
    there are separators. *)
Fixpoint segments (ms : list RegExpMatch) : list (list RegExpMatch) :=
  match ms with
  | [] => [[]]
  | m :: ms' =>
      if is_separator m then [] :: segments ms'
      else match segments ms' with
           | seg :: segs => (m :: seg) :: segs
           | [] => [[m]]
           end
  end.

(** The selector [r] is what [parse] returns for the segment [seg]: the
    loop of [parse], run on the matches of the segment from a new selector,
    builds a selector; when that one has negations but neither an element
    nor class names nor attributes, [r] is that selector with the element
    [*], and otherwise [r] is that selector. *)
Definition sealed_from (c0 : CssSelector) (inNot0 : bool)
    (seg : list RegExpMatch) (r : CssSelector) : Prop :=
  exists st,
    parse_loop seg (mkParseState [] c0 inNot0) = Ok st
    /\ (only_negations (cssSelector st) ->
        r = setElement (Some "*") (cssSelector st))
    /\ (~ only_negations (cssSelector st) -> r = cssSelector st).

Definition sealed_segment (seg : list RegExpMatch) (r : CssSelector) : Prop :=
  sealed_from new_CssSelector false seg r.

(** * Properties of the parser *)

(** ** Strings and the regular expression *)

#[local] Arguments String.append !_ _ / : simpl nomatch.

Lemma append_cons (c : ascii) (s t : string) :
  String c s +:+ t = String c (s +:+ t).
Proof. reflexivity. Qed.

Lemma append_empty_l (s : string) : "" +:+ s = s.
Proof. reflexivity. Qed.

Lemma append_empty_r (s : string) : s +:+ "" = s.
Proof.
  induction s as [|c s IH]; [reflexivity|]. now rewrite append_cons, IH.
Qed.

Lemma append_assoc (a b c : string) : (a +:+ b) +:+ c = a +:+ (b +:+ c).
Proof.
  induction a as [|x a IH]; [reflexivity|]. now rewrite !append_cons, IH.
Qed.

Lemma length_append (a b : string) :
  String.length (a +:+ b) = String.length a + String.length b.
Proof.
  induction a as [|x a IH]; [reflexivity|].
  rewrite append_cons. simpl. now rewrite IH.
Qed.

Lemma nonempty_length (s : string) :
  nonempty s = true <-> 0 < String.length s.
Proof. destruct s; simpl; split; intros H; try lia; try reflexivity; discriminate. Qed.

Lemma span_append p s run rest : span p s = (run, rest) -> s = run +:+ rest.
Proof.
  revert run rest. induction s as [|c s IH]; simpl; intros run rest H.
  - now inversion H.
  - destruct (p c).
    + destruct (span p s) as [run' rest'] eqn:E. inversion H; subst.
      simpl. f_equal. now apply IH.
    + now inversion H.
Qed.

Lemma span_length p s run rest :
  span p s = (run, rest) ->
  String.length s = String.length run + String.length rest.
Proof. intros H. rewrite (span_append _ _ _ _ H). apply length_append. Qed.

Lemma strip_append p s rest : strip p s = Some rest -> s = p +:+ rest.
Proof.
  revert s rest. induction p as [|a p IH]; simpl; intros s rest H.
  - now inversion H.
  - destruct s as [|b s]; [discriminate|].
    destruct (Ascii.eqb a b) eqn:E; [|discriminate].
    apply Ascii.eqb_eq in E. subst b. f_equal. now apply IH.
Qed.

Lemma strip_length p s rest :
  strip p s = Some rest ->
  String.length s = String.length p + String.length rest.
Proof. intros H. rewrite (strip_append _ _ _ H). apply length_append. Qed.

Lemma span_forall p s run rest :
  span p s = (run, rest) -> forall_chars p run = true.
Proof.
  revert run rest. induction s as [|c s IH]; simpl; intros run rest H.
  - now inversion H.
  - destruct (p c) eqn:E.
    + destruct (span p s) as [run' rest'] eqn:E'. inversion H; subst.
      simpl. rewrite E. simpl. eapply IH; eauto.
    + now inversion H.
Qed.

Lemma alt_not_spec s m rest :
  alt_not s = Some (m, rest) ->
  Token m /\ String.length rest < String.length s.
Proof.
  unfold alt_not. destruct (strip ":not(" s) as [r|] eqn:E; [|discriminate].
  intros H; inversion H; subst. split; [constructor|].
  apply strip_length in E. simpl in E. lia.
Qed.

Lemma alt_tag_spec s m rest :
  alt_tag s = Some (m, rest) ->
  Token m /\ String.length rest < String.length s.
Proof.
  unfold alt_tag.
  destruct s as [|c s'].
  - simpl. discriminate.
  - destruct (Ascii.eqb c "." || Ascii.eqb c "#") eqn:Ec.
    + destruct (span Chars.is_tag_char s') as [run r] eqn:E.
      destruct (nonempty run) eqn:En; [|discriminate].
      intros H; inversion H; subst. split.
      * pose proof (span_forall _ _ _ _ E) as Hall.
        apply orb_true_iff in Ec as [Ec|Ec]; apply Ascii.eqb_eq in Ec; subst c.
        -- apply (Token_tag "." run); auto.
        -- apply (Token_tag "#" run); auto.
      * apply span_length in E. simpl. lia.
    + destruct (span Chars.is_tag_char (String c s')) as [run r] eqn:E.
      destruct (nonempty run) eqn:En; [|discriminate].
      intros H; inversion H; subst. split.
      * pose proof (span_forall _ _ _ _ E) as Hall.
        apply (Token_tag "" run); auto.
      * apply span_length in E. apply nonempty_length in En. lia.
Qed.

Lemma alt_attribute_spec s m rest :
  alt_attribute s = Some (m, rest) ->
  Token m /\ String.length rest < String.length s.
Proof.
  unfold alt_attribute.
  destruct s as [|c s1]; [discriminate|].
  destruct (Ascii.eqb_spec c "[") as [->|Hc].
  2:{ destruct c as [[] [] [] [] [] [] [] []]; try discriminate;
        try now contradiction Hc. }
  destruct (span Chars.is_name_char s1) as [name s2] eqn:E.
  destruct (nonempty name) eqn:En; [|discriminate].
  pose proof (span_forall _ _ _ _ E) as Hname.
  apply span_length in E.
  destruct s2 as [|d s3]; [discriminate|].
  destruct (Ascii.eqb_spec d "]") as [->|Hd].
  { intros H; inversion H; subst.
    split; [constructor; auto; discriminate|]. simpl in *. lia. }
  destruct (Ascii.eqb_spec d "=") as [->|Hd'].
  2:{ destruct d as [[] [] [] [] [] [] [] []]; try discriminate;
        try (now contradiction Hd); try (now contradiction Hd'). }
  set (qs := match s3 with
             | String q s' =>
                 if Chars.is_quote q then (String q "", s') else ("", s3)
             | EmptyString => ("", s3)
             end).
  assert (Hq : String.length s3
               = String.length (fst qs) + String.length (snd qs)).
  { subst qs. destruct s3 as [|q s']; simpl; [reflexivity|].
    destruct (Chars.is_quote q); simpl; reflexivity. }
  destruct qs as [quote s4]. simpl in Hq.
  destruct (span Chars.is_value_char s4) as [value s5] eqn:Ev.
  pose proof (span_forall _ _ _ _ Ev) as Hvalue.
  apply span_length in Ev.
  destruct (strip (quote +:+ "]") s5) as [r|] eqn:Es; [|discriminate].
  apply strip_length in Es.
  intros H; inversion H; subst. split.
  - constructor; auto. intros v Hv. now inversion Hv; subst.
  - simpl in *. lia.
Qed.

Lemma alt_not_end_spec s m rest :
  alt_not_end s = Some (m, rest) ->
  Token m /\ String.length rest < String.length s.
Proof.
  unfold alt_not_end. destruct s as [|c s']; [discriminate|].
  destruct (Ascii.eqb_spec c ")") as [->|Hc].
  - intros H; inversion H; subst. split; [constructor|simpl; lia].
  - destruct c as [[] [] [] [] [] [] [] []]; try discriminate;
      try now contradiction Hc.
Qed.

Lemma alt_separator_spec s m rest :
  alt_separator s = Some (m, rest) ->
  Token m /\ String.length rest < String.length s.
Proof.
  unfold alt_separator.
  destruct (span Chars.is_space s) as [before s1] eqn:E1.
  apply span_length in E1.
  destruct s1 as [|c s2]; [discriminate|].
  destruct (Ascii.eqb_spec c ",") as [->|Hc].
  2:{ destruct c as [[] [] [] [] [] [] [] []]; try discriminate;
        try now contradiction Hc. }
  destruct (span Chars.is_space s2) as [after r] eqn:E2.
  apply span_length in E2.
  intros H; inversion H; subst. split.
  - constructor. destruct before; reflexivity.
  - simpl in *. lia.
Qed.

Lemma match_here_spec s m rest :
  match_here s = Some (m, rest) ->
  Token m /\ String.length rest < String.length s.
Proof.
  unfold match_here, or_else.
  destruct (alt_not s) as [[]|] eqn:E1.
  { intros H; inversion H; subst. eauto using alt_not_spec. }
  destruct (alt_tag s) as [[]|] eqn:E2.
  { intros H; inversion H; subst. eauto using alt_tag_spec. }
  destruct (alt_attribute s) as [[]|] eqn:E3.
  { intros H; inversion H; subst. eauto using alt_attribute_spec. }
  destruct (alt_not_end s) as [[]|] eqn:E4.
  { intros H; inversion H; subst. eauto using alt_not_end_spec. }
  apply alt_separator_spec.
Qed.

Lemma exec_spec s m rest :
  exec s = Some (m, rest) ->
  Token m /\ String.length rest < String.length s.
Proof.
  induction s as [|c s IH].
  - discriminate.
  - cbn [exec]. destruct (match_here (String c s)) as [[]|] eqn:E.
    + intros H; inversion H; subst. apply match_here_spec in E. exact E.
    + intros H. apply IH in H. simpl. intuition lia.
Qed.

Lemma matches_from_enough (fuel fuel' : nat) (s : string) :
  String.length s < fuel -> String.length s < fuel' ->
  matches_from fuel s = matches_from fuel' s.
Proof.
  revert fuel' s. induction fuel as [|fuel IH]; intros fuel' s H H'; [lia|].
  destruct fuel' as [|fuel']; [lia|]. simpl.
  destruct (exec s) as [[m rest]|] eqn:E; [|reflexivity].
  apply exec_spec in E as [_ E]. f_equal. apply IH; lia.
Qed.

(** The equation of the loop: the fuel of [matches] never runs out. *)
Lemma matches_unfold (s : string) :
  matches s =
  match exec s with
  | Some (m, rest) => m :: matches rest
  | None => []
  end.
Proof.
  unfold matches at 1. simpl.
  destruct (exec s) as [[m rest]|] eqn:E; [|reflexivity].
  f_equal. apply exec_spec in E as [_ E].
  unfold matches. apply matches_from_enough; lia.
Qed.

Lemma matches_Token (s : string) : Forall Token (matches s).
Proof.
  remember (String.length s) as n eqn:Hn.
  revert s Hn. induction n as [n IH] using lt_wf_ind. intros s ->.
  rewrite matches_unfold.
  destruct (exec s) as [[m rest]|] eqn:E; [|constructor].
  apply exec_spec in E as [Hm Hlen]. constructor; [exact Hm|].
  eapply IH; [exact Hlen | reflexivity].
Qed.

(** ** The loop of [parse] *)

Lemma _addResult_app (res : list CssSelector) (c : CssSelector) :
  exists c', _addResult res c = res ++ [c'] /\ ~ only_negations c'.
Proof.
  unfold _addResult.
  destruct ((0 <? length (notSelectors c)) && negb (truthy (element c))
            && (length (classNames c) =? 0) && (length (attrs c) =? 0))
    eqn:E.
  - eexists; split; [reflexivity|]. intros (_ & H & _). discriminate H.
  - exists c; split; [reflexivity|]. intros (Hn & He & Hc & Ha).
    rewrite He, Hc, Ha in E. destruct (notSelectors c); [congruence|].
    discriminate E.
Qed.

Lemma bind_Ok {A B} (r : Result A) (k : A -> Result B) (b : B) :
  bind r k = Ok b -> exists a, r = Ok a /\ k a = Ok b.
Proof. destruct r as [a|e]; simpl; [eauto|discriminate]. Qed.

Lemma on_current_results f st : results (on_current f st) = results st.
Proof. unfold on_current. now destruct (inNot st). Qed.

Lemma on_current_inNot f st : inNot (on_current f st) = inNot st.
Proof. unfold on_current. now destruct (inNot st). Qed.

Lemma step_not_results m st st' :
  step_not m st = Ok st' -> results st' = results st.
Proof.
  unfold step_not. destruct (truthy (NOT m)); [destruct (inNot st)|];
    intros H; inversion H; reflexivity.
Qed.

Lemma step_tag_results m st : results (step_tag m st) = results st.
Proof.
  unfold step_tag. destruct (TAG m) as [tag|]; [|reflexivity].
  destruct (nonempty tag); [|reflexivity].
  repeat case_bool_decide; apply on_current_results.
Qed.

Lemma step_tag_inNot m st : inNot (step_tag m st) = inNot st.
Proof.
  unfold step_tag. destruct (TAG m) as [tag|]; [|reflexivity].
  destruct (nonempty tag); [|reflexivity].
  repeat case_bool_decide; apply on_current_inNot.
Qed.

Lemma step_attribute_Ok m st st' :
  step_attribute m st = Ok st' ->
  results st' = results st /\ inNot st' = inNot st.
Proof.
  unfold step_attribute. destruct (ATTRIBUTE m) as [a|].
  - destruct (nonempty a).
    + intros H. apply bind_Ok in H as (name & _ & H). inversion H; subst.
      now rewrite on_current_results, on_current_inNot.
    + intros H; inversion H; auto.
  - intros H; inversion H; auto.
Qed.

Lemma step_not_end_results m st : results (step_not_end m st) = results st.
Proof. unfold step_not_end. now destruct (truthy (NOT_END m)). Qed.

Lemma parse_step_results (P : CssSelector -> Prop) m st st' :
  (forall c, ~ only_negations c -> P c) ->
  parse_step m st = Ok st' -> Forall P (results st) -> Forall P (results st').
Proof.
  intros HP H HF. unfold parse_step in H.
  apply bind_Ok in H as (st1 & H1 & H). apply bind_Ok in H as (st3 & H3 & H).
  apply step_not_results in H1. apply step_attribute_Ok in H3 as [H3 _].
  rewrite step_tag_results, H1 in H3.
  unfold step_separator in H. rewrite step_not_end_results, H3 in H.
  destruct (truthy (SEPARATOR m)).
  - destruct (inNot _); [discriminate|]. inversion H; subst; simpl.
    destruct (_addResult_app (results st) (cssSelector (step_not_end m st3)))
      as (c' & -> & Hc').
    apply Forall_app; split; [exact HF|]. constructor; [auto|constructor].
  - inversion H; subst. now rewrite step_not_end_results, H3.
Qed.

Lemma parse_loop_results (P : CssSelector -> Prop) ms st st' :
  (forall c, ~ only_negations c -> P c) ->
  parse_loop ms st = Ok st' -> Forall P (results st) -> Forall P (results st').
Proof.
  intros HP. revert st. induction ms as [|m ms IH]; simpl; intros st H HF.
  - now inversion H; subst.
  - apply bind_Ok in H as (st1 & E & H).
    eapply IH; [exact H|]. eapply parse_step_results; eauto.
Qed.

Lemma parse_results (P : CssSelector -> Prop) s rs :
  (forall c, ~ only_negations c -> P c) ->
  parse s = Ok rs -> Forall P rs.
Proof.
  intros HP H. unfold parse in H. apply bind_Ok in H as (st & E & H).
  inversion H; subst.
  destruct (_addResult_app (results st) (cssSelector st)) as (c' & -> & Hc').
  apply Forall_app; split.
  - eapply parse_loop_results; [exact HP | exact E | constructor].
  - constructor; [auto|constructor].
Qed.

(** C10.  On an input in which the regular expression finds no token, the
    empty string among them, [parse] returns exactly one selector, with a
    [null] element and no class names, attributes or negations; and whenever
    [parse] returns, it returns at least one selector. *)
Theorem parse_no_token (s : string) :
  (exec s = None -> parse s = Ok [mkCssSelector None [] [] []])
  /\ (forall rs, parse s = Ok rs -> 1 <= length rs)
  /\ parse "" = Ok [mkCssSelector None [] [] []].
Proof.
  split; [|split].
  - intros H. unfold parse. rewrite matches_unfold, H. reflexivity.
  - intros rs H. unfold parse in H. apply bind_Ok in H as (st & _ & H).
    inversion H; subst.
    destruct (_addResult_app (results st) (cssSelector st)) as (c' & -> & _).
    rewrite length_app. simpl. lia.
  - reflexivity.
Qed.

Lemma parse_no_token_witness :
  parse "> + ~" = Ok [mkCssSelector None [] [] []]
  /\ 1 <= length [mkCssSelector (Some "a") [] [] []].
Proof.
  split.
  - apply (proj1 (parse_no_token "> + ~")). vm_compute; reflexivity.
  - apply (proj1 (proj2 (parse_no_token "a"))). vm_compute; reflexivity.
Defined.

(** ** When [parse] throws *)

Lemma append_not_empty (a : string) (c : ascii) (b : string) :
  a +:+ String c b <> "".
Proof. destruct a; discriminate. Qed.

Lemma ends_escaping_spec (escaping : bool) (pre : string) :
  ends_escaping escaping pre = true <->
  (pre = "" /\ escaping = true)
  \/ exists pre', pre = pre' +:+ String Chars.backslash "".
Proof.
  revert escaping. induction pre as [|c p IH]; intros escaping; simpl.
  - split; [auto|]. intros [[_ H]|[pre' H]]; [exact H|].
    symmetry in H. now apply append_not_empty in H.
  - rewrite IH. split.
    + intros [[-> H]|[p' ->]].
      * apply Ascii.eqb_eq in H. subst c. right. now exists "".
      * right. now exists (String c p').
    + intros [[H _]|[pre' H]]; [discriminate|].
      destruct pre' as [|d pre'']; simpl in H; inversion H; subst.
      * left. split; [reflexivity | apply Ascii.eqb_refl].
      * right. now exists pre''.
Qed.

Lemma unescape_loop_Throw (attr s : string) (escaping : bool) (e : Error) :
  unescape_loop attr s escaping = Throw e <->
  e = UnescapedDollar attr
  /\ exists pre post, s = pre +:+ String Chars.dollar post
                      /\ ends_escaping escaping pre = false.
Proof.
  revert escaping e. induction s as [|c s IH]; intros escaping e; simpl.
  - split; [discriminate|]. intros (_ & pre & post & H & _).
    symmetry in H. now apply append_not_empty in H.
  - destruct (Ascii.eqb_spec c Chars.backslash) as [->|Hb].
    + rewrite IH. split; intros (He & pre & post & Hs & Hp); split; auto.
      * exists (String Chars.backslash pre), post. simpl. now subst.
      * destruct pre as [|d pre']; simpl in Hs; inversion Hs; subst.
        exists pre', post. split; [reflexivity|]. exact Hp.
    + destruct (Ascii.eqb_spec c Chars.dollar) as [->|Hd]; simpl.
      * destruct escaping; simpl.
        -- destruct (unescape_loop attr s false) as [r|e'] eqn:E.
           ++ split; [discriminate|]. intros (He & pre & post & Hs & Hp).
              destruct pre as [|d pre']; simpl in Hs, Hp; [discriminate|].
              inversion Hs; subst.
              match type of E with ?l = _ =>
                assert (X : l = Throw (UnescapedDollar attr)) end;
                [|congruence].
              apply IH. split; [reflexivity|]. now exists pre', post.
           ++ apply IH in E as (-> & pre & post & -> & Hp).
              split; [intros H; inversion H; subst|intros [-> _]; reflexivity].
              split; [reflexivity|].
              now exists (String Chars.dollar pre), post.
        -- split; [intros H; inversion H; subst|intros [-> _]; reflexivity].
           split; [reflexivity|]. now exists "", s.
      * destruct (unescape_loop attr s false) as [r|e'] eqn:E.
        -- split; [discriminate|]. intros (He & pre & post & Hs & Hp).
           destruct pre as [|d pre']; simpl in Hs, Hp;
             inversion Hs; subst; [congruence|].
           destruct (Ascii.eqb_spec d Chars.backslash); [congruence|].
           match type of E with ?l = _ =>
             assert (X : l = Throw (UnescapedDollar attr)) end;
             [|congruence].
           apply IH. split; [reflexivity|]. now exists pre', post.
        -- apply IH in E as (-> & pre & post & -> & Hp).
           split; [intros H; inversion H; subst|intros [-> _]; reflexivity].
           split; [reflexivity|].
           exists (String c pre), post. split; [reflexivity|]. simpl.
           now destruct (Ascii.eqb_spec c Chars.backslash).
Qed.

Lemma unescapeAttribute_Throw (name : string) (e : Error) :
  unescapeAttribute name = Throw e <->
  unescaped_dollar name /\ e = UnescapedDollar name.
Proof.
  unfold unescapeAttribute, unescaped_dollar. rewrite unescape_loop_Throw.
  split.
  - intros (-> & pre & post & Hs & Hp). split; [|reflexivity].
    exists pre, post. split; [exact Hs|]. intros Hx.
    assert (ends_escaping false pre = true) as X; [|congruence].
    apply ends_escaping_spec. now right.
  - intros ((pre & post & Hs & Hp) & ->). split; [reflexivity|].
    exists pre, post. split; [exact Hs|].
    destruct (ends_escaping false pre) eqn:E; [|reflexivity].
    apply ends_escaping_spec in E as [[_ E]|E]; [discriminate|contradiction].
Qed.

Lemma parse_step_Token (m : RegExpMatch) (st : ParseState) :
  Token m ->
  (forall e, parse_step m st = Throw e <-> raises_from (inNot st) [] m e)
  /\ (forall st', parse_step m st = Ok st' ->
                  inNot st' = negation_open_from (inNot st) [m]).
Proof.
  intros T. unfold raises_from, parse_step.
  destruct T as [|prefix run Hrun Hp _|name quote value Hname _ _| |sep Hsep];
    unfold step_not, step_attribute, step_separator, step_not_end,
      opens_negation, closes_negation, is_separator; simpl.
  - destruct (inNot st); simpl; split.
    + intros e; split; [intros H; inversion H; auto|].
      intros [(_ & _ & ->)|[(H & _)|(n & H & _)]];
        [reflexivity|discriminate|discriminate].
    + discriminate.
    + intros e; split; [discriminate|].
      intros [(_ & H & _)|[(H & _)|(n & H & _)]]; discriminate.
    + intros st' H; inversion H; reflexivity.
  - split.
    + intros e; split; [discriminate|].
      intros [(H & _)|[(H & _)|(n & H & _)]]; discriminate.
    + intros st' H; inversion H. apply step_tag_inNot.
  - rewrite Hname. unfold step_tag; simpl.
    destruct (unescapeAttribute name) as [n|e0] eqn:E; simpl; split.
    + intros e; split; [discriminate|].
      intros [(H & _)|[(H & _)|(n' & H & Hu & He)]]; try discriminate.
      inversion H; subst n'.
      assert (unescapeAttribute name = Throw e) as X
        by (now apply unescapeAttribute_Throw).
      congruence.
    + intros st' H; inversion H. apply on_current_inNot.
    + apply unescapeAttribute_Throw in E as [Hu ->].
      intros e; split.
      * intros H; inversion H; subst. right; right. now exists name.
      * intros [(H & _)|[(H & _)|(n' & H & _ & ->)]]; try discriminate.
        now inversion H.
    + discriminate.
  - split.
    + intros e; split; [discriminate|].
      intros [(H & _)|[(H & _)|(n & H & _)]]; discriminate.
    + intros st' H; inversion H; reflexivity.
  - rewrite Hsep. unfold step_tag; simpl. destruct (inNot st); split.
    + intros e; split; [intros H; inversion H; auto|].
      intros [(H & _)|[(_ & _ & ->)|(n & H & _)]];
        [discriminate|reflexivity|discriminate].
    + discriminate.
    + intros e; split; [discriminate|].
      intros [(H & _)|[(_ & H & _)|(n & H & _)]]; discriminate.
    + intros st' H; inversion H; reflexivity.
Qed.

Lemma parse_loop_Throw (ms : list RegExpMatch) :
  Forall Token ms ->
  forall (st : ParseState) (e : Error),
    parse_loop ms st = Throw e <->
    exists before m after,
      ms = before ++ m :: after
      /\ raises_from (inNot st) before m e
      /\ forall b1 m1 a1 e1,
           before = b1 ++ m1 :: a1 -> ~ raises_from (inNot st) b1 m1 e1.
Proof.
  induction 1 as [|m0 ms T _ IH]; intros st e; simpl.
  - split; [discriminate|]. intros (before & m & after & H & _).
    now destruct before.
  - destruct (parse_step_Token m0 st T) as [HT HO].
    destruct (parse_step m0 st) as [st1|e0] eqn:E; simpl.
    + specialize (HO st1 eq_refl). rewrite IH, HO. split.
      * intros (before & m & after & -> & Hr & Hfirst).
        exists (m0 :: before), m, after. split; [reflexivity|].
        split; [exact Hr|].
        intros b1 m1 a1 e1 Hb. destruct b1 as [|x b1]; inversion Hb; subst.
        -- intros Hx. apply HT in Hx. discriminate.
        -- now apply (Hfirst b1 m1 a1 e1).
      * intros (before & m & after & Hms & Hr & Hfirst).
        destruct before as [|x before]; inversion Hms; subst.
        -- apply HT in Hr. discriminate.
        -- exists before, m, after. split; [reflexivity|].
           split; [exact Hr|].
           intros b1 m1 a1 e1 ->. now apply (Hfirst (x :: b1) m1 a1 e1).
    + split.
      * intros H1; inversion H1; subst. exists [], m0, ms.
        split; [reflexivity|]. split; [now apply HT|].
        intros b1 m1 a1 e1 Hb. now destruct b1.
      * intros (before & m & after & Hms & Hr & Hfirst).
        destruct before as [|x before]; inversion Hms; subst.
        -- apply HT in Hr. congruence.
        -- exfalso. apply (Hfirst [] x before e0); [reflexivity|].
           now apply HT.
Qed.

Lemma parse_loop_Ok_no_raise (ms : list RegExpMatch) :
  Forall Token ms ->
  forall st st', parse_loop ms st = Ok st' ->
    forall before m after e,
      ms = before ++ m :: after -> ~ raises_from (inNot st) before m e.
Proof.
  induction 1 as [|m0 ms T _ IH]; intros st st' Hok before m after e Hms.
  - now destruct before.
  - simpl in Hok. apply bind_Ok in Hok as (st1 & E & Hok).
    destruct (parse_step_Token m0 st T) as [HT HO].
    destruct before as [|x before]; inversion Hms; subst.
    + intros Hr. apply HT in Hr. congruence.
    + specialize (HO st1 E). specialize (IH st1 st' Hok before m after e eq_refl).
      rewrite HO in IH. exact IH.
Qed.

Lemma parse_Throw_loop (s : string) (e : Error) :
  parse s = Throw e <->
  parse_loop (matches s) (mkParseState [] new_CssSelector false) = Throw e.
Proof.
  unfold parse. destruct (parse_loop _ _); simpl; split; congruence.
Qed.

(** C5.  [parse] throws exactly when one of the three conditions is met by a
    token of the input: an opening of a negation while one is open, a
    separator while one is open, an attribute whose name holds a dollar that
    no backslash stands in front of.  The error thrown is the one of the
    first token that meets a condition; an input without such a token is
    parsed to a result; and the two nested and comma examples throw their
    errors. *)
Theorem parse_raises_exactly (s : string) :
  ((exists e, parse s = Throw e) <->
   exists before m after e,
     matches s = before ++ m :: after /\ raises before m e)
  /\ (forall e,
        parse s = Throw e <->
        exists before m after,
          matches s = before ++ m :: after /\ raises before m e
          /\ forall b1 m1 a1 e1,
               before = b1 ++ m1 :: a1 -> ~ raises b1 m1 e1)
  /\ ((forall before m after e,
         matches s = before ++ m :: after -> ~ raises before m e) ->
      exists rs, parse s = Ok rs)
  /\ parse "a:not(b:not(c))" = Throw NestedNot
  /\ parse "a:not(b, c)" = Throw MultipleSelectorsInNot.
Proof.
  pose proof (matches_Token s) as T.
  assert (Hfirst : forall e,
             parse s = Throw e <->
             exists before m after,
               matches s = before ++ m :: after /\ raises before m e
               /\ forall b1 m1 a1 e1,
                    before = b1 ++ m1 :: a1 -> ~ raises b1 m1 e1).
  { intros e. rewrite parse_Throw_loop.
    now rewrite (parse_loop_Throw _ T). }
  assert (Hnone : (forall before m after e,
                      matches s = before ++ m :: after -> ~ raises before m e)
                  -> exists rs, parse s = Ok rs).
  { intros Hno. destruct (parse s) as [rs|e] eqn:E; [eauto|].
    destruct (proj1 (Hfirst e) eq_refl) as (before & m & after & Hms & Hr & _).
    now apply (Hno before m after e Hms) in Hr. }
  split; [|split; [exact Hfirst|split; [exact Hnone|split; reflexivity]]].
  split.
  - intros [e He]. apply Hfirst in He as (before & m & after & Hms & Hr & _).
    now exists before, m, after, e.
  - intros (before & m & after & e & Hms & Hr).
    destruct (parse s) as [rs|e'] eqn:E; [|eauto]. exfalso.
    unfold parse in E. apply bind_Ok in E as (st & E & _).
    now apply (parse_loop_Ok_no_raise _ T _ _ E before m after e Hms).
Qed.

Lemma parse_raises_exactly_witness :
  (exists rs, parse "a.b" = Ok rs)
  /\ exists e, parse "[a$]" = Throw e.
Proof.
  split.
  - apply (proj1 (proj2 (proj2 (parse_raises_exactly "a.b")))).
    intros before m after e H. vm_compute in H.
    destruct before as [|x [|y [|z before]]]; inversion H; subst;
      intros [(H1 & _)|[(H1 & _)|(n & H1 & _)]]; discriminate H1.
  - apply (proj2 (proj1 (parse_raises_exactly "[a$]"))).
    exists [], (mkMatch None None None (Some "a$") None None None None), [],
      (UnescapedDollar "a$").
    split; [vm_compute; reflexivity|].
    right; right. exists "a$". split; [reflexivity|]. split; [|reflexivity].
    exists "a", "". split; [reflexivity|].
    intros [pre' H]. destruct pre' as [|c [|d p]]; discriminate H.
Defined.

(** C3 fails on the code.  The text of the three characters opening
    bracket, backslash, closing bracket is accepted by [parse]: the name of
    the attribute is the backslash, which [unescapeAttribute] drops, so the
    selector has one attribute with the empty name.  [toString] writes it as
    an empty pair of brackets, in which the regular expression finds no
    attribute: the second parse returns a selector without attributes. *)
Lemma roundtrip_empty_name :
  parse (String "[" (String Chars.backslash (String "]" "")))
  = Ok [mkCssSelector None [] [("", "")] []]
  /\ serialize [mkCssSelector None [] [("", "")] []] = "[]"
  /\ parse "[]" = Ok [mkCssSelector None [] [] []]
  /\ attrs (mkCssSelector None [] [("", "")] [])
     <> attrs (mkCssSelector None [] [] []).
Proof. repeat split; try (vm_compute; reflexivity). discriminate. Qed.

(** ** The selectors that [parse] returns *)

Ltac each_char c :=
  destruct c as [[] [] [] [] [] [] [] []]; vm_compute; congruence.

Lemma lower_idem c : Chars.lower (Chars.lower c) = Chars.lower c.
Proof. each_char c. Qed.

Lemma lower_tag c :
  Chars.is_tag_char c = true -> Chars.is_tag_char (Chars.lower c) = true.
Proof. each_char c. Qed.

Lemma lower_value c :
  Chars.is_value_char c = true -> Chars.is_value_char (Chars.lower c) = true.
Proof. each_char c. Qed.

Lemma tag_value c :
  Chars.is_tag_char c = true -> Chars.is_value_char c = true.
Proof. each_char c. Qed.

Lemma forall_chars_weaken (p p' : ascii -> bool) s :
  (forall c, p c = true -> p' c = true) ->
  forall_chars p s = true -> forall_chars p' s = true.
Proof.
  intros H. induction s as [|c s IH]; simpl; [reflexivity|].
  intros Hs. apply andb_true_iff in Hs as [Hc Hs].
  now rewrite (H c Hc), IH.
Qed.

Lemma forall_chars_lower (p : ascii -> bool) s :
  (forall c, p c = true -> p (Chars.lower c) = true) ->
  forall_chars p s = true -> forall_chars p (toLowerCase s) = true.
Proof.
  intros H. induction s as [|c s IH]; simpl; [reflexivity|].
  intros Hs. apply andb_true_iff in Hs as [Hc Hs].
  now rewrite (H c Hc), IH.
Qed.

Lemma toLowerCase_idem s : toLowerCase (toLowerCase s) = toLowerCase s.
Proof.
  induction s as [|c s IH]; simpl; [reflexivity|]. now rewrite lower_idem, IH.
Qed.

Lemma nonempty_toLowerCase s : nonempty (toLowerCase s) = nonempty s.
Proof. now destruct s. Qed.

Lemma ok_class_lower k : is_tag k -> ok_class (toLowerCase k).
Proof.
  intros [Hn Hc]. split; [split|].
  - now rewrite nonempty_toLowerCase.
  - apply forall_chars_lower; [apply lower_tag | exact Hc].
  - apply toLowerCase_idem.
Qed.

Lemma unescape_loop_plain attr s escaping r :
  forall_chars Chars.is_name_char s = true ->
  unescape_loop attr s escaping = Ok r ->
  forall_chars is_plain_name_char r = true.
Proof.
  revert escaping r. induction s as [|c s IH]; intros escaping r; simpl.
  - intros _ H. now inversion H.
  - intros Hs. apply andb_true_iff in Hs as [Hc Hs].
    destruct (Ascii.eqb c Chars.backslash) eqn:Eb; [now apply IH|].
    destruct (Ascii.eqb c Chars.dollar && negb escaping); [discriminate|].
    destruct (unescape_loop attr s false) as [r'|] eqn:E; [|discriminate].
    intros H; inversion H; subst. simpl.
    unfold is_plain_name_char at 1. rewrite Hc, Eb. simpl.
    eapply IH; eauto.
Qed.

Lemma keeps_ok_setElement t : is_tag t -> keeps_ok (setElement (Some t)).
Proof.
  intros Ht. split.
  - intros c (He & Hc & Ha & Hn). split; [|reflexivity].
    split; [exact Ht|]. split; [exact Hc|]. split; [exact Ha | exact Hn].
  - intros n (He & Hc & Ha & Hn).
    split; [exact Ht|]. split; [exact Hc|]. split; [exact Ha | exact Hn].
Qed.

Lemma keeps_ok_addClassName k : is_tag k -> keeps_ok (addClassName k).
Proof.
  intros Hk. pose proof (ok_class_lower k Hk) as Hok. split.
  - intros c (He & Hc & Ha & Hn). split; [|reflexivity].
    split; [exact He|]. split; [|split; [exact Ha | exact Hn]].
    simpl. apply Forall_app. split; [exact Hc | now constructor].
  - intros n (He & Hc & Ha & Hn).
    split; [exact He|]. split; [|split; [exact Ha | exact Hn]].
    simpl. apply Forall_app. split; [exact Hc | now constructor].
Qed.

Lemma keeps_ok_addAttribute name value :
  forall_chars is_plain_name_char name = true ->
  (forall v, value = Some v -> forall_chars Chars.is_value_char v = true) ->
  keeps_ok (addAttribute name value).
Proof.
  intros Hname Hvalue.
  assert (Hok : ok_attr (name,
                         match value with
                         | Some v => if nonempty v then toLowerCase v else ""
                         | None => ""
                         end)).
  { split; [exact Hname|]. simpl.
    destruct value as [v|]; [|split; reflexivity].
    destruct (nonempty v); [|split; reflexivity]. split.
    - apply forall_chars_lower; [apply lower_value | now apply Hvalue].
    - apply toLowerCase_idem. }
  split.
  - intros c (He & Hc & Ha & Hn). split; [|reflexivity].
    split; [exact He|]. split; [exact Hc|]. split; [|exact Hn].
    simpl. apply Forall_app. split; [exact Ha | now constructor].
  - intros n (He & Hc & Ha & Hn).
    split; [exact He|]. split; [exact Hc|]. split; [|exact Hn].
    simpl. apply Forall_app. split; [exact Ha | now constructor].
Qed.

Lemma map_last_snoc {A} (f : A -> A) (l : list A) (x : A) :
  map_last f (l ++ [x]) = l ++ [f x].
Proof.
  unfold map_last. rewrite rev_app_distr. simpl. now rewrite rev_involutive.
Qed.

Lemma ok_inner_new : ok_inner new_CssSelector.
Proof. repeat split; constructor. Qed.

Lemma ok_open_new : ok_open new_CssSelector.
Proof. repeat split; constructor. Qed.

Lemma _addResult_sealed res c : _addResult res c = res ++ [sealed c].
Proof.
  unfold _addResult, sealed.
  now destruct ((0 <? length (notSelectors c)) && negb (truthy (element c))
                && (length (classNames c) =? 0) && (length (attrs c) =? 0)).
Qed.

Lemma on_current_ok f st : keeps_ok f -> ok_state st -> ok_state (on_current f st).
Proof.
  intros [Ho Hi] (Hres & Hc & Hnot). unfold on_current.
  destruct (inNot st) eqn:E.
  - destruct (exists_last (Hnot eq_refl)) as (l & x & Hl).
    destruct Hc as (He & Hk & Ha & Hn). rewrite Hl in Hn |- *.
    rewrite map_last_snoc. apply Forall_app in Hn as [Hn Hx].
    inversion Hx; subst.
    split; [exact Hres|]. split.
    + split; [exact He|]. split; [exact Hk|]. split; [exact Ha|]. simpl.
      apply Forall_app. split; [exact Hn|]. constructor; [auto|constructor].
    + intros _. simpl. now destruct l.
  - split; [exact Hres|]. split; [now apply Ho|]. discriminate.
Qed.

Lemma step_not_ok m st st' :
  ok_state st -> step_not m st = Ok st' -> ok_state st'.
Proof.
  intros (Hres & Hc & Hnot). unfold step_not.
  destruct (truthy (NOT m)); [|intros H; inversion H; subst; split; [|split]; assumption].
  destruct (inNot st); [discriminate|]. intros H; inversion H; subst.
  destruct Hc as (He & Hk & Ha & Hn).
  split; [exact Hres|]. split.
  - split; [exact He|]. split; [exact Hk|]. split; [exact Ha|]. simpl.
    apply Forall_app. split; [exact Hn|].
    constructor; [apply ok_inner_new|constructor].
  - intros _. simpl. now destruct (notSelectors (cssSelector st)).
Qed.

Lemma is_tag_value run :
  forall_chars Chars.is_tag_char run = true ->
  forall_chars Chars.is_value_char run = true.
Proof. apply forall_chars_weaken, tag_value. Qed.

Lemma step_tag_ok m st : Token m -> ok_state st -> ok_state (step_tag m st).
Proof.
  intros T Hst. unfold step_tag.
  destruct T as [|prefix run Hrun Hp Hc|name quote value Hname _ _| |sep Hsep];
    simpl; try exact Hst.
  destruct (nonempty (prefix +:+ run)); [|exact Hst].
  destruct Hp as [-> | [-> | ->]]; simpl.
  - apply on_current_ok; [|exact Hst]. now apply keeps_ok_setElement.
  - apply on_current_ok; [|exact Hst]. now apply keeps_ok_addClassName.
  - apply on_current_ok; [|exact Hst]. apply keeps_ok_addAttribute.
    + reflexivity.
    + intros v H; inversion H; subst. now apply is_tag_value.
Qed.

Lemma step_attribute_ok m st st' :
  Token m -> ok_state st -> step_attribute m st = Ok st' -> ok_state st'.
Proof.
  intros T Hst. unfold step_attribute.
  destruct T as [|prefix run Hrun Hp Hc|name quote value Hname Hn Hv| |sep Hsep];
    simpl; try (intros H; inversion H; subst; exact Hst).
  rewrite Hname. intros H. apply bind_Ok in H as (n & E & H).
  inversion H; subst. apply on_current_ok; [|exact Hst].
  apply keeps_ok_addAttribute; [|exact Hv].
  eapply unescape_loop_plain; [exact Hn | exact E].
Qed.

Lemma step_not_end_ok m st : ok_state st -> ok_state (step_not_end m st).
Proof.
  intros (Hres & Hc & Hnot). unfold step_not_end.
  destruct (truthy (NOT_END m)); [|split; [|split]; assumption].
  split; [exact Hres|]. split; [exact Hc|]. discriminate.
Qed.

Lemma step_separator_ok m st st' :
  ok_state st -> step_separator m st = Ok st' -> ok_state st'.
Proof.
  intros (Hres & Hc & Hnot). unfold step_separator.
  destruct (truthy (SEPARATOR m)); [|intros H; inversion H; subst; split; [|split]; assumption].
  destruct (inNot st); [discriminate|]. intros H; inversion H; subst.
  rewrite _addResult_sealed. split; simpl.
  - apply Forall_app. split; [exact Hres|]. constructor; [eauto|constructor].
  - split; [apply ok_open_new|discriminate].
Qed.

Lemma parse_step_ok m st st' :
  Token m -> ok_state st -> parse_step m st = Ok st' -> ok_state st'.
Proof.
  intros T Hst H. unfold parse_step in H.
  apply bind_Ok in H as (st1 & H1 & H). apply bind_Ok in H as (st3 & H3 & H).
  eapply step_separator_ok; [|exact H]. apply step_not_end_ok.
  eapply step_attribute_ok; [exact T| |exact H3]. apply step_tag_ok; [exact T|].
  eapply step_not_ok; [exact Hst | exact H1].
Qed.

Lemma parse_loop_ok ms st st' :
  Forall Token ms -> ok_state st -> parse_loop ms st = Ok st' -> ok_state st'.
Proof.
  intros HT. revert st. induction HT as [|m ms T HT IH]; simpl; intros st Hst H.
  - now inversion H; subst.
  - apply bind_Ok in H as (st1 & E & H).
    eapply IH; [|exact H]. eapply parse_step_ok; eauto.
Qed.

(** Every selector that [parse] returns is a well-formed selector, sealed. *)
Lemma parse_ok s rs :
  parse s = Ok rs ->
  rs <> [] /\ Forall (fun r => exists c, ok_open c /\ r = sealed c) rs.
Proof.
  intros H. unfold parse in H. apply bind_Ok in H as (st & E & H).
  inversion H; subst. rewrite _addResult_sealed.
  split; [now destruct (results st)|].
  apply parse_loop_ok in E as (Hres & Hc & _).
  - apply Forall_app. split; [exact Hres|]. constructor; [eauto|constructor].
  - apply matches_Token.
  - split; [constructor|]. split; [apply ok_open_new|discriminate].
Qed.

(** ** The matches of a serialization *)

Lemma starts_app p a b :
  starts p a = true -> starts p b = true -> starts p (a +:+ b) = true.
Proof. destruct a; simpl; auto. Qed.

Lemma starts_impl (p q : ascii -> bool) s :
  (forall c, p c = true -> q c = true) -> starts p s = true -> starts q s = true.
Proof. destruct s; simpl; auto. Qed.

Lemma delimiter_no_tag c : is_delimiter c = true -> no_tag c = true.
Proof. each_char c. Qed.

Lemma delimiter_no_space c : is_delimiter c = true -> no_space c = true.
Proof. each_char c. Qed.

Lemma tag_no_space c : Chars.is_tag_char c = true -> no_space c = true.
Proof. each_char c. Qed.

Lemma tag_not_colon c : Chars.is_tag_char c = true -> Ascii.eqb ":" c = false.
Proof. each_char c. Qed.

Lemma tag_not_prefix c :
  Chars.is_tag_char c = true -> Ascii.eqb c "." || Ascii.eqb c "#" = false.
Proof. each_char c. Qed.

Lemma value_not_quote c :
  Chars.is_value_char c = true -> Chars.is_quote c = false.
Proof. each_char c. Qed.

Lemma span_run p run rest :
  forall_chars p run = true -> starts (fun c => negb (p c)) rest = true ->
  span p (run +:+ rest) = (run, rest).
Proof.
  intros Hrun Hrest. induction run as [|c run IH]; simpl in *.
  - destruct rest as [|c rest]; simpl in *; [reflexivity|].
    apply negb_true_iff in Hrest. now rewrite Hrest.
  - apply andb_true_iff in Hrun as [Hc Hrun]. now rewrite Hc, IH.
Qed.

Lemma exec_tag run rest :
  is_tag run -> starts is_delimiter rest = true ->
  exec (run +:+ rest) = Some (tag_match "" run, rest).
Proof.
  intros [Hn Hc] Hrest.
  assert (Hspan : span Chars.is_tag_char (run +:+ rest) = (run, rest)).
  { apply span_run; [exact Hc|].
    eapply starts_impl; [apply delimiter_no_tag | exact Hrest]. }
  destruct run as [|c run]; [discriminate|].
  simpl in Hc. apply andb_true_iff in Hc as [Hc _].
  rewrite append_cons in *. cbn [exec]. unfold match_here, alt_not, alt_tag.
  cbn [strip]. rewrite (tag_not_colon c Hc), (tag_not_prefix c Hc), Hspan.
  reflexivity.
Qed.

Lemma exec_class k rest :
  is_tag k -> starts is_delimiter rest = true ->
  exec ("." +:+ k +:+ rest) = Some (tag_match "." k, rest).
Proof.
  intros [Hn Hc] Hrest.
  assert (Hspan : span Chars.is_tag_char (k +:+ rest) = (k, rest)).
  { apply span_run; [exact Hc|].
    eapply starts_impl; [apply delimiter_no_tag | exact Hrest]. }
  simpl. unfold match_here, alt_not, alt_tag. simpl. rewrite Hspan, Hn.
  reflexivity.
Qed.

Lemma exec_attribute name rest :
  nonempty name = true -> forall_chars Chars.is_name_char name = true ->
  exec ("[" +:+ name +:+ "]" +:+ rest)
  = Some (attribute_match name None None, rest).
Proof.
  intros Hn Hc.
  assert (Hspan : span Chars.is_name_char (name +:+ String "]" rest)
                  = (name, String "]" rest)) by now apply span_run.
  simpl. unfold match_here, alt_not, alt_tag, alt_attribute. simpl.
  rewrite Hspan, Hn. reflexivity.
Qed.

Lemma exec_attribute_value name value rest :
  nonempty name = true -> forall_chars Chars.is_name_char name = true ->
  nonempty value = true -> forall_chars Chars.is_value_char value = true ->
  exec ("[" +:+ name +:+ "=" +:+ value +:+ "]" +:+ rest)
  = Some (attribute_match name (Some "") (Some value), rest).
Proof.
  intros Hn Hc Hv Hvc.
  assert (Hspan : span Chars.is_name_char
                    (name +:+ String "=" (value +:+ String "]" rest))
                  = (name, String "=" (value +:+ String "]" rest)))
    by now apply span_run.
  assert (Hvalue : span Chars.is_value_char (value +:+ String "]" rest)
                   = (value, String "]" rest)) by now apply span_run.
  simpl. unfold match_here, alt_not, alt_tag, alt_attribute. simpl.
  rewrite Hspan, Hn.
  destruct value as [|q value]; [discriminate|].
  simpl in Hvc. apply andb_true_iff in Hvc as [Hq _].
  rewrite append_cons in *. rewrite (value_not_quote q Hq), Hvalue.
  reflexivity.
Qed.

Lemma exec_not rest : exec (":not(" +:+ rest) = Some (not_match, rest).
Proof. reflexivity. Qed.

Lemma exec_not_end rest : exec (")" +:+ rest) = Some (not_end_match, rest).
Proof. reflexivity. Qed.

Lemma span_none p s :
  starts (fun c => negb (p c)) s = true -> span p s = ("", s).
Proof.
  destruct s as [|c s]; simpl; [reflexivity|].
  intros H. apply negb_true_iff in H. now rewrite H.
Qed.

Lemma exec_separator rest :
  starts no_space rest = true ->
  exec ("," +:+ rest) = Some (separator_match ",", rest).
Proof.
  intros Hrest. simpl.
  unfold match_here, alt_not, alt_tag, alt_attribute, alt_not_end,
    alt_separator. simpl.
  rewrite (span_none Chars.is_space rest Hrest). reflexivity.
Qed.

Lemma exec_star rest : exec ("*" +:+ rest) = exec rest.
Proof. reflexivity. Qed.

(** ** The loop of [parse] on a serialization *)

Lemma parse_from_unfold s st :
  parse_from s st =
  match exec s with
  | Some (m, rest) => bind (parse_step m st) (parse_from rest)
  | None => Ok st
  end.
Proof.
  unfold parse_from. rewrite matches_unfold.
  now destruct (exec s) as [[m rest]|].
Qed.

Lemma parse_from_star rest st :
  parse_from ("*" +:+ rest) st = parse_from rest st.
Proof.
  rewrite (parse_from_unfold ("*" +:+ rest)), (parse_from_unfold rest).
  now rewrite exec_star.
Qed.

Lemma parse_step_element run st :
  nonempty run = true ->
  parse_step (tag_match "" run) st
  = Ok (on_current (setElement (Some run)) st).
Proof.
  intros Hn. unfold parse_step, step_not, step_tag, step_attribute,
    step_not_end, step_separator. simpl. now rewrite Hn.
Qed.

Lemma parse_step_class k st :
  parse_step (tag_match "." k) st = Ok (on_current (addClassName k) st).
Proof. reflexivity. Qed.

Lemma parse_step_attribute name quote value n st :
  nonempty name = true -> unescapeAttribute name = Ok n ->
  parse_step (attribute_match name quote value) st
  = Ok (on_current (addAttribute n value) st).
Proof.
  intros Hn Hu. unfold parse_step, step_not, step_tag, step_attribute,
    step_not_end, step_separator. simpl. now rewrite Hn, Hu.
Qed.

Lemma parse_step_not res c :
  parse_step not_match (top res c) = Ok (inside res c new_CssSelector).
Proof. reflexivity. Qed.

Lemma parse_step_not_end res c x :
  parse_step not_end_match (inside res c x) = Ok (top res (with_not c x)).
Proof. reflexivity. Qed.

Lemma parse_step_separator res c :
  parse_step (separator_match ",") (top res c)
  = Ok (top (res ++ [sealed c]) new_CssSelector).
Proof.
  unfold parse_step, step_not, step_tag, step_attribute, step_not_end,
    step_separator. simpl. now rewrite _addResult_sealed.
Qed.

Lemma focus_top res : focus (top res).
Proof. intros f x. reflexivity. Qed.

Lemma focus_inside res c : focus (inside res c).
Proof.
  intros f x. unfold on_current, inside, with_not. simpl.
  now rewrite map_last_snoc.
Qed.

(** [escapeAttribute] and [unescapeAttribute] on a name without
    backslash. *)
Lemma replace_backslash_plain by_ name :
  forall_chars is_plain_name_char name = true ->
  replace_all Chars.backslash by_ name = name.
Proof.
  induction name as [|c name IH]; simpl; [reflexivity|].
  intros H. apply andb_true_iff in H as [Hc H].
  unfold is_plain_name_char in Hc. apply andb_true_iff in Hc as [_ Hc].
  apply negb_true_iff in Hc. now rewrite Hc, IH.
Qed.

Lemma plain_name c :
  is_plain_name_char c = true ->
  Chars.is_name_char c = true /\ Ascii.eqb c Chars.backslash = false.
Proof.
  unfold is_plain_name_char. intros H. apply andb_true_iff in H as [H1 H2].
  now apply negb_true_iff in H2.
Qed.

Lemma unescape_escape attr name escaping :
  forall_chars is_plain_name_char name = true ->
  unescape_loop attr
    (replace_all Chars.dollar (String Chars.backslash (String Chars.dollar ""))
       name) escaping
  = Ok name.
Proof.
  revert escaping. induction name as [|c name IH]; intros escaping; simpl;
    [reflexivity|].
  intros H. apply andb_true_iff in H as [Hc H].
  apply plain_name in Hc as [_ Hc].
  destruct (Ascii.eqb c Chars.dollar) eqn:Ed.
  - apply Ascii.eqb_eq in Ed. subst c. simpl. now rewrite IH.
  - simpl. rewrite Hc, Ed. simpl. now rewrite IH.
Qed.

Lemma escape_name_chars name :
  forall_chars is_plain_name_char name = true ->
  forall_chars Chars.is_name_char (escapeAttribute name) = true.
Proof.
  intros H. unfold escapeAttribute. rewrite replace_backslash_plain by exact H.
  induction name as [|c name IH]; simpl; [reflexivity|].
  simpl in H. apply andb_true_iff in H as [Hc H].
  apply plain_name in Hc as [Hc _].
  destruct (Ascii.eqb c Chars.dollar) eqn:Ed; simpl.
  - now apply IH.
  - now rewrite Hc, IH.
Qed.

Lemma escape_nonempty name :
  nonempty name = true -> nonempty (escapeAttribute name) = true.
Proof.
  unfold escapeAttribute. destruct name as [|c name]; [discriminate|].
  intros _. simpl.
  destruct (Ascii.eqb c Chars.backslash); simpl; [reflexivity|].
  now destruct (Ascii.eqb c Chars.dollar).
Qed.

Lemma unescapeAttribute_escapeAttribute name :
  forall_chars is_plain_name_char name = true ->
  unescapeAttribute (escapeAttribute name) = Ok name.
Proof.
  intros H. unfold unescapeAttribute, escapeAttribute.
  rewrite replace_backslash_plain by exact H. now apply unescape_escape.
Qed.

Lemma toString_unfold c :
  toString c
  = element_text (element c) +:+ classes_text (classNames c)
    +:+ attrs_text (attrs c) +:+ nots_text (notSelectors c).
Proof. now destruct c. Qed.

Lemma starts_classes ks : starts is_delimiter (classes_text ks) = true.
Proof. now destruct ks. Qed.

Lemma starts_attrs l : starts is_delimiter (attrs_text l) = true.
Proof. now destruct l. Qed.

Lemma starts_nots ns : starts is_delimiter (nots_text ns) = true.
Proof. now destruct ns. Qed.

Lemma CssSelector_eta c :
  mkCssSelector (element c) (classNames c) (attrs c) (notSelectors c) = c.
Proof. now destruct c. Qed.

Section Focus.

Variable K : CssSelector -> ParseState.
Hypothesis HK : focus K.

Lemma run_element e rest x :
  is_tag e -> starts is_delimiter rest = true ->
  parse_from (e +:+ rest) (K x)
  = parse_from rest (K (setElement (Some e) x)).
Proof.
  intros He Hrest. rewrite parse_from_unfold, (exec_tag e rest He Hrest).
  rewrite parse_step_element by apply He. simpl. now rewrite HK.
Qed.

Lemma run_classes ks : forall rest x,
  Forall ok_class ks -> starts is_delimiter rest = true ->
  parse_from (classes_text ks +:+ rest) (K x)
  = parse_from rest
      (K (mkCssSelector (element x) (classNames x ++ ks) (attrs x)
            (notSelectors x))).
Proof.
  induction ks as [|k ks IH]; intros rest x Hks Hrest.
  - simpl. now rewrite app_nil_r, CssSelector_eta.
  - inversion Hks as [|? ? [Hk Hlow] Hks']; subst.
    change (classes_text (k :: ks)) with (("." +:+ k) +:+ classes_text ks).
    rewrite !append_assoc.
    rewrite parse_from_unfold, exec_class;
      [|exact Hk|apply starts_app; [apply starts_classes | exact Hrest]].
    rewrite parse_step_class. simpl. rewrite HK, IH by assumption.
    unfold addClassName. simpl. now rewrite Hlow, <- app_assoc.
Qed.

Lemma run_attribute a rest x :
  ok_attr a -> nonempty (fst a) = true ->
  parse_from (attr_toString a +:+ rest) (K x)
  = parse_from rest
      (K (mkCssSelector (element x) (classNames x) (attrs x ++ [a])
            (notSelectors x))).
Proof.
  destruct a as [name value]. simpl. intros (Hname & Hvalue & Hlow) Hn.
  simpl in Hname, Hvalue, Hlow. unfold attr_toString. simpl fst; simpl snd.
  pose proof (escape_name_chars name Hname) as Hc.
  pose proof (escape_nonempty name Hn) as Hne.
  pose proof (unescapeAttribute_escapeAttribute name Hname) as Hu.
  destruct (nonempty value) eqn:Hv.
  - rewrite !append_assoc.
    change (String "[" _)
      with ("[" +:+ escapeAttribute name +:+ "=" +:+ value +:+ "]" +:+ rest).
    rewrite parse_from_unfold, exec_attribute_value by assumption.
    rewrite (parse_step_attribute _ _ _ name) by assumption.
    simpl. rewrite HK. unfold addAttribute. now rewrite Hv, Hlow.
  - rewrite !append_assoc, append_empty_l.
    change (String "[" _) with ("[" +:+ escapeAttribute name +:+ "]" +:+ rest).
    rewrite parse_from_unfold, exec_attribute by assumption.
    rewrite (parse_step_attribute _ _ _ name) by assumption.
    simpl. rewrite HK. unfold addAttribute.
    destruct value; [reflexivity|discriminate].
Qed.

Lemma run_attrs l : forall rest x,
  Forall ok_attr l -> Forall (fun a => nonempty (fst a) = true) l ->
  parse_from (attrs_text l +:+ rest) (K x)
  = parse_from rest
      (K (mkCssSelector (element x) (classNames x) (attrs x ++ l)
            (notSelectors x))).
Proof.
  induction l as [|a l IH]; intros rest x Hl Hn.
  - simpl. now rewrite app_nil_r, CssSelector_eta.
  - inversion Hl; subst. inversion Hn; subst.
    change (attrs_text (a :: l)) with (attr_toString a +:+ attrs_text l).
    rewrite append_assoc, run_attribute, IH by assumption.
    simpl. now rewrite <- app_assoc.
Qed.

(** The element, the class names and the attributes of a selector, read
    into a new selector. *)
Lemma run_simple e ks l rest :
  elem_ok e -> Forall ok_class ks -> Forall ok_attr l ->
  Forall (fun a => nonempty (fst a) = true) l ->
  starts is_delimiter rest = true ->
  parse_from (element_text e +:+ classes_text ks +:+ attrs_text l +:+ rest)
    (K new_CssSelector)
  = parse_from rest (K (mkCssSelector e ks l [])).
Proof.
  intros He Hks Hl Hn Hrest.
  assert (Hrest' : starts is_delimiter (attrs_text l +:+ rest) = true)
    by (apply starts_app; [apply starts_attrs | exact Hrest]).
  assert (Hx : forall x,
    element x = e -> classNames x = [] -> attrs x = [] -> notSelectors x = [] ->
    parse_from (classes_text ks +:+ attrs_text l +:+ rest) (K x)
    = parse_from rest (K (mkCssSelector e ks l []))).
  { intros x <- Hk Ha Hnot. rewrite run_classes, run_attrs by assumption.
    simpl. now rewrite Hk, Ha, Hnot. }
  destruct e as [e|]; simpl.
  - rewrite run_element; [now apply Hx|exact He|].
    apply starts_app; [apply starts_classes | exact Hrest'].
  - now apply Hx.
Qed.

End Focus.

Lemma run_not res c n rest :
  ok_inner n -> Forall (fun a => nonempty (fst a) = true) (attrs n) ->
  parse_from (":not(" +:+ toString n +:+ ")" +:+ rest) (top res c)
  = parse_from rest (top res (with_not c n)).
Proof.
  intros (He & Hks & Hl & Hnot) Hn.
  rewrite parse_from_unfold, exec_not, parse_step_not. simpl bind.
  rewrite toString_unfold, Hnot.
  change (nots_text []) with "". rewrite !append_assoc, append_empty_l.
  rewrite (run_simple _ (focus_inside res c)) by (assumption || reflexivity).
  replace (mkCssSelector (element n) (classNames n) (attrs n) []) with n
    by (rewrite <- Hnot; now rewrite CssSelector_eta).
  change (String ")" rest) with (")" +:+ rest).
  now rewrite parse_from_unfold, exec_not_end, parse_step_not_end.
Qed.

Lemma run_nots res ns : forall rest c,
  Forall ok_inner ns ->
  Forall (fun n => Forall (fun a => nonempty (fst a) = true) (attrs n)) ns ->
  parse_from (nots_text ns +:+ rest) (top res c)
  = parse_from rest
      (top res (mkCssSelector (element c) (classNames c) (attrs c)
                  (notSelectors c ++ ns))).
Proof.
  induction ns as [|n ns IH]; intros rest c Hns Hn.
  - simpl. now rewrite app_nil_r, CssSelector_eta.
  - inversion Hns; subst. inversion Hn; subst.
    change (nots_text (n :: ns))
      with ((":not(" +:+ toString n +:+ ")") +:+ nots_text ns).
    rewrite !append_assoc, run_not, IH by assumption.
    unfold with_not. simpl. now rewrite <- app_assoc.
Qed.

(** The text of a sealed selector, read into a new selector, gives the
    selector as it was before [_addResult]. *)
Lemma run_selector res c rest :
  ok_open c -> names_nonempty (sealed c) ->
  starts is_delimiter rest = true ->
  parse_from (toString (sealed c) +:+ rest) (top res new_CssSelector)
  = parse_from rest (top res c).
Proof.
  intros (He & Hks & Hl & Hns) Hn Hrest. revert Hn. unfold sealed.
  destruct ((0 <? length (notSelectors c)) && negb (truthy (element c))
            && (length (classNames c) =? 0) && (length (attrs c) =? 0))
    eqn:E; intros [Ha Hnn].
  - apply andb_true_iff in E as [E Ea]. apply andb_true_iff in E as [E Ek].
    apply andb_true_iff in E as [_ Ee].
    assert (Hattrs : attrs c = [])
      by (destruct (attrs c); [reflexivity | discriminate]).
    assert (Hclasses : classNames c = [])
      by (destruct (classNames c); [reflexivity | discriminate]).
    assert (Helem : element c = None).
    { destruct (element c) as [e|]; [|reflexivity].
      destruct He as [He _]. simpl in Ee. rewrite He in Ee. discriminate. }
    rewrite toString_unfold.
    change (element (setElement (Some "*") c)) with (Some "*").
    change (classNames (setElement (Some "*") c)) with (classNames c).
    change (attrs (setElement (Some "*") c)) with (attrs c).
    change (notSelectors (setElement (Some "*") c)) with (notSelectors c).
    rewrite Hclasses, Hattrs.
    change (element_text (Some "*") +:+ classes_text [] +:+ attrs_text []
            +:+ nots_text (notSelectors c))
      with ("*" +:+ nots_text (notSelectors c)).
    rewrite append_assoc, parse_from_star.
    rewrite run_nots by assumption. simpl.
    now rewrite <- Helem, <- Hclasses, <- Hattrs, CssSelector_eta.
  - rewrite toString_unfold, !append_assoc.
    rewrite (run_simple _ (focus_top res)); try assumption.
    + rewrite run_nots by assumption. simpl. now rewrite CssSelector_eta.
    + apply starts_app; [apply starts_nots | exact Hrest].
Qed.

Lemma starts_toString c :
  ok_open c -> starts no_space (toString (sealed c)) = true.
Proof.
  intros (He & _). rewrite toString_unfold.
  apply starts_app.
  - unfold sealed.
    destruct ((0 <? length (notSelectors c)) && negb (truthy (element c))
              && (length (classNames c) =? 0) && (length (attrs c) =? 0));
      [reflexivity|].
    destruct (element c) as [e|]; [|reflexivity].
    destruct He as [Hn Hc]. destruct e as [|a e]; [discriminate|].
    simpl in *. apply andb_true_iff in Hc as [Hc _]. now apply tag_no_space.
  - eapply starts_impl; [apply delimiter_no_space|].
    apply starts_app; [apply starts_classes|].
    apply starts_app; [apply starts_attrs | apply starts_nots].
Qed.

Lemma starts_serialize cs :
  Forall ok_open cs -> starts no_space (serialize (map sealed cs)) = true.
Proof.
  unfold serialize. intros H. destruct H as [|c cs Hc Hcs]; [reflexivity|].
  simpl. destruct (map toString (map sealed cs)).
  - now apply starts_toString.
  - apply starts_app; [now apply starts_toString | reflexivity].
Qed.

Lemma serialize_cons r r' rs :
  serialize (r :: r' :: rs) = toString r +:+ "," +:+ serialize (r' :: rs).
Proof. reflexivity. Qed.

Lemma run_list cs : forall res,
  cs <> [] -> Forall ok_open cs -> Forall names_nonempty (map sealed cs) ->
  exists st,
    parse_from (serialize (map sealed cs)) (top res new_CssSelector) = Ok st
    /\ _addResult (results st) (cssSelector st) = res ++ map sealed cs.
Proof.
  induction cs as [|c cs IH]; intros res Hne Hcs Hn; [contradiction|].
  inversion Hcs as [|? ? Hc Hcs']; subst.
  inversion Hn as [|? ? Hnc Hn']; subst.
  destruct cs as [|c' cs].
  - exists (top res c). split; [|apply _addResult_sealed].
    change (serialize (map sealed [c])) with (toString (sealed c)).
    rewrite <- (append_empty_r (toString (sealed c))).
    rewrite run_selector by (assumption || reflexivity).
    now rewrite parse_from_unfold.
  - destruct (IH (res ++ [sealed c])) as (st & Hst & Hres);
      [discriminate | assumption | assumption |].
    exists st. split; [|rewrite Hres, <- app_assoc; reflexivity].
    change (map sealed (c :: c' :: cs))
      with (sealed c :: sealed c' :: map sealed cs).
    rewrite serialize_cons.
    rewrite run_selector by (assumption || reflexivity).
    rewrite parse_from_unfold, exec_separator
      by (apply (starts_serialize (c' :: cs)); assumption).
    rewrite parse_step_separator. exact Hst.
Qed.

Lemma sealed_list rs :
  Forall (fun r => exists c, ok_open c /\ r = sealed c) rs ->
  exists cs, rs = map sealed cs /\ Forall ok_open cs.
Proof.
  induction 1 as [|r rs (c & Hc & ->) _ (cs & -> & Hcs)].
  - now exists [].
  - exists (c :: cs). split; [reflexivity | now constructor].
Qed.

(** X1, the round trip of C3 away from the empty attribute name: when
    [parse] accepts a text and
    no attribute of a selector it returns, or of one of their negations, has
    the empty name, parsing the serialization of the result returns the
    result again, selector by selector, with the same element, class names,
    attributes and negations in the same order. *)
Theorem roundtrip_nonempty_names (text : string) (rs : list CssSelector) :
  parse text = Ok rs -> Forall names_nonempty rs ->
  parse (serialize rs) = Ok rs.
Proof.
  intros Hparse Hn. apply parse_ok in Hparse as [Hne Hrs].
  apply sealed_list in Hrs as (cs & -> & Hcs).
  destruct (run_list cs []) as (st & Hst & Hres);
    [now destruct cs | exact Hcs | exact Hn |].
  unfold parse_from, top in Hst. unfold parse.
  rewrite Hst. simpl. now rewrite Hres.
Qed.

Lemma roundtrip_nonempty_names_witness :
  exists rs,
    parse "Div.Big#main[data-x='Y z'][b\$]:not(.c[d]):not(p), .e" = Ok rs
    /\ parse (serialize rs) = Ok rs.
Proof.
  eexists. split; [vm_compute; reflexivity|].
  apply (roundtrip_nonempty_names
           "Div.Big#main[data-x='Y z'][b\$]:not(.c[d]):not(p), .e").
  - vm_compute. reflexivity.
  - repeat constructor.
Defined.

(** * Properties of the matcher *)

(** ** Maps *)

Lemma Map_get_k_get {V R} (found : V -> R) (missing : R) name (map : JsMap V) :
  Map_get_k found missing name map =
  match Map_get name map with
  | Some v => found v
  | None => missing
  end.
Proof.
  induction map as [|[key v] rest IH]; simpl; [reflexivity|].
  destruct (String.eqb key name); [reflexivity | exact IH].
Qed.

Lemma Map_get_set {V} name name' (v : V) (map : JsMap V) :
  Map_get name' (Map_set name v map) =
  if String.eqb name name' then Some v else Map_get name' map.
Proof.
  induction map as [|[key v0] rest IH]; simpl.
  - destruct (String.eqb name name'); reflexivity.
  - destruct (String.eqb_spec key name) as [->|Hk]; simpl.
    + destruct (String.eqb name name'); reflexivity.
    + destruct (String.eqb_spec key name') as [->|Hk'].
      * destruct (String.eqb_spec name name'); [congruence | reflexivity].
      * exact IH.
Qed.

(** ** Induction on a matcher and its nested matchers *)

Lemma SelectorMatcher_nested_ind (P : SelectorMatcher -> Prop) :
  (forall m,
      (forall name nested,
          Map_get name (_elementPartialMap m) = Some nested -> P nested) ->
      (forall name nested,
          Map_get name (_classPartialMap m) = Some nested -> P nested) ->
      (forall name values value nested,
          Map_get name (_attrValuePartialMap m) = Some values ->
          Map_get value values = Some nested -> P nested) ->
      P m) ->
  forall m, P m.
Proof.
  intros H. fix IH 1. intros [em epm cm cpm avm avpm lcs]. apply H; simpl.
  - induction epm as [|[key v] rest IHl]; simpl; intros name nested Hg;
      [discriminate|].
    pose proof (IH v) as Pv.
    destruct (String.eqb key name); [|now apply (IHl name nested)].
    now replace nested with v by congruence.
  - induction cpm as [|[key v] rest IHl]; simpl; intros name nested Hg;
      [discriminate|].
    pose proof (IH v) as Pv.
    destruct (String.eqb key name); [|now apply (IHl name nested)].
    now replace nested with v by congruence.
  - induction avpm as [|[key vs] rest IHl]; simpl;
      intros name values value nested Hg Hv; [discriminate|].
    assert (Pvs : forall value nested,
               Map_get value vs = Some nested -> P nested).
    { clear - IH. induction vs as [|[key2 v] rest2 IHl2]; simpl;
        intros value nested Hv; [discriminate|].
      pose proof (IH v) as Pv.
      destruct (String.eqb key2 value); [|now apply (IHl2 value nested)].
      now replace nested with v by congruence. }
    destruct (String.eqb key name);
      [|now apply (IHl name values value nested)].
    apply (Pvs value nested). congruence.
Qed.

(** ** [match] as a run of its events *)

Section Run.

Variable notMatch : list CssSelector -> CssSelector -> option bool.
Variable q : CssSelector.
Variable cb : bool.

Lemma option_bind_ext' {A B} (f g : A -> option B) (x y : option A) :
  (forall a, f a = g a) -> x = y -> x ≫= f = y ≫= g.
Proof. intros H ->. destruct y; simpl; auto. Qed.

Lemma or_result_pair probe (b : bool) (s : State) :
  or_result probe (b, s) = '(r, s') ← probe s; Some (r || b, s').
Proof. reflexivity. Qed.

Lemma run_events_app (evs1 evs2 : list Event) (acc : bool * State) :
  run_events notMatch q cb (evs1 ++ evs2) acc =
  acc' ← run_events notMatch q cb evs1 acc;
  run_events notMatch q cb evs2 acc'.
Proof.
  revert acc. induction evs1 as [|[lcs|e] evs1 IH]; intros acc; simpl.
  - reflexivity.
  - apply IH.
  - destruct (or_result _ acc) as [acc'|]; simpl; [apply IH | reflexivity].
Qed.

Lemma run_events_or (evs : list Event) (b : bool) (s : State) :
  run_events notMatch q cb evs (b, s) =
  '(r, s') ← run_events notMatch q cb evs (false, s); Some (r || b, s').
Proof.
  revert b s. induction evs as [|[lcs|e] evs IH]; intros b s; simpl.
  - reflexivity.
  - apply IH.
  - rewrite !or_result_pair.
    destruct (finalize notMatch e q cb s) as [[r1 s1]|]; simpl;
      [|reflexivity].
    rewrite (IH (r1 || b)), (IH (r1 || false)).
    destruct (run_events notMatch q cb evs (false, s1)) as [[r s']|]; simpl;
      [|reflexivity].
    now destruct r, r1, b.
Qed.

Lemma finalize_loop_run (l : list SelectorContext) (acc : bool * State) :
  finalize_loop notMatch l q cb acc =
  run_events notMatch q cb (map Finalize l) acc.
Proof.
  revert acc. induction l as [|e l IH]; intros acc; simpl; [reflexivity|].
  destruct (or_result _ acc) as [acc'|]; simpl; [apply IH | reflexivity].
Qed.

Lemma _matchTerminal_run map name (acc : bool * State) :
  or_result (_matchTerminal notMatch map name q cb) acc =
  run_events notMatch q cb (List.map Finalize (terminal_hits map name)) acc.
Proof.
  destruct acc as [b s]. rewrite or_result_pair.
  unfold _matchTerminal, terminal_hits.
  destruct map as [map|]; [destruct name as [name|]|]; try reflexivity.
  set (l := default [] (Map_get name map) ++ default [] (Map_get "*" map)).
  destruct l as [|e l]; [reflexivity|].
  cbn [length Nat.eqb]. rewrite finalize_loop_run.
  symmetry. apply run_events_or.
Qed.

Lemma for_each_run {A} (body : A -> bool * State -> option (bool * State))
    (evs : A -> list Event) (l : list A) (acc : bool * State) :
  (forall a acc, body a acc = run_events notMatch q cb (evs a) acc) ->
  for_each body l acc = run_events notMatch q cb (flat_map evs l) acc.
Proof.
  intros H. revert acc. induction l as [|a l IH]; intros acc; simpl.
  - reflexivity.
  - rewrite run_events_app, H.
    destruct (run_events notMatch q cb (evs a) acc); simpl;
      [apply IH | reflexivity].
Qed.

Lemma match_trace_or (m : SelectorMatcher) :
  forall acc,
    or_result (match_ notMatch m q cb) acc =
    run_events notMatch q cb (trace m q) acc.
Proof.
  induction m as [m IHe IHc IHa] using SelectorMatcher_nested_ind.
  assert (Hpartial : forall map name acc,
             (forall n nested, Map_get n map = Some nested ->
                forall acc, or_result (match_ notMatch nested q cb) acc =
                            run_events notMatch q cb (trace nested q) acc) ->
             or_result
               (_matchPartial
                  (fun nested => match_ notMatch nested q cb) map name) acc
             = run_events notMatch q cb
                 (match name with
                  | Some name =>
                      Map_get_k (fun nested => trace nested q) [] name map
                  | None => []
                  end) acc).
  { intros map name [b s] Hn. unfold _matchPartial.
    destruct name as [name|]; [|reflexivity].
    rewrite or_result_pair. cbv beta. rewrite !Map_get_k_get.
    destruct (Map_get name map) as [nested|] eqn:E; [|reflexivity].
    rewrite <- (Hn name nested E). reflexivity. }
  intros [b s]. destruct m as [em epm cm cpm avm avpm lcs].
  simpl in IHe, IHc, IHa.
  rewrite or_result_pair. cbn [trace run_events fst snd].
  rewrite run_events_or. f_equal.
  cbn [match_ _elementMap _elementPartialMap _classMap _classPartialMap
       _attrValueMap _attrValuePartialMap _listContexts].
  rewrite run_events_app.
  apply option_bind_ext'; [|apply _matchTerminal_run]. intros acc1.
  rewrite run_events_app.
  apply option_bind_ext'; [|now apply Hpartial]. intros acc2.
  rewrite run_events_app.
  apply option_bind_ext'.
  - intros acc3. apply for_each_run. intros [name value] acc.
    rewrite run_events_app.
    apply option_bind_ext';
      [|destruct (nonempty value);
        [apply _matchTerminal_run | reflexivity]].
    intros acc4. rewrite run_events_app.
    apply option_bind_ext'; [|apply _matchTerminal_run]. intros acc5.
    rewrite !Map_get_k_get.
    destruct (Map_get name avpm) as [values|] eqn:E; [|reflexivity].
    rewrite run_events_app.
    apply option_bind_ext';
      [|destruct (nonempty value);
        [apply Hpartial; eauto | reflexivity]].
    intros acc6. apply Hpartial; eauto.
  - apply for_each_run. intros className acc. rewrite run_events_app.
    apply option_bind_ext'; [|apply _matchTerminal_run]. intros acc4.
    now apply Hpartial.
Qed.

Lemma match_trace (m : SelectorMatcher) (s : State) :
  match_ notMatch m q cb s = run_events notMatch q cb (trace m q) (false, s).
Proof.
  rewrite <- match_trace_or, or_result_pair.
  destruct (match_ notMatch m q cb s) as [[r s']|]; simpl; [|reflexivity].
  now rewrite orb_false_r.
Qed.

End Run.

(** ** The trace as a sequence of probes *)

Lemma flat_map_ext' {A B} (f g : A -> list B) (l : list A) :
  (forall a, f a = g a) -> flat_map f l = flat_map g l.
Proof. intros H. induction l; simpl; [reflexivity | now rewrite H, IHl]. Qed.

Lemma flat_map_flat_map {A B C} (f : B -> list C) (g : A -> list B) l :
  flat_map f (flat_map g l) = flat_map (fun a => flat_map f (g a)) l.
Proof.
  induction l; simpl; [reflexivity|]. now rewrite flat_map_app, IHl.
Qed.

Lemma trace_probes (m : SelectorMatcher) (q : CssSelector) :
  trace m q = Reset (_listContexts m) :: body m q.
Proof.
  destruct m as [em epm cm cpm avm avpm lcs].
  unfold body, probes. cbn [trace _listContexts]. f_equal.
  rewrite !flat_map_app, !flat_map_flat_map. rewrite !app_assoc.
  f_equal; [f_equal|].
  - destruct (element q) as [e|]; simpl; [|reflexivity].
    rewrite Map_get_k_get, !app_nil_r. reflexivity.
  - apply flat_map_ext'. intros c. simpl.
    rewrite Map_get_k_get, !app_nil_r. reflexivity.
  - apply flat_map_ext'. intros [name value].
    rewrite !flat_map_app. simpl. rewrite !Map_get_k_get, !app_nil_r.
    unfold terminal_hits.
    destruct (nonempty value); simpl; rewrite ?app_nil_r;
      destruct (Map_get name avm) as [tvm|], (Map_get name avpm) as [pvm|];
      simpl; rewrite ?Map_get_k_get, ?app_nil_r; reflexivity.
Qed.

(** ** [_addSelectable] inserts along the path of the selector *)

Lemma _addTerminal_get (map : JsMap (list SelectorContext)) v sel k :
  default [] (Map_get k (_addTerminal map v sel)) =
  default [] (Map_get k map) ++ (if String.eqb v k then [sel] else []).
Proof.
  unfold _addTerminal.
  destruct (Map_get v map) as [l|] eqn:E; rewrite Map_get_set;
    destruct (String.eqb_spec v k) as [->|Hk]; simpl;
    rewrite ?E, ?app_nil_r; reflexivity.
Qed.

Lemma with_partial_get (map : JsMap SelectorMatcher) v G k :
  Map_get k (with_partial map v G) =
  if String.eqb v k
  then Some (G (default new_SelectorMatcher (Map_get v map)))
  else Map_get k map.
Proof.
  unfold with_partial, _addPartial. rewrite Map_get_set.
  destruct (String.eqb v k); [|reflexivity].
  now destruct (Map_get v map).
Qed.

Ltac key_cases :=
  repeat match goal with
    | |- context [decide (?a = ?b)] => destruct (decide (a = b))
    | |- context [String.eqb ?a ?b] => destruct (String.eqb_spec a b)
    end;
  simplify_eq; simpl; rewrite ?app_nil_r; try reflexivity; try congruence.

Lemma add_attrs_last_inserts name value sel :
  inserts [KAttr name value] sel (add_attrs [(name, value)] sel).
Proof.
  intros m. cbn [add_attrs length Nat.eqb]. split; [reflexivity|split].
  - intros [e|c|n v]; simpl; try (key_cases; fail).
    rewrite Map_get_set. unfold get_or_new.
    destruct (String.eqb_spec name n) as [->|Hn]; simpl.
    + rewrite _addTerminal_get.
      destruct (Map_get n (_attrValueMap m)); simpl; key_cases.
    + key_cases.
  - intros [e|c|n v]; reflexivity.
Qed.

Lemma add_attrs_inserts attrs sel :
  inserts (map (fun '(name, value) => KAttr name value) attrs) sel
          (add_attrs attrs sel).
Proof.
  induction attrs as [|[name value] rest IH]; [intros m; reflexivity|].
  destruct rest as [|nv2 rest]; [apply add_attrs_last_inserts|].
  cbn [map inserts]. cbn [map] in IH.
  exists (add_attrs (nv2 :: rest) sel). split; [exact IH|].
  intros m. cbn [add_attrs length Nat.eqb]. split; [reflexivity|split].
  - intros [e|c|n v]; reflexivity.
  - intros [e|c|n v]; simpl; try (key_cases; fail).
    rewrite Map_get_set. unfold get_or_new.
    destruct (String.eqb_spec name n) as [->|Hn]; simpl.
    + rewrite with_partial_get.
      destruct (Map_get n (_attrValuePartialMap m)); simpl; key_cases.
    + key_cases.
Qed.

Lemma add_classNames_inserts classNames attrs sel :
  inserts (map KClass classNames
           ++ map (fun '(name, value) => KAttr name value) attrs) sel
          (add_classNames classNames attrs sel).
Proof.
  induction classNames as [|c rest IH]; [apply add_attrs_inserts|].
  destruct rest as [|c2 rest], attrs as [|nv attrs].
  - intros m. simpl. split; [reflexivity|split].
    + intros [e|c'|n v]; simpl; try (key_cases; fail).
      rewrite _addTerminal_get. key_cases.
    + intros [e|c'|n v]; reflexivity.
  - cbn [map app inserts]. cbn [map app] in IH.
    exists (add_classNames [] (nv :: attrs) sel). split; [exact IH|].
    intros m. cbn [add_classNames length Nat.eqb andb].
    split; [reflexivity|split].
    + intros [e|c'|n v]; reflexivity.
    + intros [e|c'|n v]; simpl; try (key_cases; fail).
      rewrite with_partial_get. key_cases.
  - cbn [map app inserts]. cbn [map app] in IH.
    exists (add_classNames (c2 :: rest) [] sel). split; [exact IH|].
    intros m. cbn [add_classNames length Nat.eqb andb].
    split; [reflexivity|split].
    + intros [e|c'|n v]; reflexivity.
    + intros [e|c'|n v]; simpl; try (key_cases; fail).
      rewrite with_partial_get. key_cases.
  - cbn [map app inserts]. cbn [map app] in IH.
    exists (add_classNames (c2 :: rest) (nv :: attrs) sel).
    split; [exact IH|].
    intros m. cbn [add_classNames length Nat.eqb andb].
    split; [reflexivity|split].
    + intros [e|c'|n v]; reflexivity.
    + intros [e|c'|n v]; simpl; try (key_cases; fail).
      rewrite with_partial_get. key_cases.
Qed.

Lemma _addSelectable_inserts s ctx lc :
  inserts (path s) (mkSelectorContext s ctx lc) (_addSelectable s ctx lc).
Proof.
  unfold path, _addSelectable.
  pose proof (add_classNames_inserts (classNames s) (attrs s)
                (mkSelectorContext s ctx lc)) as IH.
  destruct (element s) as [e|]; [|exact IH].
  destruct (nonempty e); [|exact IH].
  destruct (classNames s) as [|c cs], (attrs s) as [|nv ats].
  - intros m. simpl. split; [reflexivity|split].
    + intros [e'|c'|n v]; simpl; try (key_cases; fail).
      rewrite _addTerminal_get. key_cases.
    + intros [e'|c'|n v]; reflexivity.
  - cbn [map app inserts length Nat.eqb andb]. cbn [map app] in IH.
    eexists. split; [exact IH|].
    intros m. split; [reflexivity|split].
    + intros [e'|c'|n v]; reflexivity.
    + intros [e'|c'|n v]; simpl; try (key_cases; fail).
      rewrite with_partial_get. key_cases.
  - cbn [map app inserts length Nat.eqb andb]. cbn [map app] in IH.
    eexists. split; [exact IH|].
    intros m. split; [reflexivity|split].
    + intros [e'|c'|n v]; reflexivity.
    + intros [e'|c'|n v]; simpl; try (key_cases; fail).
      rewrite with_partial_get. key_cases.
  - cbn [map app inserts length Nat.eqb andb]. cbn [map app] in IH.
    eexists. split; [exact IH|].
    intros m. split; [reflexivity|split].
    + intros [e'|c'|n v]; reflexivity.
    + intros [e'|c'|n v]; simpl; try (key_cases; fail).
      rewrite with_partial_get. key_cases.
Qed.

(** ** The events of an index after an insertion *)

Lemma filter_flat_map {A B} (p : B -> bool) (f : A -> list B) (l : list A) :
  List.filter p (flat_map f l) = flat_map (fun a => List.filter p (f a)) l.
Proof.
  induction l; simpl; [reflexivity|]. now rewrite List.filter_app, IHl.
Qed.

Lemma filter_map_Finalize (l : list SelectorContext) :
  List.filter effective (map Finalize l) = map Finalize l.
Proof. induction l; simpl; [reflexivity | now rewrite IHl]. Qed.

Lemma flat_map_Permutation_app {A B} (f g h : A -> list B) (l : list A) :
  (forall a, f a ≡ₚ g a ++ h a) ->
  flat_map f l ≡ₚ flat_map g l ++ flat_map h l.
Proof.
  intros H. induction l as [|a l IH]; simpl; [reflexivity|].
  rewrite H, IH. rewrite <- !app_assoc. apply Permutation_app_head.
  rewrite !app_assoc. apply Permutation_app_tail. apply Permutation_app_comm.
Qed.

Lemma flat_map_Permutation_repeat {A B} (f : A -> list B) (b : B)
    (c : A -> nat) (l : list A) :
  (forall a, f a ≡ₚ repeat b (c a)) ->
  flat_map f l ≡ₚ repeat b (list_sum (map c l)).
Proof.
  intros H. induction l as [|a l IH]; simpl; [reflexivity|].
  now rewrite H, IH, repeat_app.
Qed.

Lemma terminal_at_new k : terminal_at new_SelectorMatcher k = [].
Proof. now destruct k. Qed.

Lemma partial_at_new k : partial_at new_SelectorMatcher k = None.
Proof. now destruct k. Qed.

Lemma body_new q : body new_SelectorMatcher q = [].
Proof.
  unfold body. induction (probes q) as [|[k|k] l IH]; simpl;
    rewrite ?terminal_at_new, ?partial_at_new; simpl; auto.
Qed.

Lemma filter_trace m q :
  List.filter effective (trace m q) =
  reset_event (_listContexts m) ++ List.filter effective (body m q).
Proof.
  rewrite trace_probes. simpl. now destruct (_listContexts m).
Qed.

Lemma inserts_listContexts p sel F :
  inserts p sel F -> forall m, _listContexts (F m) = _listContexts m.
Proof.
  destruct p as [|k [|k2 p]]; simpl.
  - intros H m. now rewrite H.
  - intros H m. apply H.
  - intros (G & _ & H) m. apply H.
Qed.

Lemma inserts_body p sel F :
  inserts p sel F ->
  forall m q,
    List.filter effective (body (F m) q) ≡ₚ
    List.filter effective (body m q)
    ++ List.filter effective (body (F new_SelectorMatcher) q).
Proof.
  revert F. induction p as [|k p IH]; intros F HF m q.
  - simpl in HF. rewrite !HF, body_new. simpl. now rewrite app_nil_r.
  - unfold body. rewrite !filter_flat_map.
    apply flat_map_Permutation_app. intros pr.
    destruct p as [|k2 p].
    + simpl in HF.
      destruct (HF m) as (_ & Ht & Hp).
      destruct (HF new_SelectorMatcher) as (_ & Ht0 & Hp0).
      destruct pr as [k'|k']; simpl.
      * rewrite !filter_map_Finalize, !Ht, !Ht0, !terminal_at_new.
        rewrite <- map_app. apply Permutation_map. simpl.
        rewrite <- !app_assoc. apply Permutation_app_head.
        rewrite !app_assoc. apply Permutation_app_tail.
        apply Permutation_app_comm.
      * rewrite Hp, Hp0, partial_at_new. simpl. now rewrite app_nil_r.
    + destruct HF as (G & HG & HF).
      destruct (HF m) as (_ & Ht & Hp).
      destruct (HF new_SelectorMatcher) as (_ & Ht0 & Hp0).
      destruct pr as [k'|k']; simpl.
      * rewrite !Ht, !Ht0, !terminal_at_new. simpl. now rewrite app_nil_r.
      * rewrite Hp, Hp0, !partial_at_new. simpl.
        destruct (decide (k = k')) as [->|Hk]; [|simpl; now rewrite app_nil_r].
        rewrite !filter_trace, !(inserts_listContexts _ _ _ HG).
        rewrite (IH G HG). simpl.
        destruct (partial_at m k') as [c|]; simpl.
        -- rewrite filter_trace. now rewrite <- !app_assoc.
        -- now rewrite body_new.
Qed.

Lemma inserts_hits p sel F :
  inserts p sel F ->
  forall q,
    List.filter effective (body (F new_SelectorMatcher) q) ≡ₚ
    repeat (Finalize sel) (hits p q).
Proof.
  revert F. induction p as [|k p IH]; intros F HF q.
  - simpl in HF. rewrite HF, body_new. reflexivity.
  - unfold body. rewrite filter_flat_map.
    destruct p as [|k2 p].
    + simpl in HF. destruct (HF new_SelectorMatcher) as (_ & Ht0 & Hp0).
      cbn [hits]. apply flat_map_Permutation_repeat. intros [k'|k']; simpl.
      * rewrite filter_map_Finalize, !Ht0, !terminal_at_new. simpl.
        destruct (decide (k = k')), (decide (k = wildcard k')); reflexivity.
      * now rewrite Hp0, partial_at_new.
    + destruct HF as (G & HG & HF).
      destruct (HF new_SelectorMatcher) as (_ & Ht0 & Hp0).
      cbn [hits]. apply flat_map_Permutation_repeat. intros [k'|k']; simpl.
      * now rewrite !Ht0, !terminal_at_new.
      * rewrite Hp0, !partial_at_new. simpl.
        destruct (decide (k = k')) as [->|Hk]; [|reflexivity].
        rewrite filter_trace, (inserts_listContexts _ _ _ HG). simpl.
        apply (IH G HG).
Qed.

(** ** The events of a matcher built by [addSelectables] *)

Lemma body_push_listContext g m q : body (push_listContext g m) q = body m q.
Proof.
  unfold body. apply flat_map_ext'. intros [k|k]; destruct k; reflexivity.
Qed.

Lemma fold_addSelectable_body sels ctx lc m q :
  List.filter effective
    (body (fold_left (fun matcher s => _addSelectable s ctx lc matcher)
                     sels m) q)
  ≡ₚ List.filter effective (body m q)
     ++ hit_events (map (fun s => mkSelectorContext s ctx lc) sels) q.
Proof.
  revert m. induction sels as [|s sels IH]; intros m; simpl.
  - now rewrite app_nil_r.
  - rewrite IH.
    rewrite (inserts_body _ _ _ (_addSelectable_inserts s ctx lc) m q).
    rewrite (inserts_hits _ _ _ (_addSelectable_inserts s ctx lc) q).
    unfold hit_events. simpl. now rewrite <- app_assoc.
Qed.

Lemma fold_addSelectable_listContexts sels ctx lc m :
  _listContexts (fold_left (fun matcher s => _addSelectable s ctx lc matcher)
                           sels m)
  = _listContexts m.
Proof.
  revert m. induction sels as [|s sels IH]; intros m; simpl; [reflexivity|].
  rewrite IH.
  apply (inserts_listContexts _ _ _ (_addSelectable_inserts s ctx lc)).
Qed.

Lemma build_unfold batches :
  build batches = fold_left add_batch batches (new_SelectorMatcher, []).
Proof.
  unfold build. generalize (new_SelectorMatcher, @nil SelectorListContext).
  induction batches as [|[sels ctx] bs IH]; intros [m s]; simpl;
    [reflexivity|]. apply IH.
Qed.

Lemma fold_add_batch batches m (s : Store) q :
  let '(m', s') := fold_left add_batch batches (m, s) in
  List.filter effective (body m' q) ≡ₚ
    List.filter effective (body m q)
    ++ hit_events (registered_from (length s) batches) q
  /\ (exists new_groups,
        s' = s ++ new_groups
        /\ Forall (fun ctx => alreadyMatched ctx = false) new_groups
        /\ _listContexts m' =
           _listContexts m ++ seq (length s) (length new_groups)
        /\ Forall (fun e => match listContext e with
                            | Some g => length s <= g < length s'
                            | None => True
                            end)
                  (registered_from (length s) batches)).
Proof.
  revert m s. induction batches as [|[sels ctx] bs IH]; intros m s.
  - simpl. split; [unfold hit_events; simpl; now rewrite app_nil_r|].
    exists []. simpl. rewrite !app_nil_r. auto.
  - cbn [fold_left]. unfold add_batch at 2, addSelectables. cbn [fst snd].
    cbn [registered_from].
    destruct (1 <? length sels) eqn:Hbig.
    + specialize (IH
        (fold_left (fun matcher s0 =>
                      _addSelectable s0 ctx (Some (length s)) matcher)
                   sels (push_listContext (length s) m))
        (s ++ [mkSelectorListContext sels false])).
      destruct (fold_left add_batch bs _) as [m' s'].
      destruct IH as (Hb & ng & -> & Hng & Hl & Hr).
      rewrite length_app in Hb, Hl, Hr. simpl in Hb, Hl, Hr.
      replace (length s + 1) with (S (length s)) in Hb, Hl, Hr by lia.
      split.
      * rewrite Hb, fold_addSelectable_body, body_push_listContext.
        unfold hit_events. rewrite flat_map_app. now rewrite <- app_assoc.
      * exists (mkSelectorListContext sels false :: ng).
        split; [now rewrite <- app_assoc|].
        split; [now constructor|]. split.
        -- rewrite Hl, fold_addSelectable_listContexts. simpl.
           now rewrite <- app_assoc.
        -- apply Forall_app. split.
           ++ apply Forall_forall. intros e He.
              apply list_elem_of_In, in_map_iff in He as (s0 & <- & _).
              simpl. rewrite !length_app. simpl. lia.
           ++ eapply Forall_impl; [exact Hr|]. intros e. simpl.
              destruct (listContext e); [|auto].
              rewrite !length_app. simpl. lia.
    + specialize (IH
        (fold_left (fun matcher s0 => _addSelectable s0 ctx None matcher)
                   sels m) s).
      destruct (fold_left add_batch bs _) as [m' s'].
      destruct IH as (Hb & ng & -> & Hng & Hl & Hr).
      split.
      * rewrite Hb, fold_addSelectable_body.
        unfold hit_events. rewrite flat_map_app. now rewrite <- app_assoc.
      * exists ng. split; [reflexivity|]. split; [exact Hng|]. split.
        -- now rewrite Hl, fold_addSelectable_listContexts.
        -- apply Forall_app. split; [|exact Hr].
           apply Forall_forall. intros e He.
           apply list_elem_of_In, in_map_iff in He as (s0 & <- & _).
           exact I.
Qed.

(** The matcher built from batches: its list contexts are all the contexts
    of the store, none of them marked; the events of a query after the
    reset are, up to their order, the calls of [finalize] on the registered
    entries the query reaches. *)
Lemma build_spec batches q :
  let '(m, s) := build batches in
  List.filter effective (body m q) ≡ₚ hit_events (registered batches) q
  /\ _listContexts m = seq 0 (length s)
  /\ Forall (fun ctx => alreadyMatched ctx = false) s
  /\ Forall (fun e => match listContext e with
                      | Some g => g < length s
                      | None => True
                      end)
            (registered batches).
Proof.
  rewrite build_unfold.
  pose proof (fold_add_batch batches new_SelectorMatcher [] q) as H.
  destruct (fold_left add_batch batches _) as [m s].
  destruct H as (Hb & ng & -> & Hng & Hl & Hr).
  rewrite body_new in Hb. simpl in *.
  repeat split; auto.
  eapply Forall_impl; [exact Hr|]. intros e. simpl.
  destruct (listContext e); [lia | auto].
Qed.

(** ** The fuel of the negation matchers *)

Lemma match_fuel_eq fuel : match_fuel fuel = match_ (notMatch_at fuel).
Proof. destruct fuel; reflexivity. Qed.

Lemma finalize_ext nm1 nm2 e q cb st :
  (notSelectors (selector e) <> [] ->
   nm1 (notSelectors (selector e)) q = nm2 (notSelectors (selector e)) q) ->
  finalize nm1 e q cb st = finalize nm2 e q cb st.
Proof.
  intros H. unfold finalize.
  destruct (notSelectors (selector e)) as [|n ns]; [reflexivity|].
  now rewrite H.
Qed.

Lemma run_events_ext nm1 nm2 q cb evs acc :
  (forall e, In (Finalize e) evs -> notSelectors (selector e) <> [] ->
     nm1 (notSelectors (selector e)) q = nm2 (notSelectors (selector e)) q) ->
  run_events nm1 q cb evs acc = run_events nm2 q cb evs acc.
Proof.
  revert acc. induction evs as [|[lcs|e] evs IH]; intros acc H; simpl.
  - reflexivity.
  - apply IH. intros e He. apply H. now right.
  - destruct acc as [b s]. rewrite !or_result_pair.
    rewrite (finalize_ext nm1 nm2) by (apply H; now left).
    destruct (finalize nm2 e q cb s) as [[r s']|]; simpl; [|reflexivity].
    apply IH. intros e' He'. apply H. now right.
Qed.

Lemma finalize_total nm e q cb st :
  (notSelectors (selector e) <> [] ->
   is_Some (nm (notSelectors (selector e)) q)) ->
  is_Some (finalize nm e q cb st).
Proof.
  intros H. unfold finalize.
  destruct ((0 <? length (notSelectors (selector e)))
            && not_yet_matched (listContext e) st) eqn:E; simpl.
  - destruct H as [b Hb].
    { intros Hn. rewrite Hn in E. discriminate. }
    rewrite Hb. simpl. case_match; eauto.
  - case_match; eauto.
Qed.

Lemma run_events_total nm q cb evs acc :
  (forall e, In (Finalize e) evs -> notSelectors (selector e) <> [] ->
     is_Some (nm (notSelectors (selector e)) q)) ->
  is_Some (run_events nm q cb evs acc).
Proof.
  revert acc. induction evs as [|[lcs|e] evs IH]; intros acc H; simpl.
  - eauto.
  - apply IH. intros e He. apply H. now right.
  - destruct acc as [b s]. rewrite or_result_pair.
    destruct (finalize_total nm e q cb s) as [[r s'] Hf].
    { apply H. now left. }
    rewrite Hf. simpl. apply IH. intros e' He'. apply H. now right.
Qed.

Lemma reset_listContexts_nil st : reset_listContexts [] st = st.
Proof. now destruct st. Qed.

Lemma run_events_effective nm q cb evs acc :
  run_events nm q cb evs acc =
  run_events nm q cb (List.filter effective evs) acc.
Proof.
  revert acc. induction evs as [|[[|g lcs]|e] evs IH]; intros acc; simpl.
  - reflexivity.
  - rewrite reset_listContexts_nil. destruct acc. apply IH.
  - apply IH.
  - destruct (or_result _ acc); simpl; [apply IH | reflexivity].
Qed.

Lemma In_Finalize_effective e evs :
  In (Finalize e) evs <-> In (Finalize e) (List.filter effective evs).
Proof. rewrite filter_In. simpl. tauto. Qed.

Lemma In_hit_events e es q :
  In (Finalize e) (hit_events es q) -> In e es.
Proof.
  unfold hit_events. rewrite in_flat_map. intros (e' & He' & H).
  apply repeat_spec in H. now inversion H; subst.
Qed.

Lemma build_events batches q e :
  In (Finalize e) (trace (fst (build batches)) q) -> In e (registered batches).
Proof.
  pose proof (build_spec batches q) as H.
  destruct (build batches) as [m s]. destruct H as (Hb & _). simpl.
  rewrite trace_probes. intros [Hr|Hin]; [discriminate|].
  apply In_Finalize_effective in Hin.
  eapply Permutation_in in Hin; [|exact Hb].
  now apply In_hit_events in Hin.
Qed.

Lemma createNotMatcher_events ns q e :
  In (Finalize e) (trace (fst (createNotMatcher ns)) q) -> In (selector e) ns.
Proof.
  intros H. apply (build_events [(ns, None)]) in H.
  unfold registered in H. simpl in H.
  destruct (1 <? length ns); rewrite app_nil_r in H;
    apply in_map_iff in H as (s & <- & Hs); exact Hs.
Qed.

Lemma list_max_In {A} (f : A -> nat) (x : A) (l : list A) :
  In x l -> f x <= list_max (map f l).
Proof.
  induction l as [|a l IH]; simpl; [tauto|].
  intros [->|H]; [lia|]. specialize (IH H). lia.
Qed.

Lemma not_depth_notSelectors (s : CssSelector) :
  notSelectors s <> [] ->
  not_depth s = S (list_max (map not_depth (notSelectors s))).
Proof.
  destruct s as [e cs ats ns]. simpl. destruct ns; [congruence|reflexivity].
Qed.

Lemma notMatch_at_enough fuel :
  forall ns q,
    list_max (map not_depth ns) < fuel ->
    is_Some (notMatch_at fuel ns q)
    /\ forall fuel', list_max (map not_depth ns) < fuel' ->
                     notMatch_at fuel' ns q = notMatch_at fuel ns q.
Proof.
  induction fuel as [|f IH]; intros ns q Hf; [lia|].
  assert (Hev : forall e,
             In (Finalize e) (trace (fst (createNotMatcher ns)) q) ->
             notSelectors (selector e) <> [] ->
             forall g, list_max (map not_depth ns) < S g ->
               list_max (map not_depth (notSelectors (selector e))) < g).
  { intros e He Hn g Hg. apply createNotMatcher_events in He.
    apply (list_max_In not_depth) in He.
    rewrite (not_depth_notSelectors _ Hn) in He. lia. }
  split.
  - unfold notMatch_at. destruct (createNotMatcher ns) as [nm s0] eqn:E.
    rewrite match_fuel_eq, match_trace.
    destruct (run_events_total (notMatch_at f) q false (trace nm q)
                (false, mkState s0 [])) as [[r s'] Hr].
    { intros e He Hn. apply IH. now apply Hev. }
    rewrite Hr. simpl. eauto.
  - intros [|f'] Hf'; [lia|].
    unfold notMatch_at. destruct (createNotMatcher ns) as [nm s0] eqn:E.
    rewrite !match_fuel_eq, !match_trace. f_equal.
    apply run_events_ext. intros e He Hn.
    destruct (IH (notSelectors (selector e)) q) as [_ Heq];
      [now apply Hev|].
    apply Heq. now apply Hev.
Qed.

Lemma notMatch_total ns q : is_Some (notMatch ns q).
Proof. apply notMatch_at_enough. lia. Qed.

Lemma notMatch_at_notMatch fuel ns q :
  list_max (map not_depth ns) < fuel ->
  notMatch_at fuel ns q = notMatch ns q.
Proof.
  intros H. unfold notMatch.
  destruct (notMatch_at_enough (S (list_max (map not_depth ns))) ns q)
    as [_ Heq]; [lia|].
  now apply Heq.
Qed.

Lemma match_fuel_run fuel m q cb st :
  (forall e, In (Finalize e) (trace m q) -> not_depth (selector e) <= fuel) ->
  match_fuel fuel m q cb st = run_events notMatch q cb (trace m q) (false, st).
Proof.
  intros H. rewrite match_fuel_eq, match_trace.
  apply run_events_ext. intros e He Hn. apply notMatch_at_notMatch.
  specialize (H e He). rewrite (not_depth_notSelectors _ Hn) in H. lia.
Qed.

(** The entries a query finalizes are entries of the index. *)

Lemma Map_get_In {V} name (map : JsMap V) v :
  Map_get name map = Some v -> exists key, In (key, v) map.
Proof.
  induction map as [|[key v0] rest IH]; simpl; [discriminate|].
  destruct (String.eqb key name).
  - intros H; inversion H; subst. eauto.
  - intros H. destruct (IH H) as [k Hk]. eauto.
Qed.

Lemma entries_unfold m :
  entries m =
  flat_map snd (_elementMap m)
  ++ flat_map (fun '(_, nested) => entries nested) (_elementPartialMap m)
  ++ flat_map snd (_classMap m)
  ++ flat_map (fun '(_, nested) => entries nested) (_classPartialMap m)
  ++ flat_map (fun '(_, values) => flat_map snd values) (_attrValueMap m)
  ++ flat_map
       (fun '(_, values) =>
          flat_map (fun '(_, nested) => entries nested) values)
       (_attrValuePartialMap m).
Proof. destruct m; reflexivity. Qed.

Lemma terminal_at_entries m k e :
  In e (terminal_at m k) -> In e (entries m).
Proof.
  rewrite entries_unfold, !in_app_iff, !in_flat_map.
  destruct k as [name|name|name value]; simpl.
  - destruct (Map_get name (_elementMap m)) as [l|] eqn:E; simpl; [|tauto].
    apply Map_get_In in E as [key Hk]. intros He. left.
    exists (key, l). auto.
  - destruct (Map_get name (_classMap m)) as [l|] eqn:E; simpl; [|tauto].
    apply Map_get_In in E as [key Hk]. intros He. right; right; left.
    exists (key, l). auto.
  - destruct (Map_get name (_attrValueMap m)) as [values|] eqn:E; simpl;
      [|tauto].
    destruct (Map_get value values) as [l|] eqn:E2; simpl; [|tauto].
    apply Map_get_In in E as [key Hk]. apply Map_get_In in E2 as [key2 Hk2].
    intros He. right; right; right; right; left.
    exists (key, values). split; [exact Hk|].
    apply in_flat_map. exists (key2, l). auto.
Qed.

Lemma partial_at_entries m k nested e :
  partial_at m k = Some nested -> In e (entries nested) -> In e (entries m).
Proof.
  rewrite (entries_unfold m), !in_app_iff, !in_flat_map.
  destruct k as [name|name|name value]; simpl.
  - intros E He. apply Map_get_In in E as [key Hk]. right; left.
    exists (key, nested). auto.
  - intros E He. apply Map_get_In in E as [key Hk]. right; right; right; left.
    exists (key, nested). auto.
  - destruct (Map_get name (_attrValuePartialMap m)) as [values|] eqn:E;
      simpl; [|discriminate].
    intros E2 He.
    apply Map_get_In in E as [key Hk]. apply Map_get_In in E2 as [key2 Hk2].
    right; right; right; right; right.
    exists (key, values). split; [exact Hk|].
    apply in_flat_map. exists (key2, nested). auto.
Qed.

Lemma trace_entries q e m :
  In (Finalize e) (trace m q) -> In e (entries m).
Proof.
  induction m as [m IHe IHc IHa] using SelectorMatcher_nested_ind.
  rewrite trace_probes. intros [H|H]; [discriminate|].
  unfold body in H. apply in_flat_map in H as ([k|k] & _ & H); simpl in H.
  - apply in_map_iff in H as (e' & He' & H). inversion He'; subst e'.
    apply in_app_iff in H as [H|H]; eapply terminal_at_entries; eauto.
  - destruct (partial_at m k) as [nested|] eqn:E; [|contradiction].
    apply (partial_at_entries m k nested e E).
    destruct k as [name|name|name value]; simpl in E.
    + eapply IHe; eauto.
    + eapply IHc; eauto.
    + destruct (Map_get name (_attrValuePartialMap m)) as [values|] eqn:E1;
        simpl in E; [|discriminate].
      eapply IHa; eauto.
Qed.

(** [match] on any matcher is the run of its events, with the negation
    matchers of [finalize] given by [notMatch]. *)
Lemma SelectorMatcher_match_run m q cb st :
  SelectorMatcher_match m q cb st =
  run_events notMatch q cb (trace m q) (false, st).
Proof.
  unfold SelectorMatcher_match. apply match_fuel_run. intros e He.
  apply trace_entries in He. unfold matcher_depth.
  apply (list_max_In (fun e => not_depth (selector e))). exact He.
Qed.

(** [match] returns: the fuel never runs out. *)
Lemma SelectorMatcher_match_total m q cb st :
  exists r st', SelectorMatcher_match m q cb st = Some (r, st').
Proof.
  rewrite SelectorMatcher_match_run.
  destruct (run_events_total notMatch q cb (trace m q) (false, st))
    as [[r st'] H]; [|eauto].
  intros e _ _. apply notMatch_total.
Qed.

(** ** The store *)

Lemma not_yet_matched_flag g st :
  not_yet_matched (Some g) st = negb (flag (store st) g).
Proof. unfold not_yet_matched, flag. now destruct (store st !! g). Qed.

Lemma flag_set_alreadyMatched b g s g' :
  flag (set_alreadyMatched b g s) g' =
  if decide (g = g') then (if decide (g < length s) then b else false)
  else flag s g'.
Proof.
  unfold flag, set_alreadyMatched.
  destruct (decide (g = g')) as [->|Hg].
  - rewrite list_lookup_alter_eq.
    destruct (s !! g') as [ctx|] eqn:E; simpl.
    + apply lookup_lt_Some in E. now destruct (decide (g' < length s)).
    + apply lookup_ge_None in E. destruct (decide (g' < length s)); [lia|].
      reflexivity.
  - now rewrite list_lookup_alter_ne.
Qed.

Lemma selectors_set_alreadyMatched b g s :
  map selectors (set_alreadyMatched b g s) = map selectors s.
Proof.
  unfold set_alreadyMatched. apply list_eq. intros i.
  rewrite !list_lookup_fmap, list_lookup_alter.
  destruct (decide (g = i)) as [->|Hg]; [|reflexivity].
  now destruct (s !! i).
Qed.

Lemma selectors_reset lcs st :
  map selectors (store (reset_listContexts lcs st)) = map selectors (store st).
Proof.
  unfold reset_listContexts. simpl. generalize (store st).
  induction lcs as [|g lcs IH]; intros s; simpl; [reflexivity|].
  now rewrite IH, selectors_set_alreadyMatched.
Qed.

Lemma flag_reset lcs st g :
  flag (store (reset_listContexts lcs st)) g =
  if decide (g ∈ lcs) then false else flag (store st) g.
Proof.
  unfold reset_listContexts. simpl. generalize (store st).
  induction lcs as [|g0 lcs IH]; intros s; simpl.
  - destruct (decide (g ∈ [])) as [H|H]; [|reflexivity].
    now apply elem_of_nil in H.
  - rewrite IH, flag_set_alreadyMatched.
    destruct (decide (g ∈ lcs)) as [Hin|Hin],
             (decide (g ∈ g0 :: lcs)) as [Hin'|Hin'];
      try reflexivity.
    + contradict Hin'. now right.
    + destruct (decide (g0 = g)) as [->|Hg].
      * now destruct (decide (g < length s)).
      * apply elem_of_cons in Hin' as [->|]; [congruence|contradiction].
    + destruct (decide (g0 = g)) as [->|Hg]; [|reflexivity].
      contradict Hin'. now left.
Qed.

Lemma calls_reset lcs st : calls (reset_listContexts lcs st) = calls st.
Proof. reflexivity. Qed.

(** A store is determined by its selectors and its flags. *)
Lemma store_eq (s1 s2 : Store) :
  map selectors s1 = map selectors s2 ->
  (forall g, flag s1 g = flag s2 g) ->
  s1 = s2.
Proof.
  revert s2. induction s1 as [|c1 s1 IH]; intros [|c2 s2] Hs Hf;
    try discriminate; [reflexivity|].
  simpl in Hs. inversion Hs.
  f_equal.
  - specialize (Hf 0). unfold flag in Hf. simpl in Hf.
    destruct c1, c2; simpl in *; congruence.
  - apply IH; [assumption|]. intros g. apply (Hf (S g)).
Qed.

(** ** [finalize] *)

Lemma finalize_spec e q cb st :
  finalize notMatch e q cb st =
  if not_yet_matched (listContext e) st then
    if passes notMatch q e && cb
    then Some (true,
               mkState (match listContext e with
                        | Some g => set_alreadyMatched true g (store st)
                        | None => store st
                        end)
                       (calls st ++ [call_of e]))
    else Some (passes notMatch q e, st)
  else Some (true, st).
Proof.
  unfold finalize, passes.
  destruct (notSelectors (selector e)) as [|n ns] eqn:En; simpl.
  - now destruct (not_yet_matched (listContext e) st), cb.
  - destruct (notMatch_total (n :: ns) q) as [b Hb].
    destruct (not_yet_matched (listContext e) st); simpl.
    + rewrite Hb. simpl. now destruct b, cb.
    + now destruct cb.
Qed.

Lemma finalize_selectors e q cb st r st' :
  finalize notMatch e q cb st = Some (r, st') ->
  map selectors (store st') = map selectors (store st).
Proof.
  rewrite finalize_spec.
  destruct (not_yet_matched _ _); [destruct (_ && cb)|];
    intros H; inversion H; subst; simpl; try reflexivity.
  destruct (listContext e); [apply selectors_set_alreadyMatched|reflexivity].
Qed.

Lemma run_events_selectors q cb evs acc r st' :
  run_events notMatch q cb evs acc = Some (r, st') ->
  map selectors (store st') = map selectors (store (snd acc)).
Proof.
  revert acc. induction evs as [|[lcs|e] evs IH]; intros [b st]; simpl.
  - intros H; now inversion H.
  - intros H. apply IH in H. cbn [snd] in H.
    now rewrite selectors_reset in H.
  - rewrite or_result_pair.
    destruct (finalize notMatch e q cb st) as [[r1 s1]|] eqn:E; simpl;
      [|discriminate].
    intros H. apply IH in H. cbn [snd] in H. rewrite H.
    eapply finalize_selectors; eauto.
Qed.

(** ** The result does not depend on the callback *)

Lemma related_or b x st_t st_f :
  related b st_t st_f -> related (x || b) st_t st_f.
Proof.
  intros H g. destruct (H g) as [Hg|[Hg ->]]; [now left|].
  right. now rewrite orb_true_r.
Qed.

Lemma related_reset b lcs st_t st_f :
  related b st_t st_f ->
  related b (reset_listContexts lcs st_t) (reset_listContexts lcs st_f).
Proof.
  intros H g. rewrite !flag_reset.
  destruct (decide (g ∈ lcs)); [now left | apply H].
Qed.

Lemma run_events_callback q evs :
  forall b st_t st_f r_t st_t' r_f st_f',
    related b st_t st_f ->
    run_events notMatch q true evs (b, st_t) = Some (r_t, st_t') ->
    run_events notMatch q false evs (b, st_f) = Some (r_f, st_f') ->
    r_t = r_f.
Proof.
  induction evs as [|[lcs|e] evs IH];
    intros b st_t st_f r_t st_t' r_f st_f' Hrel Ht Hf; simpl in Ht, Hf.
  - congruence.
  - eapply IH; [|exact Ht|exact Hf]. now apply related_reset.
  - rewrite or_result_pair, finalize_spec in Ht, Hf.
    rewrite andb_false_r in Hf.
    destruct (listContext e) as [g|] eqn:Elc.
    + rewrite not_yet_matched_flag in Ht, Hf.
      destruct (flag (store st_t) g) eqn:Eft; simpl in Ht.
      * destruct (flag (store st_f) g) eqn:Eff; simpl in Hf.
        -- eapply IH; [|exact Ht|exact Hf].
           exact (related_or b true _ _ Hrel).
        -- destruct (Hrel g) as [Hg|[_ ->]]; [congruence|].
           rewrite orb_true_r in Hf. simpl in Ht.
           eapply IH; [|exact Ht|exact Hf]. exact Hrel.
      * assert (Eff : flag (store st_f) g = false).
        { destruct (Hrel g) as [Hg|[Hg _]]; congruence. }
        rewrite Eff in Hf. simpl in Hf. rewrite andb_true_r in Ht.
        destruct (passes notMatch q e) eqn:Ep; simpl in Ht, Hf.
        -- eapply IH; [|exact Ht|exact Hf].
           intros g'. simpl. rewrite flag_set_alreadyMatched.
           destruct (decide (g = g')) as [<-|Hg].
           ++ destruct (decide (g < length (store st_t))); [now right|].
              left. now rewrite Eff.
           ++ destruct (Hrel g') as [Hg'|[Hg' _]]; [now left|now right].
        -- eapply IH; [|exact Ht|exact Hf]. exact Hrel.
    + simpl in Ht, Hf. rewrite andb_true_r in Ht.
      destruct (passes notMatch q e) eqn:Ep; simpl in Ht, Hf.
      * eapply IH; [|exact Ht|exact Hf].
        intros g. simpl. destruct (Hrel g) as [Hg|[Hg _]];
          [now left|now right].
      * eapply IH; [|exact Ht|exact Hf]. exact Hrel.
Qed.

(** ** Queries on a built matcher *)

Lemma In_finalized e evs : In e (finalized evs) <-> In (Finalize e) evs.
Proof.
  unfold finalized. rewrite in_flat_map. split.
  - intros ([lcs|e'] & Hin & He); simpl in He; [contradiction|].
    destruct He as [->|[]]. exact Hin.
  - intros H. exists (Finalize e). split; [exact H | now left].
Qed.

Lemma only_finalize evs :
  Forall (fun ev => exists e, ev = Finalize e) evs ->
  evs = map Finalize (finalized evs).
Proof.
  induction 1 as [|ev evs [e ->] _ IH]; simpl; [reflexivity|].
  now rewrite <- IH.
Qed.

Lemma hit_events_finalize es q :
  Forall (fun ev => exists e, ev = Finalize e) (hit_events es q).
Proof.
  apply Forall_forall. intros ev Hev. apply list_elem_of_In in Hev.
  unfold hit_events in Hev. apply in_flat_map in Hev as (e & _ & He).
  apply repeat_spec in He. eauto.
Qed.

Lemma In_hit_events_iff e es q :
  In (Finalize e) (hit_events es q) <->
  In e es /\ 0 < hits (path (selector e)) q.
Proof.
  unfold hit_events. rewrite in_flat_map. split.
  - intros (e' & He' & H). pose proof (repeat_spec _ _ _ H) as Heq.
    inversion Heq; subst e'. split; [exact He'|].
    destruct (hits (path (selector e)) q); [contradiction | lia].
  - intros [He Hh]. exists e. split; [exact He|].
    destruct (hits (path (selector e)) q); [lia | now left].
Qed.

(** The query [q] on the matcher built from [batches]: after the reset of
    all list contexts, [finalize] runs on a sequence [es] of entries, which
    are the registered entries whose path the query reaches. *)
Lemma build_match batches q :
  exists es,
    (forall cb st,
        SelectorMatcher_match (fst (build batches)) q cb st =
        run_events notMatch q cb (map Finalize es)
          (false,
           reset_listContexts (seq 0 (length (snd (build batches)))) st))
    /\ (forall e, In e es <->
                  In e (registered batches) /\ 0 < hits (path (selector e)) q)
    /\ Forall (fun e => match listContext e with
                        | Some g => g < length (snd (build batches))
                        | None => True
                        end)
              (registered batches).
Proof.
  pose proof (build_spec batches q) as H.
  destruct (build batches) as [m s]. destruct H as (Hb & Hl & _ & Hr).
  cbn [fst snd].
  exists (finalized (List.filter effective (body m q))).
  assert (Hf : Forall (fun ev => exists e, ev = Finalize e)
                      (List.filter effective (body m q))).
  { apply Forall_forall. intros ev Hev. apply list_elem_of_In in Hev.
    eapply Permutation_in in Hev; [|exact Hb].
    pose proof (hit_events_finalize (registered batches) q) as Hall.
    rewrite Forall_forall in Hall. apply Hall. now apply list_elem_of_In. }
  split; [|split; [|exact Hr]].
  - intros cb st. rewrite SelectorMatcher_match_run, trace_probes. simpl.
    rewrite Hl, run_events_effective. now rewrite <- (only_finalize _ Hf).
  - intros e. rewrite In_finalized, <- In_hit_events_iff.
    split; intros H.
    + eapply Permutation_in; [exact Hb | exact H].
    + eapply Permutation_in; [symmetry; exact Hb | exact H].
Qed.

(** The result of finalizing a sequence of entries none of whose groups is
    marked unless the result is true already: whether one of them passes. *)
Lemma run_finalize_result q cb es :
  forall b st,
    (forall e, In e es ->
       not_yet_matched (listContext e) st = false -> b = true) ->
    exists st',
      run_events notMatch q cb (map Finalize es) (b, st) =
      Some (b || existsb (passes notMatch q) es, st').
Proof.
  induction es as [|e es IH]; intros b st Hinv; simpl.
  - rewrite orb_false_r. eauto.
  - rewrite or_result_pair, finalize_spec.
    destruct (not_yet_matched (listContext e) st) eqn:En.
    + destruct (passes notMatch q e && cb) eqn:Ep; simpl.
      * apply andb_true_iff in Ep as [-> _]. simpl.
        destruct (IH true
                    (mkState
                       (match listContext e with
                        | Some g => set_alreadyMatched true g (store st)
                        | None => store st
                        end)
                       (calls st ++ [call_of e]))) as [st' Hst'];
          [reflexivity|].
        exists st'. rewrite Hst'. now rewrite orb_true_r.
      * destruct (IH (passes notMatch q e || b) st) as [st' Hst'].
        { intros e' He' Hn. rewrite (Hinv e'); [apply orb_true_r| |exact Hn].
          now right. }
        exists st'. rewrite Hst'. f_equal. f_equal.
        now destruct (passes notMatch q e), b.
    + rewrite (Hinv e (or_introl eq_refl) En). simpl.
      destruct (IH true st) as [st' Hst']; [reflexivity|].
      exists st'. exact Hst'.
Qed.

Lemma reset_all_not_yet_matched n st lc :
  match lc with Some g => g < n | None => True end ->
  not_yet_matched lc (reset_listContexts (seq 0 n) st) = true.
Proof.
  destruct lc as [g|]; [|reflexivity]. intros Hg.
  rewrite not_yet_matched_flag, flag_reset.
  destruct (decide (g ∈ seq 0 n)) as [|Hn]; [reflexivity|].
  contradict Hn. apply elem_of_seq. lia.
Qed.

(** The result of a query on a built matcher: whether a registered entry
    that the query reaches passes its negations. *)
Lemma build_match_result batches q cb st :
  exists st',
    SelectorMatcher_match (fst (build batches)) q cb st =
    Some (existsb (fun e => (0 <? hits (path (selector e)) q)
                            && passes notMatch q e)
                  (registered batches),
          st').
Proof.
  destruct (build_match batches q) as (es & Hrun & Hes & Hr).
  destruct (run_finalize_result q cb es false
              (reset_listContexts (seq 0 (length (snd (build batches)))) st))
    as [st' Hst'].
  { intros e He Hn. rewrite reset_all_not_yet_matched in Hn; [discriminate|].
    apply Hes in He as [He _]. rewrite Forall_forall in Hr.
    apply Hr. now apply list_elem_of_In. }
  exists st'. rewrite Hrun, Hst'. simpl. f_equal. f_equal.
  apply eq_true_iff_eq. rewrite !existsb_exists. split.
  - intros (e & He & Hp). apply Hes in He as [He Hh]. exists e.
    split; [exact He|]. rewrite Hp, andb_true_r. now apply Nat.ltb_lt.
  - intros (e & He & Hp). apply andb_true_iff in Hp as [Hh Hp].
    exists e. split; [|exact Hp]. apply Hes. split; [exact He|].
    now apply Nat.ltb_lt.
Qed.

Lemma list_sum_pos {A} (f : A -> nat) (l : list A) :
  0 < list_sum (map f l) <-> exists x, In x l /\ 0 < f x.
Proof.
  induction l as [|a l IH]; simpl.
  - split; [lia | intros (x & [] & _)].
  - split.
    + intros H. destruct (f a) eqn:E.
      * apply IH in H as (x & Hx & Hf). eauto.
      * exists a. split; [now left | lia].
    + intros (x & [->|Hx] & Hf); [lia|].
      assert (0 < list_sum (map f l)) by (apply IH; eauto). lia.
Qed.

Lemma In_probes_Terminal k q :
  In (Terminal k) (probes q) <->
  (exists e, element q = Some e /\ k = KElement e)
  \/ (exists c, In c (classNames q) /\ k = KClass c)
  \/ (exists n w, In (n, w) (attrs q)
                  /\ (k = KAttr n w \/ (nonempty w = true /\ k = KAttr n ""))).
Proof.
  unfold probes. rewrite !in_app_iff, !in_flat_map. split.
  - intros [H|[(c & Hc & H)|([n w] & Hnw & H)]].
    + destruct (element q) as [e|]; simpl in H; [|contradiction].
      destruct H as [H|[H|[]]]; inversion H. left. eauto.
    + simpl in H. destruct H as [H|[H|[]]]; inversion H. right; left. eauto.
    + right; right. exists n, w. split; [exact Hnw|].
      rewrite !in_app_iff in H. destruct (nonempty w) eqn:Ew; simpl in H.
      * destruct H as [[H|[]]|[[H|[]]|[[H|[]]|[H|[]]]]];
          inversion H; subst; auto.
      * destruct H as [[]|[[H|[]]|[[]|[H|[]]]]]; inversion H; subst; auto.
  - intros [(e & He & ->)|[(c & Hc & ->)|(n & w & Hnw & H)]].
    + left. rewrite He. now left.
    + right; left. exists c. split; [exact Hc | now left].
    + right; right. exists (n, w). split; [exact Hnw|].
      rewrite !in_app_iff. destruct H as [->|[Hw ->]].
      * right; left. now left.
      * left. rewrite Hw. now left.
Qed.

Lemma hits_single k q :
  0 < hits [k] q <->
  exists k', In (Terminal k') (probes q) /\ (k = k' \/ k = wildcard k').
Proof.
  cbn [hits]. rewrite list_sum_pos. split.
  - intros ([k'|k'] & Hin & H); [|lia]. exists k'. split; [exact Hin|].
    destruct (decide (k = k')); [now left|].
    destruct (decide (k = wildcard k')); [now right | simpl in H; lia].
  - intros (k' & Hin & H). exists (Terminal k'). split; [exact Hin|].
    destruct H as [-> | ->].
    + destruct (decide (k' = k')); [lia | congruence].
    + destruct (decide (wildcard k' = wildcard k')); [lia | congruence].
Qed.

Lemma notMatch_createNotMatcher ns q :
  notMatch ns q =
  fst <$> SelectorMatcher_match (fst (createNotMatcher ns)) q false
            (mkState (snd (createNotMatcher ns)) []).
Proof.
  unfold notMatch, notMatch_at.
  destruct (createNotMatcher ns) as [nm s0] eqn:E. cbn [fst snd].
  rewrite SelectorMatcher_match_run, match_fuel_run; [reflexivity|].
  intros e He. replace nm with (fst (createNotMatcher ns)) in He
    by now rewrite E.
  apply createNotMatcher_events in He.
  now apply (list_max_In not_depth).
Qed.

(** The negation matcher of [finalize] matches when the query reaches a
    negation that passes its own negations. *)
Lemma notMatch_spec ns q :
  notMatch ns q =
  Some (existsb (fun e => (0 <? hits (path (selector e)) q)
                          && passes notMatch q e)
                (registered [(ns, None)])).
Proof.
  rewrite notMatch_createNotMatcher.
  destruct (build_match_result [(ns, None)] q false
              (mkState (snd (createNotMatcher ns)) [])) as [st' H].
  change (fst (build [(ns, None)])) with (fst (createNotMatcher ns)) in H.
  now rewrite H.
Qed.

(** Finalizing entries that do not pass changes nothing. *)
Lemma run_finalize_none q cb es b st :
  (forall e, In e es -> passes notMatch q e = false) ->
  (forall e, In e es -> not_yet_matched (listContext e) st = true) ->
  run_events notMatch q cb (map Finalize es) (b, st) = Some (b, st).
Proof.
  revert b. induction es as [|e es IH]; intros b Hp Hn; simpl; [reflexivity|].
  rewrite or_result_pair, finalize_spec.
  rewrite (Hn e), (Hp e) by now left. simpl.
  apply IH; intros e' He'; [apply Hp | apply Hn]; now right.
Qed.

(** * The claims about the matcher *)

Lemma no_constraint_path s : no_constraint s -> path s = [].
Proof.
  intros (He & Hc & Ha). unfold path. rewrite Hc, Ha. simpl.
  destruct (element s) as [e|]; [|reflexivity].
  simpl in He. now rewrite He.
Qed.

Lemma registered_single s ctx :
  registered [([s], ctx)] = [mkSelectorContext s ctx None].
Proof. reflexivity. Qed.

(** C4, as the code has it.  A selector without constraints is inserted on
    no axis: [_addSelectable] leaves the index as it is.  So a matcher on
    which only such selectors were registered matches no query: [match]
    returns false and calls no callback. *)
Theorem unconstrained_selector_never_matches :
  (forall s ctx lc m, no_constraint s -> _addSelectable s ctx lc m = m)
  /\ (forall batches q cb st,
        (forall b s, In b batches -> In s (fst b) -> no_constraint s) ->
        exists st',
          SelectorMatcher_match (fst (build batches)) q cb st
          = Some (false, st')
          /\ calls st' = calls st).
Proof.
  split.
  - intros s ctx lc m Hs.
    pose proof (_addSelectable_inserts s ctx lc) as H.
    rewrite (no_constraint_path s Hs) in H. apply H.
  - intros batches q cb st Hall.
    destruct (build_match batches q) as (es & Hrun & Hes & _).
    assert (Hnil : es = []).
    { destruct es as [|e es]; [reflexivity|]. exfalso.
      destruct (proj1 (Hes e) (or_introl eq_refl)) as [Hreg Hh].
      assert (Hn : no_constraint (selector e)).
      { clear - Hreg Hall. unfold registered in Hreg.
        generalize dependent 0.
        induction batches as [|[sels ctx] bs IH]; intros n Hreg;
          simpl in Hreg; [contradiction|].
        destruct (1 <? length sels);
          apply in_app_iff in Hreg as [Hreg|Hreg].
        1,3: apply in_map_iff in Hreg as (s & <- & Hs);
          apply (Hall (sels, ctx) s); [now left | exact Hs].
        all: eapply IH; [|exact Hreg]; intros b s Hb Hs;
          apply (Hall b s); [now right | exact Hs]. }
      rewrite (no_constraint_path _ Hn) in Hh. simpl in Hh. lia. }
    subst es. eexists. split; [apply Hrun | reflexivity].
Qed.

Lemma unconstrained_selector_never_matches_witness :
  _addSelectable new_CssSelector (Some 0) None new_SelectorMatcher
  = new_SelectorMatcher
  /\ exists st',
       SelectorMatcher_match (fst (build [([new_CssSelector], Some 0)]))
         (mkCssSelector (Some "div") [] [] []) true (mkState [] [])
       = Some (false, st')
       /\ calls st' = [].
Proof.
  split.
  - apply (proj1 unconstrained_selector_never_matches).
    repeat split.
  - apply (proj2 unconstrained_selector_never_matches
             [([new_CssSelector], Some 0)]).
    intros b s [<-|[]] [<-|[]]. repeat split.
Defined.

(** The claim C4 fails: the selector parsed from the empty string is
    registered, and [match] returns false for a query and calls no
    callback. *)
Lemma unconstrained_selector_counterexample :
  parse "" = Ok [new_CssSelector]
  /\ SelectorMatcher_match (fst (build [([new_CssSelector], Some 0)]))
       (mkCssSelector (Some "div") ["a"] [("b", "c")] []) true
       (mkState (snd (build [([new_CssSelector], Some 0)])) [])
     = Some (false, mkState [] []).
Proof. split; vm_compute; reflexivity. Qed.

Lemma hits_attr name v q :
  0 < hits [KAttr name v] q <->
  exists w, In (name, w) (attrs q)
            /\ (v = w \/ (w <> "" /\ v = "") \/ v = "*").
Proof.
  rewrite hits_single. split.
  - intros (k' & Hin & Hk). apply In_probes_Terminal in Hin.
    destruct Hin as [(e & _ & ->)|[(c & _ & ->)|(n & w & Hnw & Hw)]].
    + destruct Hk as [Hk|Hk]; discriminate Hk.
    + destruct Hk as [Hk|Hk]; discriminate Hk.
    + destruct Hw as [->|[Hw ->]]; destruct Hk as [Hk|Hk];
        simpl in Hk; inversion Hk; subst; exists w; split; auto.
      right; left. split; [|reflexivity]. now destruct w.
  - intros (w & Hnw & Hv).
    destruct Hv as [->|[[Hw ->]| ->]].
    + exists (KAttr name w). split; [|now left].
      apply In_probes_Terminal. right; right. exists name, w. auto.
    + exists (KAttr name ""). split; [|now left].
      apply In_probes_Terminal. right; right. exists name, w.
      split; [exact Hnw|]. right. split; [|reflexivity]. now destruct w.
    + exists (KAttr name w). split; [|now right].
      apply In_probes_Terminal. right; right. exists name, w. auto.
Qed.

(** C6, as the code has it.  On a matcher on which the one-attribute
    selector [[name]] or [[name=v]] alone was registered, [match] returns
    true exactly when the query carries [name] with a value [w] such that
    [v] is [w], or [v] is empty and [w] is not, or [v] is the wildcard [*].
    So [[name]] matches every query that carries the attribute, whatever
    its value; [[name=v]], for a value that is not the wildcard, matches
    only a query whose value is [v]; and a query whose value is empty
    satisfies the registrations without a value and those with the wildcard
    value.  An attribute of the query with an empty value is probed under
    the empty key, in the terminal and the partial map; one with a
    non-empty value under the empty key and under its value. *)
Theorem attribute_presence_and_value
    (name v : string) (ctx : CallbackCtxt) (q : CssSelector) (cb : bool)
    (st : State) :
  (exists r st',
      SelectorMatcher_match (fst (build [([attr_selector name v], ctx)]))
        q cb st = Some (r, st')
      /\ (r = true <->
          exists w, In (name, w) (attrs q)
                    /\ (v = w \/ (w <> "" /\ v = "") \/ v = "*"))
      /\ (v = "" -> (r = true <-> exists w, In (name, w) (attrs q)))
      /\ (v <> "" -> v <> "*" -> (r = true <-> In (name, v) (attrs q)))
      /\ ((forall w, In (name, w) (attrs q) -> w = "") ->
          (r = true <-> In (name, "") (attrs q) /\ (v = "" \/ v = "*"))))
  /\ (forall (m : SelectorMatcher) (w : string),
        trace m (attr_selector name w) =
        Reset (_listContexts m)
        :: flat_map (probe_events m (attr_selector name w))
             (if nonempty w
              then [Terminal (KAttr name ""); Terminal (KAttr name w);
                    Partial (KAttr name ""); Partial (KAttr name w)]
              else [Terminal (KAttr name w); Partial (KAttr name w)])).
Proof.
  split.
  - destruct (build_match_result [([attr_selector name v], ctx)] q cb st)
      as [st' Hm].
    rewrite registered_single in Hm. simpl in Hm.
    rewrite orb_false_r, andb_true_r in Hm.
    eexists _, st'. split; [exact Hm|].
    assert (Hr : (0 <? hits [KAttr name v] q) = true <->
                 exists w, In (name, w) (attrs q)
                           /\ (v = w \/ (w <> "" /\ v = "") \/ v = "*")).
    { rewrite Nat.ltb_lt. apply hits_attr. }
    split; [exact Hr|]. split; [|split].
    + intros ->. rewrite Hr. split.
      * intros (w & Hw & _). eauto.
      * intros (w & Hw). exists w. split; [exact Hw|].
        destruct w; [now left|]. right; left. split; [discriminate|reflexivity].
    + intros Hv Hs. rewrite Hr. split.
      * intros (w & Hw & [->|[[_ ->]| ->]]); [exact Hw|congruence|congruence].
      * intros Hw. exists v. auto.
    + intros Hempty. rewrite Hr. split.
      * intros (w & Hw & Hv). pose proof (Hempty w Hw) as ->.
        split; [exact Hw|].
        destruct Hv as [->|[[Hne _]| ->]]; [now left|congruence|now right].
      * intros (Hw & [-> | ->]); exists ""; split; auto.
  - intros m w. rewrite trace_probes. unfold body, probes. simpl.
    destruct (nonempty w); reflexivity.
Qed.

Lemma attribute_presence_and_value_witness :
  exists r st',
    SelectorMatcher_match (fst (build [([attr_selector "required" "yes"],
                                        Some 0)]))
      (attr_selector "required" "yes") true (mkState [] []) = Some (r, st')
    /\ (r = true <-> In ("required", "yes") [("required", "yes")]).
Proof.
  destruct (proj1 (attribute_presence_and_value "required" "yes" (Some 0)
                     (attr_selector "required" "yes") true (mkState [] [])))
    as (r & st' & Hm & _ & _ & Hv & _).
  exists r, st'. split; [exact Hm|]. apply Hv; discriminate.
Defined.

(** The claim C6 fails for a registration with the wildcard value: the
    selector parsed from [[required=*]] has a value, and the query parsed
    from [[required]], whose value is empty, satisfies it. *)
Lemma attribute_wildcard_counterexample :
  parse "[required=*]" = Ok [attr_selector "required" "*"]
  /\ parse "[required]" = Ok [attr_selector "required" ""]
  /\ SelectorMatcher_match
       (fst (build [([attr_selector "required" "*"], Some 0)]))
       (attr_selector "required" "") true (mkState [] [])
     = Some (true, mkState [] [(attr_selector "required" "*", Some 0)]).
Proof. repeat split; vm_compute; reflexivity. Qed.

(** C2.  On a matcher on which the selector parsed from
    [input:not(.disabled)] alone was registered, [match] returns false, and
    calls no callback, for every query with the element [input] whose class
    names contain [disabled]; and it returns true for the query with the
    element [input] and the class name [enabled]. *)
Theorem negation_excludes (ctx : CallbackCtxt) (q : CssSelector) (cb : bool)
    (st : State) :
  parse "input:not(.disabled)" = Ok [input_not_disabled]
  /\ (element q = Some "input" -> In "disabled" (classNames q) ->
      SelectorMatcher_match (fst (build [([input_not_disabled], ctx)]))
        q cb st = Some (false, st))
  /\ exists st',
       SelectorMatcher_match (fst (build [([input_not_disabled], ctx)]))
         (mkCssSelector (Some "input") ["enabled"] [] []) cb st
       = Some (true, st').
Proof.
  split; [vm_compute; reflexivity|]. split.
  - intros He Hc.
    destruct (build_match [([input_not_disabled], ctx)] q)
      as (es & Hrun & Hes & _).
    rewrite Hrun. cbn [build fold_left addSelectables snd length Nat.ltb
                       Nat.leb seq].
    rewrite reset_listContexts_nil.
    apply run_finalize_none.
    + intros e Hin. apply Hes in Hin as [Hin _].
      rewrite registered_single in Hin. destruct Hin as [<-|[]].
      assert (Hh : (0 <? hits [KClass "disabled"] q) = true).
      { apply Nat.ltb_lt, hits_single.
        exists (KClass "disabled"). split; [|now left].
        apply In_probes_Terminal. right; left. eauto. }
      unfold passes. cbn [selector notSelectors input_not_disabled].
      rewrite notMatch_spec, registered_single. cbn [existsb].
      change (path (selector (mkSelectorContext
                                (mkCssSelector None ["disabled"] [] [])
                                None None)))
        with [KClass "disabled"].
      now rewrite Hh.
    + intros e Hin. apply Hes in Hin as [Hin _].
      rewrite registered_single in Hin. destruct Hin as [<-|[]].
      reflexivity.
  - destruct (build_match_result [([input_not_disabled], ctx)]
                (mkCssSelector (Some "input") ["enabled"] [] []) cb st)
      as [st' Hm].
    exists st'. rewrite Hm. f_equal.
Qed.

Lemma negation_excludes_witness :
  SelectorMatcher_match (fst (build [([input_not_disabled], Some 7)]))
    (mkCssSelector (Some "input") ["big"; "disabled"] [("type", "text")] [])
    true (mkState [] [])
  = Some (false, mkState [] []).
Proof.
  apply (proj1 (proj2 (negation_excludes (Some 7)
           (mkCssSelector (Some "input") ["big"; "disabled"]
              [("type", "text")] [])
           true (mkState [] [])))).
  - reflexivity.
  - simpl. auto.
Defined.

(** C8.  For every matcher, query and state, [match] returns the same
    boolean with and without a callback.  The boolean is the disjunction of
    the results of [finalize] over the entries the probes find, in the order
    of the probes; there, an entry whose negation matcher matches the query
    gives false while its group is not marked, and an entry of a marked
    group gives true without a call of the callback and without running its
    negation matcher. *)
Theorem match_result_independent_of_callback
    (m : SelectorMatcher) (q : CssSelector) (st : State) :
  (exists r st_t st_f,
      SelectorMatcher_match m q true st = Some (r, st_t)
      /\ SelectorMatcher_match m q false st = Some (r, st_f))
  /\ (forall cb,
        SelectorMatcher_match m q cb st =
        run_events notMatch q cb (trace m q) (false, st))
  /\ (forall e cb st0,
        not_yet_matched (listContext e) st0 = true ->
        notSelectors (selector e) <> [] ->
        notMatch (notSelectors (selector e)) q = Some true ->
        finalize notMatch e q cb st0 = Some (false, st0))
  /\ (forall e cb st0,
        not_yet_matched (listContext e) st0 = false ->
        finalize notMatch e q cb st0 = Some (true, st0))
  /\ (forall ns,
        notMatch ns q =
        fst <$> SelectorMatcher_match (fst (createNotMatcher ns)) q false
                  (mkState (snd (createNotMatcher ns)) [])).
Proof.
  split; [|split; [|split; [|split]]].
  - destruct (SelectorMatcher_match_total m q true st) as (r_t & st_t & Ht).
    destruct (SelectorMatcher_match_total m q false st) as (r_f & st_f & Hf).
    exists r_t, st_t, st_f. split; [exact Ht|]. rewrite Hf.
    rewrite SelectorMatcher_match_run in Ht, Hf.
    assert (r_t = r_f) as ->; [|reflexivity].
    eapply run_events_callback; [|exact Ht|exact Hf].
    intros g. now left.
  - intros cb. apply SelectorMatcher_match_run.
  - intros e cb st0 Hn Hns Hm. rewrite finalize_spec, Hn.
    unfold passes. destruct (notSelectors (selector e)); [congruence|].
    now rewrite Hm.
  - intros e cb st0 Hn. now rewrite finalize_spec, Hn.
  - intros ns. apply notMatch_createNotMatcher.
Qed.

Lemma match_result_independent_of_callback_witness :
  finalize notMatch
    (mkSelectorContext input_not_disabled (Some 1) None)
    (mkCssSelector (Some "input") ["disabled"] [] []) true (mkState [] [])
  = Some (false, mkState [] [])
  /\ finalize notMatch
       (mkSelectorContext input_not_disabled (Some 1) (Some 0))
       (mkCssSelector (Some "input") ["disabled"] [] []) true
       (mkState [mkSelectorListContext [] true] [])
     = Some (true, mkState [mkSelectorListContext [] true] []).
Proof.
  split.
  - apply (proj1 (proj2 (proj2 (match_result_independent_of_callback
             new_SelectorMatcher
             (mkCssSelector (Some "input") ["disabled"] [] [])
             (mkState [] []))))).
    + reflexivity.
    + discriminate.
    + vm_compute. reflexivity.
  - apply (proj1 (proj2 (proj2 (proj2 (match_result_independent_of_callback
             new_SelectorMatcher
             (mkCssSelector (Some "input") ["disabled"] [] [])
             (mkState [] [])))))).
    reflexivity.
Defined.

(** ** Repeated queries *)

Lemma length_selectors (s1 s2 : Store) :
  map selectors s1 = map selectors s2 -> length s1 = length s2.
Proof. intros H. apply (f_equal length) in H. now rewrite !length_map in H. Qed.

Lemma flag_ge (s : Store) g : length s <= g -> flag s g = false.
Proof. intros H. unfold flag. now rewrite lookup_ge_None_2. Qed.

Lemma reset_all_eq (s1 s2 : Store) c :
  map selectors s1 = map selectors s2 ->
  reset_listContexts (seq 0 (length s2)) (mkState s1 c) =
  reset_listContexts (seq 0 (length s2)) (mkState s2 c).
Proof.
  intros H.
  assert (store (reset_listContexts (seq 0 (length s2)) (mkState s1 c)) =
          store (reset_listContexts (seq 0 (length s2)) (mkState s2 c))) as E.
  { apply store_eq.
    - now rewrite !selectors_reset.
    - intros g. rewrite !flag_reset. simpl.
      destruct (decide (g ∈ seq 0 (length s2))) as [|Hg]; [reflexivity|].
      assert (length s2 <= g).
      { destruct (le_lt_dec (length s2) g); [assumption|].
        contradict Hg. apply elem_of_seq. lia. }
      rewrite !flag_ge; [reflexivity|lia|].
      rewrite (length_selectors _ _ H). lia. }
  unfold reset_listContexts in *. simpl in *. now rewrite E.
Qed.

Lemma reset_idempotent lcs st :
  reset_listContexts lcs (reset_listContexts lcs st)
  = reset_listContexts lcs st.
Proof.
  assert (store (reset_listContexts lcs (reset_listContexts lcs st)) =
          store (reset_listContexts lcs st)) as E.
  { apply store_eq.
    - now rewrite !selectors_reset.
    - intros g. rewrite !flag_reset. now destruct (decide (g ∈ lcs)). }
  unfold reset_listContexts in *. simpl in *. now rewrite E.
Qed.

(** ** The callback of a batch *)

Lemma length_reset lcs st :
  length (store (reset_listContexts lcs st)) = length (store st).
Proof. apply length_selectors, selectors_reset. Qed.

Lemma length_set_alreadyMatched b g (s : Store) :
  length (set_alreadyMatched b g s) = length s.
Proof. apply length_selectors, selectors_set_alreadyMatched. Qed.

(** The calls selected by [P] come from the entries of the list context
    [g] only: there is one such call when an entry of [g] passes and [g] was
    not marked, and none otherwise. *)
Lemma run_finalize_count q (P : CssSelector * CallbackCtxt -> bool) (g : nat)
    es :
  forall b st r st',
    (forall e, In e es ->
       (P (call_of e) = true <-> listContext e = Some g)) ->
    g < length (store st) ->
    run_events notMatch q true (map Finalize es) (b, st) = Some (r, st') ->
    length (List.filter P (calls st')) =
    length (List.filter P (calls st))
    + (if flag (store st) g then 0
       else if existsb (fun e => P (call_of e) && passes notMatch q e) es
            then 1 else 0).
Proof.
  induction es as [|e es IH]; intros b st r st' HP Hg Hrun; simpl in Hrun.
  - inversion Hrun; subst. simpl. destruct (flag (store st') g); lia.
  - rewrite or_result_pair, finalize_spec, andb_true_r in Hrun.
    assert (HP' : forall e', In e' es ->
                    (P (call_of e') = true <-> listContext e' = Some g))
      by (intros e' He'; apply HP; now right).
    pose proof (HP e (or_introl eq_refl)) as HPe.
    cbn [existsb].
    destruct (not_yet_matched (listContext e) st) eqn:En;
      [destruct (passes notMatch q e) eqn:Ep|]; simpl in Hrun.
    + (* the entry passes and its callback is called *)
      apply IH in Hrun; [|exact HP'|].
      2:{ simpl. destruct (listContext e);
            [now rewrite length_set_alreadyMatched | exact Hg]. }
      rewrite Hrun. cbn [calls store]. rewrite List.filter_app, length_app.
      cbn [List.filter]. rewrite andb_true_r.
      destruct (P (call_of e)) eqn:EP.
      * destruct HPe as [HPe _]. specialize (HPe eq_refl).
        rewrite HPe in *. rewrite not_yet_matched_flag in En.
        rewrite flag_set_alreadyMatched.
        destruct (decide (g = g)); [|congruence].
        destruct (decide (g < length (store st))); [|lia].
        destruct (flag (store st) g); [discriminate|]. simpl. lia.
      * simpl. rewrite Nat.add_0_r.
        assert (Hflag : flag (match listContext e with
                              | Some g0 => set_alreadyMatched true g0 (store st)
                              | None => store st
                              end) g = flag (store st) g).
        { destruct (listContext e) as [g0|]; [|reflexivity].
          rewrite flag_set_alreadyMatched.
          destruct (decide (g0 = g)) as [->|]; [|reflexivity].
          destruct HPe as [_ HPe]. now specialize (HPe eq_refl). }
        now rewrite Hflag.
    + (* the entry is excluded by its negations *)
      apply IH in Hrun; [|exact HP'|exact Hg].
      rewrite Hrun. now rewrite andb_false_r.
    + (* the group of the entry is marked already *)
      apply IH in Hrun; [|exact HP'|exact Hg]. rewrite Hrun.
      destruct (flag (store st) g) eqn:Ef; [reflexivity|].
      destruct (P (call_of e)) eqn:EP; [|reflexivity].
      destruct HPe as [HPe _]. specialize (HPe eq_refl).
      rewrite HPe, not_yet_matched_flag, Ef in En. discriminate.
Qed.

Lemma registered_from_app n bs1 bs2 :
  registered_from n (bs1 ++ bs2) =
  registered_from n bs1 ++ registered_from (n + groups bs1) bs2.
Proof.
  revert n. induction bs1 as [|[sels ctx] bs1 IH]; intros n; simpl.
  - unfold groups. simpl. now rewrite Nat.add_0_r.
  - unfold groups. cbn [List.filter fst].
    destruct (1 <? length sels); rewrite IH, <- app_assoc; simpl;
      do 3 f_equal; unfold groups; lia.
Qed.

Lemma registered_from_range n bs e :
  In e (registered_from n bs) ->
  In (cbContext e) (map snd bs)
  /\ match listContext e with
     | Some g => n <= g < n + groups bs
     | None => True
     end.
Proof.
  revert n. induction bs as [|[sels ctx] bs IH]; intros n; simpl;
    [contradiction|].
  unfold groups. cbn [List.filter fst].
  destruct (1 <? length sels); intros H;
    apply in_app_iff in H as [H|H].
  - apply in_map_iff in H as (s & <- & _). simpl. split; [now left | lia].
  - apply IH in H as [Hc Hg]. split; [now right|].
    destruct (listContext e); [|exact I]. unfold groups in Hg. simpl. lia.
  - apply in_map_iff in H as (s & <- & _). simpl. split; [now left | exact I].
  - apply IH in H as [Hc Hg]. split; [now right|].
    destruct (listContext e); [|exact I]. unfold groups in Hg. lia.
Qed.


(** ** The selectors a query is matched by *)

Lemma In_probes_Partial k q :
  In (Partial k) (probes q) <-> In (Terminal k) (probes q).
Proof.
  unfold probes. rewrite !in_app_iff, !in_flat_map. split.
  - intros [H|[(c & Hc & H)|([n w] & Hnw & H)]].
    + left. destruct (element q) as [e|]; simpl in *; [|contradiction].
      destruct H as [H|[H|[]]]; inversion H. now left.
    + right; left. exists c. split; [exact Hc|]. simpl in *.
      destruct H as [H|[H|[]]]; inversion H. now left.
    + right; right. exists (n, w). split; [exact Hnw|].
      rewrite !in_app_iff in *. destruct (nonempty w); simpl in *.
      * destruct H as [[H|[]]|[[H|[]]|[[H|[]]|[H|[]]]]]; inversion H; subst;
          auto.
      * destruct H as [[]|[[H|[]]|[[]|[H|[]]]]]; inversion H; subst; auto.
  - intros [H|[(c & Hc & H)|([n w] & Hnw & H)]].
    + left. destruct (element q) as [e|]; simpl in *; [|contradiction].
      destruct H as [H|[H|[]]]; inversion H. right. now left.
    + right; left. exists c. split; [exact Hc|]. simpl in *.
      destruct H as [H|[H|[]]]; inversion H. right. now left.
    + right; right. exists (n, w). split; [exact Hnw|].
      rewrite !in_app_iff in *. destruct (nonempty w); simpl in *.
      * destruct H as [[H|[]]|[[H|[]]|[[H|[]]|[H|[]]]]]; inversion H; subst;
          auto 6.
      * destruct H as [[]|[[H|[]]|[[]|[H|[]]]]]; inversion H; subst; auto 6.
Qed.

Lemma existsb_eqb_In (c : string) (l : list string) :
  existsb (String.eqb c) l = true <-> In c l.
Proof.
  rewrite existsb_exists. split.
  - intros (x & Hx & E). apply String.eqb_eq in E. now subst.
  - intros H. exists c. split; [exact H | apply String.eqb_refl].
Qed.

Lemma has_attr_In (n : string) (l : list (string * string)) :
  existsb (fun a => String.eqb n (fst a)) l = true <-> exists w, In (n, w) l.
Proof.
  rewrite existsb_exists. split.
  - intros ([n' w] & Hx & E). apply String.eqb_eq in E. simpl in E. subst.
    eauto.
  - intros (w & H). exists (n, w). split; [exact H | apply String.eqb_refl].
Qed.

Lemma has_attr_value_In (n v : string) (l : list (string * string)) :
  existsb (fun a => String.eqb n (fst a) && String.eqb v (snd a)) l = true
  <-> In (n, v) l.
Proof.
  rewrite existsb_exists. split.
  - intros ([n' w] & Hx & E). apply andb_true_iff in E as [E1 E2].
    apply String.eqb_eq in E1, E2. simpl in *. now subst.
  - intros H. exists (n, v). split; [exact H|].
    simpl. now rewrite !String.eqb_refl.
Qed.

Lemma nonempty_false (w : string) : nonempty w = false <-> w = "".
Proof. destruct w; simpl; split; congruence. Qed.

Lemma carries_spec q k :
  carries q k = true <-> In (Terminal k) (probes q).
Proof.
  rewrite In_probes_Terminal. destruct k as [e|c|n v]; simpl.
  - rewrite bool_decide_eq_true. split.
    + intros H. left. eauto.
    + intros [(e' & H & E)|[(c & _ & E)|(n & w & _ & [E|[_ E]])]];
        inversion E; now subst.
  - rewrite existsb_eqb_In. split.
    + intros H. right; left. eauto.
    + intros [(e' & H & E)|[(c' & H & E)|(n & w & _ & [E|[_ E]])]];
        inversion E; now subst.
  - rewrite orb_true_iff, andb_true_iff, has_attr_value_In, has_attr_In,
      String.eqb_eq. split.
    + intros [H|[-> (w & H)]]; right; right.
      * exists n, v. auto.
      * exists n, w. split; [exact H|].
        destruct (nonempty w) eqn:E; [auto|].
        apply nonempty_false in E. subst. auto.
    + intros [(e' & H & E)|[(c' & H & E)|(n' & w & H & [E|[_ E]])]];
        inversion E; subst; eauto.
Qed.

Lemma wildcard_spec q k :
  carries_wildcard q k = true <->
  exists k', In (Terminal k') (probes q) /\ k = wildcard k'.
Proof.
  split.
  - destruct k as [e|c|n v]; simpl; intros H;
      apply andb_true_iff in H as [E H]; apply String.eqb_eq in E; subst.
    + destruct (element q) as [e|] eqn:Ee; [|discriminate].
      exists (KElement e). split; [|reflexivity].
      apply In_probes_Terminal. left. eauto.
    + destruct (classNames q) as [|c l] eqn:Ec; [discriminate|].
      exists (KClass c). split; [|reflexivity].
      apply In_probes_Terminal. right; left. exists c. rewrite Ec.
      split; [now left | reflexivity].
    + apply has_attr_In in H as (w & H).
      exists (KAttr n w). split; [|reflexivity].
      apply In_probes_Terminal. right; right. exists n, w. auto.
  - intros (k' & H & ->). apply In_probes_Terminal in H.
    destruct H as [(e' & H & ->)|[(c' & H & ->)|(n' & w & H & [->|[_ ->]])]];
      simpl.
    + now rewrite H.
    + now destruct (classNames q).
    + apply has_attr_In. eauto.
    + apply has_attr_In. eauto.
Qed.

Lemma hits_reaches p q : (0 <? hits p q) = reaches p q.
Proof.
  apply eq_true_iff_eq. rewrite Nat.ltb_lt.
  induction p as [|k p IH]; [simpl; split; [lia | discriminate]|].
  destruct p as [|k2 p].
  - rewrite hits_single. cbn [reaches].
    rewrite orb_true_iff, carries_spec, wildcard_spec. split.
    + intros (k' & Hin & [-> | ->]); [now left | right; eauto].
    + intros [H|(k' & Hin & ->)]; eauto.
  - cbn [reaches]. rewrite andb_true_iff, carries_spec, <- IH.
    cbn [hits]. rewrite list_sum_pos. split.
    + intros ([k'|k'] & Hin & H); [lia|].
      destruct (decide (k = k')) as [->|]; [|lia].
      split; [now apply In_probes_Partial | exact H].
    + intros [Hin H]. exists (Partial k).
      split; [now apply In_probes_Partial|].
      destruct (decide (k = k)); [exact H | congruence].
Qed.

Lemma selects_unfold s q :
  selects s q =
  reaches (path s) q
  && forallb (fun notSelector => negb (selects notSelector q))
       (notSelectors s).
Proof. now destruct s. Qed.

Lemma negb_existsb {A} (f : A -> bool) (l : list A) :
  negb (existsb f l) = forallb (fun x => negb (f x)) l.
Proof.
  induction l as [|a l IH]; simpl; [reflexivity|].
  now rewrite negb_orb, IH.
Qed.

Lemma forallb_map' {A B} (f : B -> bool) (g : A -> B) (l : list A) :
  forallb f (map g l) = forallb (fun x => f (g x)) l.
Proof. induction l as [|a l IH]; simpl; congruence. Qed.

Lemma forallb_ext_in' {A} (f g : A -> bool) (l : list A) :
  (forall x, In x l -> f x = g x) -> forallb f l = forallb g l.
Proof.
  induction l as [|a l IH]; simpl; intros H; [reflexivity|].
  rewrite (H a) by now left. f_equal. apply IH. intros x Hx. apply H.
  now right.
Qed.

Lemma existsb_registered (f : CssSelector -> bool) n batches :
  existsb (fun e => f (selector e)) (registered_from n batches)
  = existsb f (all_selectors batches).
Proof.
  revert n. induction batches as [|[sels ctx] bs IH]; intros n; simpl;
    [reflexivity|].
  destruct (1 <? length sels); rewrite !existsb_app, IH; f_equal;
    induction sels as [|s sels IHs]; simpl; congruence.
Qed.

Lemma passes_selects q : forall d s e,
  not_depth s <= d -> selector e = s ->
  passes notMatch q e
  = forallb (fun notSelector => negb (selects notSelector q))
      (notSelectors s).
Proof.
  induction d as [d IH] using lt_wf_ind. intros s e Hd <-.
  unfold passes. destruct (notSelectors (selector e)) as [|n0 ns] eqn:E;
    [reflexivity|].
  assert (Hdepth : forall n, In n (n0 :: ns) ->
                             not_depth n < not_depth (selector e)).
  { intros n Hn.
    rewrite (not_depth_notSelectors (selector e)) by (rewrite E; discriminate).
    rewrite E. pose proof (list_max_In not_depth _ _ Hn). lia. }
  rewrite notMatch_spec. cbn [default from_option id].
  rewrite negb_existsb. generalize dependent (n0 :: ns). clear n0 ns.
  intros l _ Hdepth. unfold registered. simpl registered_from.
  destruct (1 <? length l); rewrite app_nil_r, forallb_map';
    apply forallb_ext_in'.
  all: intros n Hn; cbn [selector]; f_equal;
    rewrite hits_reaches, (selects_unfold n); f_equal;
    apply (IH (not_depth n));
    [specialize (Hdepth n Hn); lia | lia | reflexivity].
Qed.

Lemma existsb_ext' {A} (f g : A -> bool) (l : list A) :
  (forall x, f x = g x) -> existsb f l = existsb g l.
Proof. intros H. induction l as [|a l IH]; simpl; congruence. Qed.

Lemma match_selects batches q cb st :
  exists st',
    SelectorMatcher_match (fst (build batches)) q cb st
    = Some (existsb (fun s => selects s q) (all_selectors batches), st').
Proof.
  destruct (build_match_result batches q cb st) as [st' H].
  exists st'. rewrite H. do 2 f_equal.
  rewrite <- (existsb_registered (fun s => selects s q) 0 batches).
  apply existsb_ext'. intros e.
  rewrite hits_reaches, (selects_unfold (selector e)). f_equal.
  now apply (passes_selects q (not_depth (selector e))).
Qed.

Lemma carries_le q q' k :
  query_le q q' -> carries q k = true -> carries q' k = true.
Proof.
  intros (He & Hc & Ha). destruct k as [e|c|n v]; simpl.
  - rewrite !bool_decide_eq_true. apply He.
  - rewrite !existsb_eqb_In. apply Hc.
  - rewrite !orb_true_iff, !andb_true_iff, !has_attr_value_In, !has_attr_In.
    intros [H|[E (w & H)]]; [left; auto | right; eauto].
Qed.

Lemma carries_wildcard_le q q' k :
  query_le q q' -> carries_wildcard q k = true -> carries_wildcard q' k = true.
Proof.
  intros (He & Hc & Ha). destruct k as [e|c|n v]; simpl;
    rewrite !andb_true_iff; intros [E H]; (split; [exact E|]).
  - destruct (element q) as [x|]; [|discriminate]. now rewrite (He x).
  - destruct (classNames q) as [|c0 l]; [discriminate|].
    specialize (Hc c0 (or_introl eq_refl)).
    now destruct (classNames q').
  - apply has_attr_In in H as (w & H). apply has_attr_In. eauto.
Qed.

Lemma reaches_le q q' p :
  query_le q q' -> reaches p q = true -> reaches p q' = true.
Proof.
  intros Hle. induction p as [|k p IH]; [discriminate|].
  destruct p as [|k2 p]; cbn [reaches].
  - rewrite !orb_true_iff.
    intros [H|H]; [left; now apply (carries_le q) |
                   right; now apply (carries_wildcard_le q)].
  - rewrite !andb_true_iff. intros [H1 H2].
    split; [now apply (carries_le q) | now apply IH].
Qed.

Lemma reaches_eq q q' p :
  query_le q q' -> query_le q' q -> reaches p q = reaches p q'.
Proof.
  intros H1 H2. apply eq_true_iff_eq.
  split; now apply reaches_le.
Qed.

Lemma selects_eq q q' :
  query_le q q' -> query_le q' q ->
  forall d s, not_depth s <= d -> selects s q = selects s q'.
Proof.
  intros H1 H2. induction d as [d IH] using lt_wf_ind. intros s Hd.
  rewrite !(selects_unfold s), (reaches_eq q q') by assumption. f_equal.
  apply forallb_ext_in'. intros n Hn. f_equal.
  assert (not_depth n < not_depth s).
  { rewrite (not_depth_notSelectors s) by (now destruct (notSelectors s)).
    pose proof (list_max_In not_depth _ _ Hn). lia. }
  apply (IH (not_depth n)); lia.
Qed.

Lemma selects_le q q' s :
  query_le q q' -> notSelectors s = [] ->
  selects s q = true -> selects s q' = true.
Proof.
  intros Hle Hn. rewrite !(selects_unfold s), Hn. simpl.
  rewrite !andb_true_r. now apply reaches_le.
Qed.

(** X2.  [match] on a matcher built by calls of [addSelectables] returns
    true exactly when one of the registered selectors selects the query:
    the query has its element, class names and attributes (the attribute
    with any value when the selector gives none, the last constraint also
    as the wildcard of its axis), and none of the negations of the selector
    selects the query.  So it is with and without a callback and in every
    state of the list contexts. *)
Theorem match_decides_selection
    (batches : list Batch) (q : CssSelector) (cb : bool) (st : State) :
  exists r st',
    SelectorMatcher_match (fst (build batches)) q cb st = Some (r, st')
    /\ (r = true <->
        exists s, In s (all_selectors batches) /\ selects s q = true)
    /\ (forall s,
          selects s q = true <->
          reaches (path s) q = true
          /\ forall n, In n (notSelectors s) -> selects n q = false).
Proof.
  destruct (match_selects batches q cb st) as [st' H].
  exists (existsb (fun s => selects s q) (all_selectors batches)), st'.
  split; [exact H|]. split.
  - apply existsb_exists.
  - intros s. rewrite (selects_unfold s), andb_true_iff, forallb_forall.
    split; intros [Hr Hn]; (split; [exact Hr|]); intros n Hin.
    + apply negb_true_iff. now apply Hn.
    + apply negb_true_iff. now apply Hn.
Qed.

(** X3.  Registrations compose: the boolean [match] returns on a matcher
    built from the batches [bs1] followed by [bs2] is the disjunction of
    the booleans of the matchers built from [bs1] and from [bs2]; so one
    more call of [addSelectables] never turns a match into a miss. *)
Theorem match_of_appended_batches
    (bs1 bs2 : list Batch) (q : CssSelector) (cb : bool) (st : State) :
  exists r1 r2 st1 st2 st',
    SelectorMatcher_match (fst (build bs1)) q cb st = Some (r1, st1)
    /\ SelectorMatcher_match (fst (build bs2)) q cb st = Some (r2, st2)
    /\ SelectorMatcher_match (fst (build (bs1 ++ bs2))) q cb st
       = Some (r1 || r2, st').
Proof.
  destruct (match_selects bs1 q cb st) as [st1 H1].
  destruct (match_selects bs2 q cb st) as [st2 H2].
  destruct (match_selects (bs1 ++ bs2) q cb st) as [st' H].
  eexists _, _, st1, st2, st'. split; [exact H1|]. split; [exact H2|].
  rewrite H. unfold all_selectors. now rewrite flat_map_app, existsb_app.
Qed.

(** X4.  The boolean [match] returns depends on the registered selectors
    as a set only: not on the order of the calls of [addSelectables], not
    on how the selectors are grouped into batches, not on the callback
    contexts, and not on a selector being registered more than once. *)
Theorem match_of_same_selectors
    (bs bs' : list Batch) (q : CssSelector) (cb : bool) (st : State) :
  (forall s, In s (all_selectors bs) <-> In s (all_selectors bs')) ->
  fst <$> SelectorMatcher_match (fst (build bs)) q cb st
  = fst <$> SelectorMatcher_match (fst (build bs')) q cb st.
Proof.
  intros Hsame.
  destruct (match_selects bs q cb st) as [st1 ->].
  destruct (match_selects bs' q cb st) as [st2 ->]. simpl. f_equal.
  apply eq_true_iff_eq. rewrite !existsb_exists.
  split; intros (s & Hs & H); exists s; (split; [now apply Hsame | exact H]).
Qed.

Lemma match_of_same_selectors_witness :
  let a := mkCssSelector None ["a"] [] [] in
  let b := mkCssSelector (Some "b") [] [] [] in
  let q := mkCssSelector (Some "b") ["c"] [] [] in
  fst <$> SelectorMatcher_match (fst (build [([a; b], Some 1)])) q true
            (mkState [] [])
  = fst <$> SelectorMatcher_match
              (fst (build [([b], Some 2); ([a], Some 3); ([b], None)])) q true
              (mkState [] []).
Proof.
  intros a b q.
  apply (match_of_same_selectors [([a; b], Some 1)]
           [([b], Some 2); ([a], Some 3); ([b], None)]).
  intros s. simpl. tauto.
Defined.

(** X5.  [match] reads the query as a set: two queries with the same
    element, the same class names and the same attribute pairs, in any
    order and any number of times, get the same boolean.  The negations of
    the query are never looked at. *)
Theorem match_reads_query_as_set
    (batches : list Batch) (q q' : CssSelector) (cb : bool) (st : State) :
  element q = element q' ->
  (forall c, In c (classNames q) <-> In c (classNames q')) ->
  (forall a, In a (attrs q) <-> In a (attrs q')) ->
  fst <$> SelectorMatcher_match (fst (build batches)) q cb st
  = fst <$> SelectorMatcher_match (fst (build batches)) q' cb st.
Proof.
  intros He Hc Ha.
  assert (H1 : query_le q q').
  { split; [now rewrite He|]. split; intros x; [apply Hc | apply Ha]. }
  assert (H2 : query_le q' q).
  { split; [now rewrite He|]. split; intros x; [apply Hc | apply Ha]. }
  destruct (match_selects batches q cb st) as [st1 ->].
  destruct (match_selects batches q' cb st) as [st2 ->]. simpl. f_equal.
  apply existsb_ext'. intros s.
  now apply (selects_eq q q' H1 H2 (not_depth s)).
Qed.

Lemma match_reads_query_as_set_witness :
  let s := mkCssSelector (Some "a") ["x"; "y"] [("k", "v")]
             [mkCssSelector None ["z"] [] []] in
  let q := mkCssSelector (Some "a") ["y"; "x"] [("k", "v"); ("l", "")] [] in
  let q' := mkCssSelector (Some "a") ["x"; "y"; "x"] [("l", ""); ("k", "v")]
              [mkCssSelector None ["x"] [] []] in
  fst <$> SelectorMatcher_match (fst (build [([s], None)])) q false
            (mkState [] [])
  = fst <$> SelectorMatcher_match (fst (build [([s], None)])) q' false
              (mkState [] []).
Proof.
  intros s q q'.
  apply (match_reads_query_as_set [([s], None)] q q').
  - reflexivity.
  - intros c. simpl. tauto.
  - intros a. simpl. tauto.
Defined.

(** X6.  Selectors without negations are matched by containment: when no
    registered selector has a negation and [match] returns true for a
    query, it returns true for every query that has the same element (or
    any, when the first has none), at least the same class names and at
    least the same attribute pairs. *)
Theorem match_is_monotone_without_negations
    (batches : list Batch) (q q' : CssSelector) (cb : bool) (st : State) :
  (forall s, In s (all_selectors batches) -> notSelectors s = []) ->
  query_le q q' ->
  fst <$> SelectorMatcher_match (fst (build batches)) q cb st = Some true ->
  fst <$> SelectorMatcher_match (fst (build batches)) q' cb st = Some true.
Proof.
  intros Hn Hle.
  destruct (match_selects batches q cb st) as [st1 ->].
  destruct (match_selects batches q' cb st) as [st2 ->]. simpl.
  intros H. injection H as H'. f_equal.
  apply existsb_exists in H' as (s & Hs & H').
  apply existsb_exists. exists s. split; [exact Hs|].
  apply (selects_le q); auto.
Qed.

Lemma match_is_monotone_without_negations_witness :
  let s := mkCssSelector (Some "a") ["x"] [("k", "")] [] in
  let q := mkCssSelector (Some "a") ["x"] [("k", "v")] [] in
  let q' := mkCssSelector (Some "a") ["w"; "x"] [("k", "v"); ("l", "")] [] in
  fst <$> SelectorMatcher_match (fst (build [([s], None)])) q' true
            (mkState [] [])
  = Some true.
Proof.
  intros s q q'.
  apply (match_is_monotone_without_negations [([s], None)] q q').
  - intros s' [<-|[]]. reflexivity.
  - split; [|split].
    + intros e H. exact H.
    + intros c. simpl. tauto.
    + intros a. simpl. tauto.
  - vm_compute. reflexivity.
Defined.

(** ** The calls of the callback *)

Lemma run_finalize_calls q (cs : list (CssSelector * CallbackCtxt)) es0 :
  forall es b st new,
    incl es es0 ->
    (b = true <-> new <> []) ->
    (forall e g, In e es0 -> listContext e = Some g ->
                 flag (store st) g = true -> new <> []) ->
    calls st = cs ++ new ->
    exists r st' new',
      run_events notMatch q true (map Finalize es) (b, st) = Some (r, st')
      /\ calls st' = cs ++ new'
      /\ (r = true <-> new' <> [])
      /\ (forall c, In c new' ->
            In c new
            \/ exists e, In e es /\ c = call_of e
                         /\ passes notMatch q e = true).
Proof.
  induction es as [|e es IH]; intros b st new Hincl Hb Hflag Hcalls.
  - exists b, st, new. simpl. auto.
  - simpl. rewrite or_result_pair, finalize_spec.
    assert (He0 : In e es0) by (apply Hincl; now left).
    assert (Hincl' : incl es es0) by (intros x Hx; apply Hincl; now right).
    destruct (not_yet_matched (listContext e) st) eqn:Hnym.
    + destruct (passes notMatch q e) eqn:Hp; simpl.
      * destruct (IH true
                    (mkState (match listContext e with
                              | Some g => set_alreadyMatched true g (store st)
                              | None => store st
                              end) (calls st ++ [call_of e]))
                    (new ++ [call_of e]))
          as (r & st' & new' & Hrun & Hc & Hr & Hnew); auto.
        { split; [intros _|reflexivity]. now destruct new. }
        { intros _ _ _ _ _. now destruct new. }
        { simpl. now rewrite Hcalls, app_assoc. }
        exists r, st', new'. repeat split; try tauto.
        intros c Hin. destruct (Hnew c Hin) as [H|(e' & He' & H)].
        -- apply in_app_iff in H as [H|[<-|[]]]; [now left|].
           right. exists e. split; [now left | auto].
        -- right. exists e'. split; [now right | exact H].
      * destruct (IH b st new) as (r & st' & new' & Hrun & Hc & Hr & Hnew);
          auto.
        exists r, st', new'. repeat split; try tauto.
        intros c Hin. destruct (Hnew c Hin) as [H|(e' & He' & H)];
          [now left|]. right. exists e'. split; [now right | exact H].
    + simpl.
      assert (Hne : new <> []).
      { destruct (listContext e) as [g|] eqn:Hg; [|discriminate].
        apply (Hflag e g He0 Hg). rewrite not_yet_matched_flag in Hnym.
        now apply negb_false_iff in Hnym. }
      destruct (IH true st new) as (r & st' & new' & Hrun & Hc & Hr & Hnew);
        auto.
      { tauto. }
      exists r, st', new'. repeat split; try tauto.
      intros c Hin. destruct (Hnew c Hin) as [H|(e' & He' & H)];
        [now left|]. right. exists e'. split; [now right | exact H].
Qed.

Lemma run_finalize_silent q es : forall b st,
  exists r,
    run_events notMatch q false (map Finalize es) (b, st) = Some (r, st).
Proof.
  induction es as [|e es IH]; intros b st; simpl; [eauto|].
  rewrite or_result_pair, finalize_spec, andb_false_r.
  destruct (not_yet_matched (listContext e) st); simpl; apply IH.
Qed.

Lemma registered_from_In n bs e :
  In e (registered_from n bs) ->
  exists sels, In (sels, cbContext e) bs /\ In (selector e) sels.
Proof.
  revert n. induction bs as [|[sels ctx] bs IH]; intros n; simpl;
    [contradiction|].
  destruct (1 <? length sels); rewrite in_app_iff, in_map_iff;
    (intros [(s & <- & Hs)|H];
     [exists sels; split; [now left | exact Hs]
     |destruct (IH _ H) as (sels' & H1 & H2); exists sels'; split;
      [now right | exact H2]]).
Qed.

Lemma passes_reaches_selects q e :
  0 < hits (path (selector e)) q -> passes notMatch q e = true ->
  selects (selector e) q = true.
Proof.
  intros Hh Hp. rewrite selects_unfold, <- hits_reaches.
  rewrite <- (passes_selects q (not_depth (selector e)) (selector e) e)
    by (lia || reflexivity).
  rewrite Hp, andb_true_r. now apply Nat.ltb_lt.
Qed.

(** X7.  What [match] does with the callback, on a matcher built by calls
    of [addSelectables].  Every call it makes has as arguments a registered
    selector that selects the query and the callback context of the batch
    of that selector; it makes at least one call exactly when it returns
    true; and without a callback it makes none. *)
Theorem match_calls_the_callback
    (batches : list Batch) (q : CssSelector) (st : State) :
  (exists r st' new,
      SelectorMatcher_match (fst (build batches)) q true st = Some (r, st')
      /\ calls st' = calls st ++ new
      /\ (r = true <-> new <> [])
      /\ (forall s ctx, In (s, ctx) new ->
            selects s q = true
            /\ exists sels, In (sels, ctx) batches /\ In s sels))
  /\ (exists r st',
        SelectorMatcher_match (fst (build batches)) q false st = Some (r, st')
        /\ calls st' = calls st).
Proof.
  destruct (build_match batches q) as (es & Hrun & Hes & Hreg). split.
  - destruct (run_finalize_calls q (calls st) es es false
                (reset_listContexts (seq 0 (length (snd (build batches)))) st)
                [])
      as (r & st' & new & H & Hc & Hr & Hnew).
    + intros e He. exact He.
    + split; [discriminate | congruence].
    + intros e g He Hg Hf. exfalso.
      apply Hes in He as [He _]. rewrite Forall_forall in Hreg.
      specialize (Hreg e (proj2 (list_elem_of_In _ _) He)). rewrite Hg in Hreg.
      rewrite flag_reset in Hf.
      destruct (decide (g ∈ seq 0 (length (snd (build batches)))))
        as [|Hn]; [discriminate|].
      apply Hn, elem_of_seq. lia.
    + simpl. now rewrite app_nil_r.
    + exists r, st', new. rewrite Hrun. split; [exact H|].
      split; [exact Hc|]. split; [exact Hr|].
      intros s ctx Hin. destruct (Hnew _ Hin) as [[]|(e & He & Hcall & Hp)].
      apply Hes in He as [He Hh]. inversion Hcall; subst. split.
      * now apply passes_reaches_selects.
      * now apply (registered_from_In 0).
  - destruct (run_finalize_silent q es false
                (reset_listContexts (seq 0 (length (snd (build batches)))) st))
      as [r H].
    eexists r, _. rewrite Hrun. split; [exact H | reflexivity].
Qed.

(** ** A selector registered alone *)

Lemma run_repeat e q cb n : forall b st,
  listContext e = None ->
  run_events notMatch q cb (repeat (Finalize e) n) (b, st)
  = Some (b || ((0 <? n) && passes notMatch q e),
          if passes notMatch q e && cb
          then mkState (store st) (calls st ++ repeat (call_of e) n)
          else st).
Proof.
  induction n as [|n IH]; intros b st Hlc.
  - simpl. rewrite orb_false_r, app_nil_r. destruct st.
    now destruct (passes notMatch q e && cb).
  - cbn [repeat run_events]. rewrite or_result_pair, finalize_spec, Hlc.
    cbn [not_yet_matched].
    destruct (passes notMatch q e) eqn:Hp; destruct cb;
      cbn [andb option_bind mbind]; simpl; rewrite IH by exact Hlc;
      rewrite ?Hp; simpl; rewrite ?andb_false_r, ?orb_false_r, ?orb_true_r;
      try reflexivity.
    now rewrite <- app_assoc.
Qed.

Lemma single_registration s ctx q cb st :
  SelectorMatcher_match (fst (build [([s], ctx)])) q cb st
  = run_events notMatch q cb
      (repeat (Finalize (mkSelectorContext s ctx None)) (hits (path s) q))
      (false, st).
Proof.
  change (fst (build [([s], ctx)]))
    with (_addSelectable s ctx None new_SelectorMatcher).
  rewrite SelectorMatcher_match_run, trace_probes.
  pose proof (build_spec [([s], ctx)] q) as H.
  change (build [([s], ctx)])
    with (_addSelectable s ctx None new_SelectorMatcher,
          @nil SelectorListContext) in H.
  destruct H as (_ & Hl & _). rewrite Hl. cbn [length seq run_events fst snd].
  rewrite reset_listContexts_nil, run_events_effective.
  pose proof (inserts_hits _ _ _ (_addSelectable_inserts s ctx None) q) as Hp.
  apply Permutation_repeat in Hp. now rewrite Hp.
Qed.

Lemma list_sum_zero {A} (f : A -> nat) (l : list A) :
  (forall x, In x l -> f x = 0) -> list_sum (map f l) = 0.
Proof.
  induction l as [|a l IH]; simpl; intros H; [reflexivity|].
  rewrite (H a) by now left. apply IH. intros x Hx. apply H. now right.
Qed.

Ltac decide_keys :=
  cbn [wildcard];
  repeat match goal with
         | |- context [decide (?a = ?b)] =>
             destruct (decide (a = b)) as [?EQ|?NE];
             try discriminate; try congruence
         end;
  try reflexivity.

Lemma hits_element e q :
  hits [KElement e] q
  = (if bool_decide (element q = Some e) then 1 else 0)
    + (if String.eqb e "*"
          && match element q with Some _ => true | None => false end
       then 1 else 0).
Proof.
  cbn [hits]. unfold probes. rewrite !map_app, !list_sum_app.
  rewrite (list_sum_zero _ (flat_map _ (classNames q))).
  2:{ intros pr Hpr. apply in_flat_map in Hpr as (c & _ & [<-|[<-|[]]]);
        [|reflexivity]. decide_keys. }
  rewrite (list_sum_zero _ (flat_map _ (attrs q))).
  2:{ intros pr Hpr. apply in_flat_map in Hpr as ([n w] & _ & Hpr).
      rewrite !in_app_iff in Hpr. destruct (nonempty w); simpl in Hpr;
        repeat (destruct Hpr as [Hpr|Hpr]; try contradiction); subst;
        try reflexivity; decide_keys. }
  rewrite !Nat.add_0_r. destruct (element q) as [x|]; simpl.
  - rewrite andb_true_r. case_bool_decide as Hx.
    + inversion Hx; subst. destruct (decide (KElement e = KElement e));
        [|congruence].
      destruct (String.eqb e "*") eqn:E.
      * apply String.eqb_eq in E. subst. now decide_keys.
      * apply String.eqb_neq in E. decide_keys.
    + destruct (decide (KElement e = KElement x)) as [EQ|];
        [inversion EQ; subst; now contradiction Hx|].
      destruct (String.eqb e "*") eqn:E.
      * apply String.eqb_eq in E. subst. now decide_keys.
      * apply String.eqb_neq in E. decide_keys.
  - now rewrite andb_false_r.
Qed.

Lemma hits_class k q :
  hits [KClass k] q
  = count_occ string_dec (classNames q) k
    + (if String.eqb k "*" then length (classNames q) else 0).
Proof.
  cbn [hits]. unfold probes. rewrite !map_app, !list_sum_app.
  rewrite (list_sum_zero _ (match element q with Some _ => _ | None => _ end)).
  2:{ intros pr Hpr. destruct (element q); [|contradiction].
      destruct Hpr as [<-|[<-|[]]]; [|reflexivity]. decide_keys. }
  rewrite (list_sum_zero _ (flat_map _ (attrs q))).
  2:{ intros pr Hpr. apply in_flat_map in Hpr as ([n w] & _ & Hpr).
      rewrite !in_app_iff in Hpr. destruct (nonempty w); simpl in Hpr;
        repeat (destruct Hpr as [Hpr|Hpr]; try contradiction); subst;
        try reflexivity; decide_keys. }
  rewrite Nat.add_0_r. simpl.
  induction (classNames q) as [|c l IH]; simpl.
  - now destruct (String.eqb k "*").
  - rewrite IH. clear IH.
    destruct (string_dec c k) as [->|Hck].
    + destruct (decide (KClass k = KClass k)); [|congruence].
      destruct (String.eqb k "*") eqn:E.
      * apply String.eqb_eq in E. subst. decide_keys; lia.
      * apply String.eqb_neq in E. decide_keys; lia.
    + destruct (decide (KClass k = KClass c)); [congruence|].
      destruct (String.eqb k "*") eqn:E.
      * apply String.eqb_eq in E. subst. decide_keys; lia.
      * apply String.eqb_neq in E. decide_keys; lia.
Qed.

(** X8.  A batch of one selector gets no list context, so nothing keeps
    the callback from being called again: on a matcher on which the
    selector of the one class name [k] alone was registered, [match] calls
    the callback once for every time [k] stands in the class names of the
    query (and, should [k] be the wildcard, once more for every class name
    of the query), and returns true when that is at least once.  The store
    of the list contexts is left as it is. *)
Theorem class_registered_alone
    (k : string) (ctx : CallbackCtxt) (q : CssSelector) (st : State) :
  let s := mkCssSelector None [k] [] [] in
  let n := count_occ string_dec (classNames q) k
           + (if String.eqb k "*" then length (classNames q) else 0) in
  SelectorMatcher_match (fst (build [([s], ctx)])) q true st
  = Some (0 <? n, mkState (store st) (calls st ++ repeat (s, ctx) n)).
Proof.
  intros s n. rewrite single_registration, run_repeat by reflexivity.
  change (path s) with [KClass k]. rewrite hits_class. fold n.
  change (passes notMatch q (mkSelectorContext s ctx None)) with true.
  now rewrite andb_true_r.
Qed.

(** X9.  On a matcher on which the selector of the element [e] alone was
    registered, [match] finds the entry when the element of the query is
    [e], and once more when [e] is the wildcard and the query has an
    element at all: a query without element is not matched by the wildcard,
    and a query whose element is the wildcard itself gets two calls of the
    callback for the one registration. *)
Theorem element_registered_alone
    (e : string) (ctx : CallbackCtxt) (q : CssSelector) (st : State) :
  nonempty e = true ->
  let s := mkCssSelector (Some e) [] [] [] in
  let n := (if bool_decide (element q = Some e) then 1 else 0)
           + (if String.eqb e "*"
                 && match element q with Some _ => true | None => false end
              then 1 else 0) in
  SelectorMatcher_match (fst (build [([s], ctx)])) q true st
  = Some (0 <? n, mkState (store st) (calls st ++ repeat (s, ctx) n)).
Proof.
  intros He s n. rewrite single_registration, run_repeat by reflexivity.
  assert (Hpath : path s = [KElement e]) by (unfold path; simpl; now rewrite He).
  rewrite Hpath, hits_element. fold n.
  change (passes notMatch q (mkSelectorContext s ctx None)) with true.
  now rewrite andb_true_r.
Qed.

Lemma element_registered_alone_witness :
  let star := mkCssSelector (Some "*") [] [] [] in
  SelectorMatcher_match (fst (build [([star], Some 7)]))
    (mkCssSelector (Some "*") [] [] [mkCssSelector None ["y"] [] []])
    true (mkState [] [])
  = Some (true, mkState [] [(star, Some 7); (star, Some 7)])
  /\ SelectorMatcher_match (fst (build [([star], Some 7)]))
       (mkCssSelector None ["y"] [] []) true (mkState [] [])
     = Some (false, mkState [] []).
Proof.
  intros star. split.
  - apply (element_registered_alone "*" (Some 7)
             (mkCssSelector (Some "*") [] [] [mkCssSelector None ["y"] [] []])
             (mkState [] [])).
    reflexivity.
  - apply (element_registered_alone "*" (Some 7)
             (mkCssSelector None ["y"] [] []) (mkState [] [])).
    reflexivity.
Defined.

(** ** What is registered is found *)

Lemma carries_path s : Forall (fun k => carries s k = true) (path s).
Proof.
  unfold path. rewrite !Forall_app. split; [|split].
  - destruct (element s) as [e|] eqn:E; [|constructor].
    destruct (nonempty e); constructor; [|constructor].
    simpl. rewrite E. now apply bool_decide_eq_true.
  - rewrite Forall_map. apply Forall_forall. intros c Hc.
    simpl. apply existsb_eqb_In. now apply list_elem_of_In.
  - rewrite Forall_map. apply Forall_forall. intros [n v] Hnv.
    simpl. apply orb_true_iff. left.
    apply has_attr_value_In. now apply list_elem_of_In.
Qed.

Lemma reaches_all p q :
  p <> [] -> Forall (fun k => carries q k = true) p -> reaches p q = true.
Proof.
  intros Hne H. induction H as [|k p Hk Hp IH]; [contradiction|].
  destruct p as [|k2 p]; cbn [reaches].
  - now rewrite Hk.
  - rewrite Hk. apply IH. discriminate.
Qed.

(** X10.  What is registered is found: a selector without negations that
    has at least one constraint, once registered, is matched by the query
    that is this selector itself. *)
Theorem registered_selector_matches_itself
    (batches : list Batch) (s : CssSelector) (cb : bool) (st : State) :
  In s (all_selectors batches) -> notSelectors s = [] -> path s <> [] ->
  fst <$> SelectorMatcher_match (fst (build batches)) s cb st = Some true.
Proof.
  intros Hin Hn Hp. destruct (match_selects batches s cb st) as [st' ->].
  simpl. f_equal. apply existsb_exists. exists s. split; [exact Hin|].
  rewrite selects_unfold, Hn. simpl. rewrite andb_true_r.
  apply reaches_all; [exact Hp | apply carries_path].
Qed.

Lemma registered_selector_matches_itself_witness :
  let s := mkCssSelector (Some "a") ["b"; "c"] [("d", ""); ("e", "f")] [] in
  fst <$> SelectorMatcher_match
            (fst (build [([mkCssSelector None ["b"] [("g", "")] []; s],
                          Some 1)]))
            s true (mkState [] [])
  = Some true.
Proof.
  intros s.
  apply (registered_selector_matches_itself
           [([mkCssSelector None ["b"] [("g", "")] []; s], Some 1)] s).
  - simpl. auto.
  - reflexivity.
  - discriminate.
Defined.

(** ** The list contexts of an index *)

Lemma fold_add_batch_store bs : forall m (s : Store),
  snd (fold_left add_batch bs (m, s))
  = s ++ map (fun b : Batch => mkSelectorListContext (fst b) false)
           (List.filter (fun b : Batch => 1 <? length (fst b)) bs)
  /\ _listContexts (fst (fold_left add_batch bs (m, s)))
     = _listContexts m ++ seq (length s) (groups bs).
Proof.
  induction bs as [|[sels ctx] bs IH]; intros m s.
  - simpl. now rewrite !app_nil_r.
  - cbn [fold_left]. unfold add_batch at 2 4, addSelectables, groups.
    cbn [fst snd List.filter].
    destruct (1 <? length sels) eqn:Hbig.
    + specialize (IH
        (fold_left (fun matcher s0 =>
                      _addSelectable s0 ctx (Some (length s)) matcher)
                   sels (push_listContext (length s) m))
        (s ++ [mkSelectorListContext sels false])).
      destruct IH as [IH1 IH2]. split.
      * rewrite IH1. simpl. now rewrite <- app_assoc.
      * rewrite IH2, fold_addSelectable_listContexts. simpl.
        rewrite length_app. simpl. rewrite <- app_assoc. simpl.
        unfold groups. now replace (length s + 1) with (S (length s)) by lia.
    + specialize (IH
        (fold_left (fun matcher s0 => _addSelectable s0 ctx None matcher)
                   sels m) s).
      destruct IH as [IH1 IH2]. split; [exact IH1|].
      now rewrite IH2, fold_addSelectable_listContexts.
Qed.

(** X11.  [addSelectables] makes one [SelectorListContext] for every batch
    of more than one selector and none for another batch: the index built
    by a sequence of calls has the list contexts of these batches, in the
    order of the calls, each with the selectors of its batch and not yet
    matched, and [_listContexts] of the matcher refers to all of them. *)
Theorem build_list_contexts (batches : list Batch) :
  snd (build batches)
  = map (fun b : Batch => mkSelectorListContext (fst b) false)
      (List.filter (fun b : Batch => 1 <? length (fst b)) batches)
  /\ _listContexts (fst (build batches)) = seq 0 (groups batches).
Proof.
  rewrite build_unfold.
  destruct (fold_add_batch_store batches new_SelectorMatcher []) as [H1 H2].
  split; [exact H1 | exact H2].
Qed.

(** ** The callback of a batch *)

Lemma selects_hits_passes q e :
  selects (selector e) q
  = (0 <? hits (path (selector e)) q) && passes notMatch q e.
Proof.
  rewrite hits_reaches, selects_unfold. f_equal. symmetry.
  now apply (passes_selects q (not_depth (selector e))).
Qed.

(** X12.  A batch of more than one selector, registered with a callback
    context of its own among other batches, gets at most one call of the
    callback from a call of [match], whatever the number of its selectors
    that select the query: one call when at least one of them selects the
    query, none when none does.  The state must hold the list contexts of
    the index. *)
Theorem batch_callback_at_most_once
    (before after : list Batch) (sels : list CssSelector)
    (ctx : CallbackCtxt) (q : CssSelector) (st : State) :
  1 < length sels ->
  (forall b, In b (before ++ after) -> snd b <> ctx) ->
  length (store st)
  = length (snd (build (before ++ (sels, ctx) :: after))) ->
  exists r st',
    SelectorMatcher_match
      (fst (build (before ++ (sels, ctx) :: after))) q true st
    = Some (r, st')
    /\ length (calls_with ctx (calls st'))
       = length (calls_with ctx (calls st))
         + (if existsb (fun s => selects s q) sels then 1 else 0).
Proof.
  intros Hbig Hctx Hlen.
  set (batches := before ++ (sels, ctx) :: after) in *.
  set (g := groups before).
  assert (Hreg : registered batches =
                 registered_from 0 before
                 ++ map (fun s => mkSelectorContext s ctx (Some g)) sels
                 ++ registered_from (S g) after).
  { unfold registered, batches. rewrite registered_from_app. simpl.
    apply Nat.ltb_lt in Hbig. now rewrite Hbig. }
  destruct (build_match batches q) as (es & Hrun & Hes & Hvalid).
  assert (Hg : g < length (snd (build batches))).
  { destruct sels as [|s0 sels0]; [simpl in Hbig; lia|].
    rewrite Forall_forall in Hvalid.
    specialize (Hvalid (mkSelectorContext s0 ctx (Some g))). apply Hvalid.
    apply list_elem_of_In. rewrite Hreg. apply in_app_iff. right.
    apply in_app_iff. left. now left. }
  assert (HP : forall e, In e es ->
                 (bool_decide (snd (call_of e) = ctx) = true
                  <-> listContext e = Some g)).
  { intros e He. apply Hes in He as [He _]. rewrite Hreg in He.
    rewrite bool_decide_eq_true. simpl.
    apply in_app_iff in He as [He|He];
      [|apply in_app_iff in He as [He|He]].
    - apply registered_from_range in He as [Hc Hr]. split.
      + intros Hx. exfalso. apply in_map_iff in Hc as (b & Hb & Hin').
        apply (Hctx b); [|congruence].
        apply in_app_iff. now left.
      + intros Hx. rewrite Hx in Hr. fold g in Hr. lia.
    - apply in_map_iff in He as (s & <- & _). simpl. tauto.
    - apply registered_from_range in He as [Hc Hr]. split.
      + intros Hx. exfalso. apply in_map_iff in Hc as (b & Hb & Hin').
        apply (Hctx b); [|congruence].
        apply in_app_iff. now right.
      + intros Hx. rewrite Hx in Hr. lia. }
  set (st0 := reset_listContexts (seq 0 (length (snd (build batches)))) st)
    in *.
  destruct (run_finalize_result q true es false st0) as [st' Hst'].
  { intros e He Hn. unfold st0 in Hn.
    rewrite reset_all_not_yet_matched in Hn; [discriminate|].
    apply Hes in He as [He _]. rewrite Forall_forall in Hvalid.
    apply Hvalid. now apply list_elem_of_In. }
  eexists _, st'. rewrite Hrun. fold st0. split; [exact Hst'|].
  assert (Hg0 : g < length (store st0)).
  { unfold st0. rewrite length_reset. lia. }
  assert (Hf : flag (store st0) g = false).
  { unfold st0. rewrite flag_reset.
    destruct (decide (g ∈ seq 0 (length (snd (build batches)))))
      as [|Hn]; [reflexivity|].
    exfalso. apply Hn. apply elem_of_seq. lia. }
  assert (Hex : existsb (fun e => bool_decide (snd (call_of e) = ctx)
                                  && passes notMatch q e) es
                = existsb (fun s => selects s q) sels).
  { apply eq_true_iff_eq. rewrite !existsb_exists. split.
    - intros (e & He & H). apply andb_true_iff in H as [Hc Hp].
      apply (HP e He) in Hc. apply Hes in He as [He Hh].
      exists (selector e). split.
      + rewrite Hreg in He.
        apply in_app_iff in He as [He|He];
          [|apply in_app_iff in He as [He|He]].
        * apply registered_from_range in He as [_ Hr].
          rewrite Hc in Hr. fold g in Hr. lia.
        * apply in_map_iff in He as (s & <- & Hs). exact Hs.
        * apply registered_from_range in He as [_ Hr].
          rewrite Hc in Hr. lia.
      + rewrite selects_hits_passes, Hp, andb_true_r. now apply Nat.ltb_lt.
    - intros (s & Hs & H).
      set (e := mkSelectorContext s ctx (Some g)).
      change s with (selector e) in H. rewrite selects_hits_passes in H.
      apply andb_true_iff in H as [Hh Hp]. exists e. split.
      + apply Hes. split; [|now apply Nat.ltb_lt].
        rewrite Hreg. apply in_app_iff. right. apply in_app_iff. left.
        apply in_map_iff. exists s. split; [reflexivity | exact Hs].
      + rewrite Hp, andb_true_r. now apply bool_decide_eq_true. }
  unfold calls_with.
  rewrite (run_finalize_count q (fun c => bool_decide (snd c = ctx)) g es
             false st0 _ st' HP Hg0 Hst').
  rewrite Hf, Hex. unfold st0. now rewrite calls_reset.
Qed.

Lemma batch_callback_at_most_once_witness :
  let a := mkCssSelector None ["a"] [] [] in
  let b := mkCssSelector None ["b"] [] [] in
  let c := mkCssSelector None ["c"] [] [] in
  exists r st',
    SelectorMatcher_match
      (fst (build ([([c], Some 1)] ++ ([a; b; c], Some 0) :: [])))
      (mkCssSelector None ["a"; "b"; "c"] [] []) true
      (mkState [mkSelectorListContext [] true] [])
    = Some (r, st')
    /\ length (calls_with (Some 0) (calls st')) = 0 + 1.
Proof.
  intros a b c.
  apply (batch_callback_at_most_once [([c], Some 1)] [] [a; b; c] (Some 0)
           (mkCssSelector None ["a"; "b"; "c"] [] [])
           (mkState [mkSelectorListContext [] true] [])).
  - simpl. lia.
  - intros x [<-|[]]. discriminate.
  - reflexivity.
Defined.

(** ** [escapeAttribute] and [unescapeAttribute] *)

Lemma escapeAttribute_cons c s :
  escapeAttribute (String c s)
  = (if Ascii.eqb c Chars.backslash
     then String Chars.backslash (String Chars.backslash "")
     else if Ascii.eqb c Chars.dollar
          then String Chars.backslash (String Chars.dollar "")
          else String c "")
    +:+ escapeAttribute s.
Proof.
  unfold escapeAttribute. simpl.
  destruct (Ascii.eqb c Chars.backslash) eqn:Eb.
  - reflexivity.
  - simpl. now destruct (Ascii.eqb c Chars.dollar).
Qed.

Lemma unescape_escape_loop attr s : forall escaping,
  unescape_loop attr (escapeAttribute s) escaping
  = Ok (without Chars.backslash s).
Proof.
  induction s as [|c s IH]; intros escaping; [reflexivity|].
  rewrite escapeAttribute_cons. simpl without.
  destruct (Ascii.eqb c Chars.backslash) eqn:Eb.
  - simpl. apply IH.
  - destruct (Ascii.eqb c Chars.dollar) eqn:Ed.
    + apply Ascii.eqb_eq in Ed. subst c. simpl. now rewrite IH.
    + simpl. rewrite Eb, Ed. simpl. now rewrite IH.
Qed.

Lemma unescape_loop_Ok attr s : forall escaping r,
  unescape_loop attr s escaping = Ok r -> r = without Chars.backslash s.
Proof.
  induction s as [|c s IH]; intros escaping r; simpl.
  - intros H. now inversion H.
  - destruct (Ascii.eqb c Chars.backslash); [apply IH|].
    destruct (Ascii.eqb c Chars.dollar && negb escaping); [discriminate|].
    destruct (unescape_loop attr s false) as [r'|] eqn:E; [|discriminate].
    intros H. inversion H. f_equal. now apply (IH false).
Qed.

Lemma without_id c s :
  forall_chars (fun x => negb (Ascii.eqb x c)) s = true -> without c s = s.
Proof.
  induction s as [|x s IH]; simpl; [reflexivity|].
  intros H. apply andb_true_iff in H as [Hx H].
  apply negb_true_iff in Hx. now rewrite Hx, IH.
Qed.

(** X13.  [unescapeAttribute] after [escapeAttribute] never throws and
    returns the attribute without its backslashes: the two functions are
    inverse to each other on the names that hold no backslash (a dollar is
    escaped and comes back), and a backslash of the name is lost. *)
Theorem unescape_after_escape (attr : string) :
  unescapeAttribute (escapeAttribute attr)
  = Ok (without Chars.backslash attr)
  /\ (forall_chars (fun c => negb (Ascii.eqb c Chars.backslash)) attr = true ->
      unescapeAttribute (escapeAttribute attr) = Ok attr).
Proof.
  assert (H : unescapeAttribute (escapeAttribute attr)
              = Ok (without Chars.backslash attr))
    by apply unescape_escape_loop.
  split; [exact H|]. intros Hb. now rewrite H, without_id.
Qed.

Lemma unescape_after_escape_witness :
  unescapeAttribute (escapeAttribute "a$b.c") = Ok "a$b.c".
Proof.
  apply (unescape_after_escape "a$b.c"). reflexivity.
Defined.

(** X14.  What [unescapeAttribute] returns: it throws, with the error that
    names the whole attribute, when the attribute holds a dollar that no
    backslash stands in front of; otherwise it returns the attribute
    without its backslashes, all of them, also those in front of another
    character than the dollar. *)
Theorem unescapeAttribute_removes_backslashes (attr : string) :
  (unescaped_dollar attr ->
   unescapeAttribute attr = Throw (UnescapedDollar attr))
  /\ (~ unescaped_dollar attr ->
      unescapeAttribute attr = Ok (without Chars.backslash attr)).
Proof.
  split.
  - intros H. now apply unescapeAttribute_Throw.
  - intros H. destruct (unescapeAttribute attr) as [r|e] eqn:E.
    + f_equal. now apply (unescape_loop_Ok attr attr false).
    + apply unescapeAttribute_Throw in E as [E _]. contradiction.
Qed.

Lemma unescapeAttribute_removes_backslashes_witness :
  unescapeAttribute "a$" = Throw (UnescapedDollar "a$")
  /\ unescapeAttribute (String "a" (String Chars.backslash "b")) = Ok "ab".
Proof.
  split.
  - apply (unescapeAttribute_removes_backslashes "a$").
    exists "a", "". split; [reflexivity|].
    intros [pre' H]. destruct pre' as [|c [|d p]]; discriminate H.
  - apply (unescapeAttribute_removes_backslashes
             (String "a" (String Chars.backslash "b"))).
    assert (E : unescapeAttribute (String "a" (String Chars.backslash "b"))
                = Ok "ab") by reflexivity.
    intros H.
    assert (X : unescapeAttribute (String "a" (String Chars.backslash "b"))
                = Throw (UnescapedDollar
                           (String "a" (String Chars.backslash "b"))))
      by (apply unescapeAttribute_Throw; split; [exact H | reflexivity]).
    rewrite E in X. discriminate X.
Defined.

(** ** What [parse] returns *)

Lemma sealed_shape c : ok_open c -> parsed_shape (sealed c).
Proof.
  intros (He & Hk & Ha & Hn). unfold sealed.
  destruct ((0 <? length (notSelectors c)) && negb (truthy (element c))
            && (length (classNames c) =? 0) && (length (attrs c) =? 0)).
  - split; [now left|]. split; [exact Hk|]. split; [exact Ha | exact Hn].
  - split; [now right|]. split; [exact Hk|]. split; [exact Ha | exact Hn].
Qed.

(** X15.  Every selector that [parse] returns has the shape [parsed_shape]:
    its class names and attribute values are in lower case (its element
    and attribute names are kept as written), its attribute names hold no
    backslash, its element is a tag or the [*] of [_addResult], and its
    negations are selectors without element [*] and without negations of
    their own. *)
Theorem parse_result_shape (text : string) (rs : list CssSelector) :
  parse text = Ok rs -> Forall parsed_shape rs.
Proof.
  intros H. apply parse_ok in H as [_ H].
  eapply Forall_impl; [exact H|]. intros r (c & Hc & ->).
  now apply sealed_shape.
Qed.

Lemma parse_result_shape_witness :
  Forall parsed_shape
    [mkCssSelector (Some "Div") ["big"] [("id", "main"); ("Data-X", "y z")]
       [mkCssSelector None ["c"] [] []];
     mkCssSelector (Some "*") [] [] [mkCssSelector (Some "P") [] [] []]].
Proof.
  apply (parse_result_shape "Div.Big#Main[Data-X='Y z']:not(.C), :not(P)").
  vm_compute. reflexivity.
Defined.

Lemma parse_step_length m st st' :
  parse_step m st = Ok st' ->
  length (results st')
  = length (results st) + (if is_separator m then 1 else 0).
Proof.
  intros H. unfold parse_step in H.
  apply bind_Ok in H as (st1 & H1 & H). apply bind_Ok in H as (st3 & H3 & H).
  apply step_not_results in H1. apply step_attribute_Ok in H3 as [H3 _].
  rewrite step_tag_results, H1 in H3.
  unfold step_separator in H. rewrite step_not_end_results, H3 in H.
  unfold is_separator. destruct (truthy (SEPARATOR m)).
  - destruct (inNot _); [discriminate|]. inversion H; subst; simpl.
    now rewrite _addResult_sealed, length_app.
  - inversion H; subst. rewrite step_not_end_results, H3. lia.
Qed.

Lemma parse_loop_length ms : forall st st',
  parse_loop ms st = Ok st' ->
  length (results st')
  = length (results st) + length (List.filter is_separator ms).
Proof.
  induction ms as [|m ms IH]; simpl; intros st st' H.
  - inversion H; subst. lia.
  - apply bind_Ok in H as (st1 & E & H). apply IH in H.
    apply parse_step_length in E. rewrite H, E.
    destruct (is_separator m); simpl; lia.
Qed.

(** X16.  When [parse] returns, it returns one selector more than the
    expression matched separators in the text: one for every separator and
    one for the end of the text. *)
Theorem parse_counts_separators (text : string) (rs : list CssSelector) :
  parse text = Ok rs ->
  length rs = S (length (List.filter is_separator (matches text))).
Proof.
  intros H. unfold parse in H. apply bind_Ok in H as (st & E & H).
  inversion H; subst. rewrite _addResult_sealed, length_app.
  apply parse_loop_length in E. rewrite E. simpl. lia.
Qed.

Lemma parse_counts_separators_witness :
  length [mkCssSelector (Some "a") [] [("b", "c,d")] [];
          mkCssSelector None ["e"] [] [];
          mkCssSelector None [] [] []]
  = S (length (List.filter is_separator (matches "a[b='c,d'] , .e,"))).
Proof.
  apply (parse_counts_separators "a[b='c,d'] , .e,"). vm_compute. reflexivity.
Defined.

Lemma append_eq_self (a b : string) : a +:+ b = a -> b = "".
Proof.
  induction a as [|c a IH]; simpl; [auto|].
  intros H. inversion H. auto.
Qed.

Lemma append_eq_empty (a b : string) : a +:+ b = "" -> a = "" /\ b = "".
Proof. destruct a; simpl; [auto | discriminate]. Qed.

Lemma classes_text_empty ks : classes_text ks = "" -> ks = [].
Proof. destruct ks; [reflexivity | discriminate]. Qed.

Lemma attrs_text_empty l : attrs_text l = "" -> l = [].
Proof. destruct l; [reflexivity | discriminate]. Qed.

Lemma nots_text_empty ns : nots_text ns = "" -> ns = [].
Proof. destruct ns; [reflexivity | discriminate]. Qed.

(** X17.  [isElementSelector] tells the selectors that are their element
    and nothing else: it is true exactly when the selector has a non-empty
    element and [toString] returns just that element. *)
Theorem isElementSelector_toString (c : CssSelector) :
  isElementSelector c = true <->
  exists e, element c = Some e /\ nonempty e = true /\ toString c = e.
Proof.
  unfold isElementSelector, hasElementSelector. rewrite toString_unfold.
  split.
  - intros H. apply andb_true_iff in H as [H Hn].
    apply andb_true_iff in H as [H Ha]. apply andb_true_iff in H as [He Hk].
    destruct (element c) as [e|]; [|discriminate]. exists e.
    split; [reflexivity|]. split; [exact He|].
    destruct (classNames c); [|discriminate].
    destruct (attrs c); [|discriminate].
    destruct (notSelectors c); [|discriminate].
    simpl. now rewrite !append_empty_r.
  - intros (e & He & Hne & Ht). rewrite He in *. simpl in Ht.
    apply append_eq_self in Ht.
    apply append_eq_empty in Ht as [Hk Ht].
    apply append_eq_empty in Ht as [Ha Hn].
    apply classes_text_empty in Hk. apply attrs_text_empty in Ha.
    apply nots_text_empty in Hn. rewrite Hk, Ha, Hn. simpl.
    now rewrite Hne.
Qed.

Lemma exec_tag_alone run rest :
  is_tag run -> starts no_tag rest = true ->
  exec (run +:+ rest) = Some (tag_match "" run, rest).
Proof.
  intros [Hn Hc] Hrest.
  assert (Hspan : span Chars.is_tag_char (run +:+ rest) = (run, rest))
    by now apply span_run.
  destruct run as [|c run]; [discriminate|].
  simpl in Hc. apply andb_true_iff in Hc as [Hc _].
  rewrite append_cons in *. cbn [exec]. unfold match_here, alt_not, alt_tag.
  cbn [strip]. rewrite (tag_not_colon c Hc), (tag_not_prefix c Hc), Hspan.
  reflexivity.
Qed.

Lemma match_here_combinator (c x : ascii) (rest : string) :
  In c [" "; ">"; "+"; "~"]%char -> Chars.is_tag_char x = true ->
  match_here (String c (String x rest)) = None.
Proof.
  intros Hc Hx.
  destruct Hc as [<-|[<-|[<-|[<-|[]]]]];
    destruct x as [[] [] [] [] [] [] [] []]; vm_compute in Hx;
    try discriminate Hx; reflexivity.
Qed.

Lemma exec_skips_combinator (c x : ascii) (rest : string) :
  In c [" "; ">"; "+"; "~"]%char -> Chars.is_tag_char x = true ->
  exec (String c (String x rest)) = exec (String x rest).
Proof.
  intros Hc Hx. cbn [exec].
  now rewrite (match_here_combinator c x rest Hc Hx).
Qed.

(** X18.  [parse] knows no combinators: the blank, [>], [+] and [~]
    between two tags are skipped by the expression, both tags are read as
    the element of the same selector, and the second one replaces the
    first.  So [div span] is parsed like [span]. *)
Theorem parse_drops_combinators (t1 t2 : string) (c : ascii) :
  is_tag t1 -> is_tag t2 -> In c [" "; ">"; "+"; "~"]%char ->
  parse (t1 +:+ String c t2) = Ok [mkCssSelector (Some t2) [] [] []].
Proof.
  intros H1 H2 Hc. unfold parse.
  change (parse_loop (matches (t1 +:+ String c t2))
            (mkParseState [] new_CssSelector false))
    with (parse_from (t1 +:+ String c t2) (top [] new_CssSelector)).
  assert (Hstart : starts no_tag (String c t2) = true).
  { destruct Hc as [<-|[<-|[<-|[<-|[]]]]]; reflexivity. }
  rewrite parse_from_unfold, (exec_tag_alone t1 _ H1 Hstart).
  rewrite parse_step_element by apply H1. cbn [bind].
  rewrite (focus_top []).
  destruct H2 as [Hn2 Hc2]. destruct t2 as [|x t2]; [discriminate|].
  assert (Hx : Chars.is_tag_char x = true)
    by (simpl in Hc2; now apply andb_true_iff in Hc2 as [Hx _]).
  rewrite parse_from_unfold, (exec_skips_combinator c x t2 Hc Hx).
  assert (He : exec (String x t2) = Some (tag_match "" (String x t2), "")).
  { pose proof (exec_tag (String x t2) "" (conj Hn2 Hc2) eq_refl) as He.
    now rewrite append_empty_r in He. }
  rewrite He, parse_step_element by reflexivity. cbn [bind].
  rewrite (focus_top []), parse_from_unfold. reflexivity.
Qed.

Lemma parse_drops_combinators_witness :
  parse "div span" = Ok [mkCssSelector (Some "span") [] [] []].
Proof.
  apply (parse_drops_combinators "div" "span" " ").
  - split; reflexivity.
  - split; reflexivity.
  - simpl. auto.
Defined.

(** The serialization of a parse result without empty attribute name is
    parsed to that result. *)
Lemma parse_serialize text rs :
  parse text = Ok rs -> Forall names_nonempty rs ->
  parse (serialize rs) = Ok rs /\ starts no_space (serialize rs) = true.
Proof.
  intros Hparse Hn. apply parse_ok in Hparse as [Hne Hrs].
  apply sealed_list in Hrs as (cs & -> & Hcs).
  split; [|now apply starts_serialize].
  destruct (run_list cs []) as (st & Hst & Hres);
    [now destruct cs | exact Hcs | exact Hn |].
  unfold parse_from, top in Hst. unfold parse.
  rewrite Hst. simpl. now rewrite Hres.
Qed.

(** X19.  [toString] and [parse] on selectors however they were built: for
    every non-empty list of well-formed selectors (tags as element and
    class names, class names and attribute values in lower case, attribute
    names without backslash and not empty, negations without negations of
    their own), each with the element [*] set as [_addResult] sets it,
    parsing the serialization returns these selectors. *)
Theorem parse_of_serialized_selectors (cs : list CssSelector) :
  cs <> [] -> Forall ok_open cs ->
  Forall names_nonempty (map sealed cs) ->
  parse (serialize (map sealed cs)) = Ok (map sealed cs).
Proof.
  intros Hne Hcs Hn.
  destruct (run_list cs [] Hne Hcs Hn) as (st & Hst & Hres).
  unfold parse_from, top in Hst. unfold parse.
  rewrite Hst. simpl. now rewrite Hres.
Qed.

Lemma parse_of_serialized_selectors_witness :
  let cs := [mkCssSelector (Some "A") ["b"] [("C$", "d e")] [];
             mkCssSelector None [] []
               [mkCssSelector (Some "f") [] [("g", "")] []]] in
  parse (serialize (map sealed cs)) = Ok (map sealed cs).
Proof.
  intros cs. apply (parse_of_serialized_selectors cs).
  - discriminate.
  - repeat constructor.
  - repeat constructor.
Defined.

Lemma exec_hash k rest :
  is_tag k -> starts is_delimiter rest = true ->
  exec ("#" +:+ k +:+ rest) = Some (tag_match "#" k, rest).
Proof.
  intros [Hn Hc] Hrest.
  assert (Hspan : span Chars.is_tag_char (k +:+ rest) = (k, rest)).
  { apply span_run; [exact Hc|].
    eapply starts_impl; [apply delimiter_no_tag | exact Hrest]. }
  simpl. unfold match_here, alt_not, alt_tag. simpl. rewrite Hspan, Hn.
  reflexivity.
Qed.

Lemma parse_single text m c :
  exec text = Some (m, "") ->
  parse_step m (top [] new_CssSelector) = Ok (top [] c) ->
  parse text = Ok [sealed c].
Proof.
  intros He Hs. unfold parse.
  change (parse_loop (matches text) (mkParseState [] new_CssSelector false))
    with (parse_from text (top [] new_CssSelector)).
  rewrite parse_from_unfold, He, Hs. cbn [bind].
  rewrite parse_from_unfold. cbn [exec match_here]. simpl.
  now rewrite _addResult_sealed.
Qed.

(** X20.  The hash is the attribute [id]: for a tag [k], [parse] reads
    [#k] exactly as it reads [[id=k]], as one selector whose only
    constraint is the attribute [id] with the value [k] in lower case. *)
Theorem hash_is_id_attribute (k : string) :
  is_tag k ->
  parse ("#" +:+ k)
  = Ok [mkCssSelector None [] [("id", toLowerCase k)] []]
  /\ parse ("[id=" +:+ k +:+ "]") = parse ("#" +:+ k).
Proof.
  intros Hk.
  assert (Hn : nonempty k = true) by apply Hk.
  assert (Hc : sealed (addAttribute "id" (Some k) new_CssSelector)
               = mkCssSelector None [] [("id", toLowerCase k)] []).
  { unfold sealed, addAttribute. simpl. now rewrite Hn. }
  assert (He1 : exec ("#" +:+ k) = Some (tag_match "#" k, "")).
  { pose proof (exec_hash k "" Hk eq_refl) as He.
    now rewrite append_empty_r in He. }
  pose proof (parse_single _ _ (addAttribute "id" (Some k) new_CssSelector)
                He1 eq_refl) as H1.
  pose proof (parse_single _ _ (addAttribute "id" (Some k) new_CssSelector)
                (exec_attribute_value "id" k "" eq_refl eq_refl Hn
                   (is_tag_value k (proj2 Hk)))
                eq_refl) as H2.
  rewrite Hc in H1, H2. split; [exact H1|]. now rewrite H1.
Qed.

Lemma hash_is_id_attribute_witness :
  parse "#Main" = Ok [mkCssSelector None [] [("id", "main")] []]
  /\ parse "[id=Main]" = parse "#Main".
Proof.
  apply (hash_is_id_attribute "Main"). split; reflexivity.
Defined.

(** X21.  The serialization tells the parse results apart: two texts that
    [parse] accepts, with no empty attribute name in the results, and whose
    results have the same serialization, have the same results. *)
Theorem serialize_is_injective_on_results
    (t1 t2 : string) (rs1 rs2 : list CssSelector) :
  parse t1 = Ok rs1 -> parse t2 = Ok rs2 ->
  Forall names_nonempty rs1 -> Forall names_nonempty rs2 ->
  serialize rs1 = serialize rs2 -> rs1 = rs2.
Proof.
  intros H1 H2 Hn1 Hn2 Hs.
  destruct (parse_serialize t1 rs1 H1 Hn1) as [E1 _].
  destruct (parse_serialize t2 rs2 H2 Hn2) as [E2 _].
  rewrite Hs in E1. rewrite E1 in E2. now inversion E2.
Qed.

Lemma serialize_is_injective_on_results_witness :
  [mkCssSelector (Some "a") ["b"] [("c", "d")] []]
  = [mkCssSelector (Some "a") ["b"] [("c", "d")] []].
Proof.
  apply (serialize_is_injective_on_results "a.B[c=D]" "[c='d'].b x a").
  - vm_compute. reflexivity.
  - vm_compute. reflexivity.
  - repeat constructor.
  - repeat constructor.
  - reflexivity.
Defined.

(** ** The characters of a serialization *)

Lemma forall_chars_app p a b :
  forall_chars p (a +:+ b) = forall_chars p a && forall_chars p b.
Proof.
  induction a as [|c a IH]; simpl; [reflexivity|].
  now rewrite IH, andb_assoc.
Qed.

Lemma span_chars p q s run rest :
  forall_chars q s = true -> span p s = (run, rest) ->
  forall_chars q run = true /\ forall_chars q rest = true.
Proof.
  intros Hs E. apply span_append in E. subst s.
  rewrite forall_chars_app in Hs. now apply andb_true_iff in Hs.
Qed.

Lemma strip_chars q pre s rest :
  forall_chars q s = true -> strip pre s = Some rest ->
  forall_chars q rest = true.
Proof.
  intros Hs E. apply strip_append in E. subst s.
  rewrite forall_chars_app in Hs. now apply andb_true_iff in Hs as [_ Hs].
Qed.

Section Provenance.

Variable p : ascii -> bool.

Lemma captures_none n t pr ne sep :
  (forall x, t = Some x -> forall_chars p x = true) ->
  captures p (mkMatch n t pr None None None ne sep).
Proof. intros H. split; [exact H|]. split; discriminate. Qed.

Lemma alt_not_chars s m rest :
  forall_chars p s = true -> alt_not s = Some (m, rest) ->
  captures p m /\ forall_chars p rest = true.
Proof.
  intros Hs. unfold alt_not.
  destruct (strip ":not(" s) as [r|] eqn:E; [|discriminate].
  intros H; inversion H; subst. split.
  - apply captures_none. discriminate.
  - eapply strip_chars; eauto.
Qed.

Lemma alt_tag_chars s m rest :
  forall_chars p s = true -> alt_tag s = Some (m, rest) ->
  captures p m /\ forall_chars p rest = true.
Proof.
  intros Hs. unfold alt_tag.
  destruct s as [|c s']; [simpl; discriminate|].
  destruct (Ascii.eqb c "." || Ascii.eqb c "#").
  - destruct (span Chars.is_tag_char s') as [run r] eqn:E.
    destruct (nonempty run); [|discriminate].
    simpl in Hs. apply andb_true_iff in Hs as [Hc Hs].
    destruct (span_chars _ p _ _ _ Hs E) as [Hrun Hr].
    intros H; inversion H; subst. split; [|exact Hr].
    apply captures_none. intros x Hx. inversion Hx. simpl.
    now rewrite Hc.
  - destruct (span Chars.is_tag_char (String c s')) as [run r] eqn:E.
    destruct (nonempty run); [|discriminate].
    destruct (span_chars _ p _ _ _ Hs E) as [Hrun Hr].
    intros H; inversion H; subst. split; [|exact Hr].
    apply captures_none. intros x Hx. inversion Hx; subst. exact Hrun.
Qed.

Lemma alt_attribute_chars s m rest :
  forall_chars p s = true -> alt_attribute s = Some (m, rest) ->
  captures p m /\ forall_chars p rest = true.
Proof.
  intros Hs. unfold alt_attribute.
  destruct s as [|c s1]; [discriminate|].
  destruct (Ascii.eqb_spec c "[") as [->|Hc].
  2:{ destruct c as [[] [] [] [] [] [] [] []]; try discriminate;
        try now contradiction Hc. }
  simpl in Hs. apply andb_true_iff in Hs as [_ Hs].
  destruct (span Chars.is_name_char s1) as [name s2] eqn:E.
  destruct (nonempty name); [|discriminate].
  destruct (span_chars _ p _ _ _ Hs E) as [Hname Hs2].
  destruct s2 as [|d s3]; [discriminate|].
  simpl in Hs2. apply andb_true_iff in Hs2 as [_ Hs3].
  destruct (Ascii.eqb_spec d "]") as [->|Hd].
  { intros H; inversion H; subst. split; [|exact Hs3].
    split; [discriminate|]. split; [|discriminate].
    intros a Ha. now inversion Ha; subst. }
  destruct (Ascii.eqb_spec d "=") as [->|Hd'].
  2:{ destruct d as [[] [] [] [] [] [] [] []]; try discriminate;
        try (now contradiction Hd); try (now contradiction Hd'). }
  set (qs := match s3 with
             | String q s' =>
                 if Chars.is_quote q then (String q "", s') else ("", s3)
             | EmptyString => ("", s3)
             end).
  assert (Hq : forall_chars p (snd qs) = true).
  { subst qs. destruct s3 as [|q s']; simpl; [reflexivity|].
    destruct (Chars.is_quote q); simpl; [|exact Hs3].
    simpl in Hs3. now apply andb_true_iff in Hs3 as [_ Hs3]. }
  destruct qs as [quote s4]. simpl in Hq.
  destruct (span Chars.is_value_char s4) as [value s5] eqn:Ev.
  destruct (span_chars _ p _ _ _ Hq Ev) as [Hvalue Hs5].
  destruct (strip (quote +:+ "]") s5) as [r|] eqn:Es; [|discriminate].
  intros H; inversion H; subst. split.
  - split; [discriminate|]. split.
    + intros a Ha. now inversion Ha; subst.
    + intros v Hv. now inversion Hv; subst.
  - eapply strip_chars; eauto.
Qed.

Lemma alt_not_end_chars s m rest :
  forall_chars p s = true -> alt_not_end s = Some (m, rest) ->
  captures p m /\ forall_chars p rest = true.
Proof.
  intros Hs. unfold alt_not_end.
  destruct s as [|c s1]; [discriminate|].
  destruct (Ascii.eqb_spec c ")") as [->|Hc].
  2:{ destruct c as [[] [] [] [] [] [] [] []]; try discriminate;
        try now contradiction Hc. }
  simpl in Hs. apply andb_true_iff in Hs as [_ Hs].
  intros H; inversion H; subst. split; [|exact Hs].
  apply captures_none. discriminate.
Qed.

Lemma alt_separator_chars s m rest :
  forall_chars p s = true -> alt_separator s = Some (m, rest) ->
  captures p m /\ forall_chars p rest = true.
Proof.
  intros Hs. unfold alt_separator.
  destruct (span Chars.is_space s) as [before s1] eqn:E1.
  destruct (span_chars _ p _ _ _ Hs E1) as [_ Hs1].
  destruct s1 as [|c s2]; [discriminate|].
  destruct (Ascii.eqb_spec c ",") as [->|Hc].
  2:{ destruct c as [[] [] [] [] [] [] [] []]; try discriminate;
        try now contradiction Hc. }
  simpl in Hs1. apply andb_true_iff in Hs1 as [_ Hs2].
  destruct (span Chars.is_space s2) as [after r] eqn:E2.
  destruct (span_chars _ p _ _ _ Hs2 E2) as [_ Hr].
  intros H; inversion H; subst. split; [|exact Hr].
  apply captures_none. discriminate.
Qed.

Lemma match_here_chars s m rest :
  forall_chars p s = true -> match_here s = Some (m, rest) ->
  captures p m /\ forall_chars p rest = true.
Proof.
  intros Hs. unfold match_here, or_else.
  destruct (alt_not s) as [[]|] eqn:E1.
  { intros H; inversion H; subst. eauto using alt_not_chars. }
  destruct (alt_tag s) as [[]|] eqn:E2.
  { intros H; inversion H; subst. eauto using alt_tag_chars. }
  destruct (alt_attribute s) as [[]|] eqn:E3.
  { intros H; inversion H; subst. eauto using alt_attribute_chars. }
  destruct (alt_not_end s) as [[]|] eqn:E4.
  { intros H; inversion H; subst. eauto using alt_not_end_chars. }
  now apply alt_separator_chars.
Qed.

Lemma exec_chars s m rest :
  forall_chars p s = true -> exec s = Some (m, rest) ->
  captures p m /\ forall_chars p rest = true.
Proof.
  induction s as [|c s IH]; intros Hs.
  - discriminate.
  - cbn [exec]. destruct (match_here (String c s)) as [[]|] eqn:E.
    + intros H; inversion H; subst. now apply (match_here_chars (String c s)).
    + simpl in Hs. apply andb_true_iff in Hs as [_ Hs]. now apply IH.
Qed.

Lemma matches_chars (s : string) :
  forall_chars p s = true -> Forall (captures p) (matches s).
Proof.
  remember (String.length s) as n eqn:Hn.
  revert s Hn. induction n as [n IH] using lt_wf_ind. intros s -> Hs.
  rewrite matches_unfold.
  destruct (exec s) as [[m rest]|] eqn:E; [|constructor].
  destruct (exec_chars s m rest Hs E) as [Hm Hrest].
  apply exec_spec in E as [_ Hlen]. constructor; [exact Hm|].
  eapply IH; [exact Hlen | reflexivity | exact Hrest].
Qed.

End Provenance.

Lemma concat_strings_app (a b : list string) :
  concat_strings (a ++ b) = concat_strings a +:+ concat_strings b.
Proof.
  induction a as [|x a IH]; simpl; [reflexivity|].
  now rewrite IH, append_assoc.
Qed.

Lemma classes_text_snoc ks k :
  classes_text (ks ++ [k]) = classes_text ks +:+ "." +:+ k.
Proof.
  unfold classes_text. rewrite map_app, concat_strings_app. simpl.
  now rewrite append_empty_r.
Qed.

Lemma attrs_text_snoc l a :
  attrs_text (l ++ [a]) = attrs_text l +:+ attr_toString a.
Proof.
  unfold attrs_text. rewrite map_app, concat_strings_app. simpl.
  now rewrite append_empty_r.
Qed.

Lemma nots_text_snoc ns n :
  nots_text (ns ++ [n]) = nots_text ns +:+ ":not(" +:+ toString n +:+ ")".
Proof.
  unfold nots_text. rewrite map_app, concat_strings_app. simpl.
  now rewrite append_empty_r.
Qed.

Section Written.

Variable p : ascii -> bool.
Hypothesis p_lower : forall c, p c = true -> p (Chars.lower c) = true.
Hypothesis p_written : forall_chars p written = true.

Lemma written_char c :
  In c (list_ascii_of_string written) -> p c = true.
Proof.
  revert p_written. generalize written.
  induction s as [|x s IH]; simpl; [contradiction|].
  intros H [<-|Hc]; apply andb_true_iff in H as [Hx H]; auto.
Qed.

Ltac written :=
  apply written_char; vm_compute; repeat first [left; reflexivity | right].

Ltac all_written :=
  simpl; rewrite ?andb_true_r;
  repeat (apply andb_true_iff; split); try reflexivity; written.

(** All characters of the text of a selector are in [p]. *)
Lemma text_parts c :
  forall_chars p (toString c) = true <->
  forall_chars p (element_text (element c)) = true
  /\ forall_chars p (classes_text (classNames c)) = true
  /\ forall_chars p (attrs_text (attrs c)) = true
  /\ forall_chars p (nots_text (notSelectors c)) = true.
Proof.
  rewrite toString_unfold, !forall_chars_app, !andb_true_iff. tauto.
Qed.

Lemma text_setElement t c :
  forall_chars p t = true -> forall_chars p (toString c) = true ->
  forall_chars p (toString (setElement (Some t) c)) = true.
Proof.
  intros Ht. rewrite !text_parts.
  cbn [setElement element classNames attrs notSelectors element_text].
  tauto.
Qed.

Lemma text_addClassName k c :
  forall_chars p k = true -> forall_chars p (toString c) = true ->
  forall_chars p (toString (addClassName k c)) = true.
Proof.
  intros Hk. rewrite !text_parts.
  cbn [addClassName element classNames attrs notSelectors].
  intros (He & Hc & Ha & Hn). repeat split; auto.
  rewrite classes_text_snoc, !forall_chars_app, Hc. cbn [forall_chars andb].
  rewrite andb_true_r. apply andb_true_iff. split; [written|].
  now apply forall_chars_lower.
Qed.

Lemma escape_chars n :
  forall_chars p n = true -> forall_chars p (escapeAttribute n) = true.
Proof.
  induction n as [|c n IH]; [reflexivity|].
  rewrite escapeAttribute_cons, forall_chars_app. simpl.
  intros H. apply andb_true_iff in H as [Hc H]. rewrite (IH H), andb_true_r.
  assert (Hb : p Chars.backslash = true) by written.
  assert (Hd : p Chars.dollar = true) by written.
  destruct (Ascii.eqb c Chars.backslash); simpl; [now rewrite Hb|].
  destruct (Ascii.eqb c Chars.dollar); simpl; [now rewrite Hb, Hd|].
  now rewrite Hc.
Qed.

Lemma text_addAttribute n v c :
  forall_chars p n = true ->
  (forall x, v = Some x -> forall_chars p x = true) ->
  forall_chars p (toString c) = true ->
  forall_chars p (toString (addAttribute n v c)) = true.
Proof.
  intros Hn Hv. rewrite !text_parts.
  cbn [addAttribute element classNames attrs notSelectors].
  intros (He & Hc & Ha & Hnot). repeat split; auto.
  rewrite attrs_text_snoc, forall_chars_app, Ha.
  unfold attr_toString. cbn [fst snd]. rewrite !forall_chars_app.
  rewrite (escape_chars n Hn).
  assert (Hl : p "[" = true) by written.
  assert (Hr : p "]" = true) by written.
  assert (Heq : p "=" = true) by written.
  cbn [forall_chars andb]. rewrite Hl, Hr. cbn [andb].
  rewrite andb_true_r.
  destruct v as [x|]; [|reflexivity].
  destruct (nonempty x) eqn:Ex; [|reflexivity].
  rewrite nonempty_toLowerCase, Ex. cbn [forall_chars String.append].
  rewrite Heq. cbn [andb].
  apply forall_chars_lower; [exact p_lower | now apply Hv].
Qed.

Lemma unescape_chars attr s : forall escaping r,
  forall_chars p s = true -> unescape_loop attr s escaping = Ok r ->
  forall_chars p r = true.
Proof.
  induction s as [|c s IH]; intros escaping r; simpl.
  - intros _ H. now inversion H.
  - intros Hs. apply andb_true_iff in Hs as [Hc Hs].
    destruct (Ascii.eqb c Chars.backslash); [now apply IH|].
    destruct (Ascii.eqb c Chars.dollar && negb escaping); [discriminate|].
    destruct (unescape_loop attr s false) as [r'|] eqn:E; [|discriminate].
    intros H; inversion H; subst. simpl. rewrite Hc. eapply IH; eauto.
Qed.

Lemma text_map_last f ns :
  (forall x, forall_chars p (toString x) = true ->
             forall_chars p (toString (f x)) = true) ->
  forall_chars p (nots_text ns) = true ->
  forall_chars p (nots_text (map_last f ns)) = true.
Proof.
  intros Hf. destruct ns as [|n0 ns] using rev_ind; [auto|].
  rewrite map_last_snoc, !nots_text_snoc, !forall_chars_app,
    !andb_true_iff.
  intros (H1 & H2 & H3 & H4). auto.
Qed.

Lemma text_on_current f st :
  (forall x, forall_chars p (toString x) = true ->
             forall_chars p (toString (f x)) = true) ->
  text_state p st -> text_state p (on_current f st).
Proof.
  intros Hf [Hres Hc]. unfold on_current. destruct (inNot st).
  - split; [exact Hres|]. cbn [cssSelector].
    apply text_parts in Hc. apply text_parts.
    cbn [element classNames attrs notSelectors].
    destruct Hc as (He & Hk & Ha & Hn). repeat split; auto.
    now apply text_map_last.
  - split; [exact Hres | now apply Hf].
Qed.

Lemma forall_chars_slice1 s :
  forall_chars p s = true -> forall_chars p (slice1 s) = true.
Proof.
  destruct s; simpl; [auto|]. intros H. now apply andb_true_iff in H.
Qed.

Lemma text_parse_step m st st' :
  captures p m -> text_state p st -> parse_step m st = Ok st' ->
  text_state p st'.
Proof.
  intros (Htag & Hattr & Hvalue) Hst H. unfold parse_step in H.
  apply bind_Ok in H as (st1 & H1 & H). apply bind_Ok in H as (st3 & H3 & H).
  assert (T1 : text_state p st1).
  { unfold step_not in H1. destruct (truthy (NOT m));
      [|now inversion H1; subst].
    destruct (inNot st); [discriminate|]. inversion H1; subst.
    destruct Hst as [Hres Hc]. split; [exact Hres|]. cbn [cssSelector].
    apply text_parts in Hc. apply text_parts.
    cbn [element classNames attrs notSelectors].
    destruct Hc as (He & Hk & Ha & Hn). repeat split; auto.
    rewrite nots_text_snoc, !forall_chars_app, Hn.
    change (toString new_CssSelector) with "". all_written. }
  assert (T2 : text_state p (step_tag m st1)).
  { unfold step_tag. destruct (TAG m) as [tag|]; [|exact T1].
    destruct (nonempty tag); [|exact T1].
    specialize (Htag tag eq_refl).
    repeat case_bool_decide; apply text_on_current; auto; intros x.
    - apply text_addAttribute.
      + all_written.
      + intros v Hv. inversion Hv; subst. now apply forall_chars_slice1.
    - apply text_addClassName. now apply forall_chars_slice1.
    - now apply text_setElement. }
  assert (T3 : text_state p st3).
  { unfold step_attribute in H3. destruct (ATTRIBUTE m) as [a|];
      [|now inversion H3; subst].
    destruct (nonempty a); [|now inversion H3; subst].
    apply bind_Ok in H3 as (n & E & H3). inversion H3; subst.
    apply text_on_current; [|exact T2]. intros x.
    apply text_addAttribute; [|exact Hvalue].
    eapply unescape_chars; [|exact E]. now apply Hattr. }
  assert (T4 : text_state p (step_not_end m st3)).
  { unfold step_not_end. destruct (truthy (NOT_END m)); [|exact T3].
    exact T3. }
  unfold step_separator in H. destruct (truthy (SEPARATOR m));
    [|now inversion H; subst].
  destruct (inNot _); [discriminate|]. inversion H; subst.
  destruct T4 as [Hres Hc]. rewrite _addResult_sealed. split; simpl.
  - apply Forall_app. split; [exact Hres|]. constructor; [|constructor].
    unfold sealed. destruct (_ && _); [|exact Hc].
    apply text_setElement; [|exact Hc]. all_written.
  - reflexivity.
Qed.

Lemma text_parse_loop ms : forall st st',
  Forall (captures p) ms -> text_state p st -> parse_loop ms st = Ok st' ->
  text_state p st'.
Proof.
  induction ms as [|m ms IH]; simpl; intros st st' Hms Hst H.
  - now inversion H; subst.
  - inversion Hms; subst. apply bind_Ok in H as (st1 & E & H).
    eapply IH; [assumption | | exact H]. eapply text_parse_step; eauto.
Qed.

Lemma text_join l :
  Forall (fun s => forall_chars p s = true) l ->
  forall_chars p (join "," l) = true.
Proof.
  induction 1 as [|s l Hs Hl IH]; [reflexivity|].
  destruct l as [|s' l]; [exact Hs|].
  change (join "," (s :: s' :: l)) with (s +:+ "," +:+ join "," (s' :: l)).
  rewrite !forall_chars_app, Hs, IH. all_written.
Qed.

Lemma text_parse text rs :
  forall_chars p text = true -> parse text = Ok rs ->
  forall_chars p (serialize rs) = true.
Proof.
  intros Ht H. unfold parse in H. apply bind_Ok in H as (st & E & H).
  inversion H; subst. rewrite _addResult_sealed.
  apply text_parse_loop in E as [Hres Hc].
  - unfold serialize. apply text_join. rewrite Forall_map.
    apply Forall_app. split; [exact Hres|]. constructor; [|constructor].
    unfold sealed. destruct (_ && _); [|exact Hc].
    apply text_setElement; [|exact Hc]. all_written.
  - now apply matches_chars.
  - split; [constructor | reflexivity].
Qed.

End Written.

(** X22.  The serialization of what [parse] returns is made of characters
    of the text and of the characters that [parse] and [toString] write of
    their own ([written]), a character of the text possibly in lower case:
    when a class of characters holds those of the text and the written
    ones, and with a character its lower case, it holds those of the
    serialization. *)
Theorem serialization_characters
    (p : ascii -> bool) (text : string) (rs : list CssSelector) :
  (forall c, p c = true -> p (Chars.lower c) = true) ->
  forall_chars p written = true ->
  forall_chars p text = true -> parse text = Ok rs ->
  forall_chars p (serialize rs) = true.
Proof. intros Hl Hw Ht H. now apply (text_parse p Hl Hw text). Qed.

Lemma lower_no_line_feed c :
  no_line_feed c = true -> no_line_feed (Chars.lower c) = true.
Proof. each_char c. Qed.

Lemma serialization_characters_witness :
  forall_chars no_line_feed
    (serialize [mkCssSelector (Some "a") ["b"] [("c", "d e")]
                  [mkCssSelector None [] [("id", "f")] []]])
  = true.
Proof.
  apply (serialization_characters no_line_feed "a.B[c='D e']:not(#F)").
  - apply lower_no_line_feed.
  - reflexivity.
  - reflexivity.
  - vm_compute. reflexivity.
Defined.

(** ** The handler of the page *)

Lemma split_lines_nonempty s : split_lines s <> [].
Proof.
  destruct s as [|c s]; simpl; [discriminate|].
  destruct (Ascii.eqb c line_feed); [discriminate|].
  destruct (split_lines s); discriminate.
Qed.

Lemma split_lines_chars s :
  Forall (fun l => forall_chars no_line_feed l = true) (split_lines s).
Proof.
  induction s as [|c s IH]; simpl; [repeat constructor|].
  destruct (Ascii.eqb c line_feed) eqn:E; [now constructor|].
  destruct (split_lines s) as [|l ls]; simpl.
  - constructor; [|constructor]. simpl. unfold no_line_feed. now rewrite E.
  - inversion IH; subst. constructor; [|assumption].
    simpl. unfold no_line_feed at 1. now rewrite E.
Qed.

Lemma split_lines_line l :
  forall_chars no_line_feed l = true -> split_lines l = [l].
Proof.
  induction l as [|c l IH]; simpl; [reflexivity|].
  intros H. apply andb_true_iff in H as [Hc H].
  unfold no_line_feed in Hc. apply negb_true_iff in Hc.
  now rewrite Hc, IH.
Qed.

Lemma split_lines_app l rest :
  forall_chars no_line_feed l = true ->
  split_lines (l +:+ String line_feed rest) = l :: split_lines rest.
Proof.
  induction l as [|c l IH]; simpl; [reflexivity|].
  intros H. apply andb_true_iff in H as [Hc H].
  unfold no_line_feed in Hc. apply negb_true_iff in Hc.
  now rewrite Hc, IH.
Qed.

Lemma split_lines_join ls :
  ls <> [] -> Forall (fun l => forall_chars no_line_feed l = true) ls ->
  split_lines (join (String line_feed "") ls) = ls.
Proof.
  intros Hne H. induction H as [|l ls Hl Hls IH]; [contradiction|].
  destruct ls as [|l' ls]; [now apply split_lines_line|].
  change (join (String line_feed "") (l :: l' :: ls))
    with (l +:+ String line_feed (join (String line_feed "") (l' :: ls))).
  rewrite split_lines_app by exact Hl. f_equal. now apply IH.
Qed.

Lemma strip_spaces_id s : starts no_space s = true -> strip_spaces s = s.
Proof.
  destruct s as [|c s]; simpl; [reflexivity|].
  intros H. destruct (Ascii.eqb_spec c " ") as [->|]; [discriminate|].
  reflexivity.
Qed.

Lemma strip_spaces_chars p s :
  forall_chars p s = true -> forall_chars p (strip_spaces s) = true.
Proof.
  induction s as [|c s IH]; simpl; [reflexivity|].
  intros H. destruct (Ascii.eqb c " "); [|exact H].
  apply andb_true_iff in H as [_ H]. now apply IH.
Qed.

Lemma map_parse_Ok ls : forall rss,
  map_parse ls = Ok rss -> Forall2 (fun l rs => parse l = Ok rs) ls rss.
Proof.
  induction ls as [|l ls IH]; simpl; intros rss H.
  - inversion H. constructor.
  - apply bind_Ok in H as (rs & E & H). apply bind_Ok in H as (rss' & E' & H).
    inversion H; subst. constructor; [exact E | now apply IH].
Qed.

Lemma map_parse_serialize rss :
  Forall (fun rs => parse (serialize rs) = Ok rs) rss ->
  map_parse (map serialize rss) = Ok rss.
Proof.
  induction 1 as [|rs rss H _ IH]; simpl; [reflexivity|].
  now rewrite H, IH.
Qed.

(** X23.  The text that the handler of the page writes is a fixed point of
    it: when [parseContent] turns the text [origin] into [out] and no
    attribute of a parsed selector has the empty name, [parseContent]
    turns [out] into [out]. *)
Theorem parseContent_idempotent (origin out : string) :
  parseContent origin = Ok out ->
  (forall line rs,
      In line (split_lines origin) -> parse (strip_spaces line) = Ok rs ->
      Forall names_nonempty rs) ->
  parseContent out = Ok out.
Proof.
  unfold parseContent at 1. intros H Hnames.
  apply bind_Ok in H as (rss & E & H). inversion H; subst. clear H.
  apply map_parse_Ok in E.
  assert (Hall : Forall (fun rs => parse (serialize rs) = Ok rs
                                   /\ starts no_space (serialize rs) = true
                                   /\ forall_chars no_line_feed (serialize rs)
                                      = true) rss).
  { pose proof (split_lines_chars origin) as Hc.
    assert (Hin : forall l, In l (split_lines origin) ->
                            In l (split_lines origin)) by auto.
    revert E Hc Hin. generalize (split_lines origin) at 1 2 3.
    intros ls E. revert rss E.
    induction ls as [|l ls IH]; intros rss E Hc Hin; simpl in E;
      inversion E as [|? rs ? rss' Hp E']; subst; constructor.
    - inversion Hc; subst.
      destruct (parse_serialize _ _ Hp) as [Hrt Hsp].
      { apply (Hnames l); [apply Hin; now left | exact Hp]. }
      split; [exact Hrt|]. split; [exact Hsp|].
      apply (text_parse no_line_feed lower_no_line_feed eq_refl
               (strip_spaces l)); [|exact Hp].
      now apply strip_spaces_chars.
    - inversion Hc; subst. apply IH; auto.
      intros l' Hl'. apply Hin. now right. }
  assert (Hne : map serialize rss <> []).
  { pose proof (split_lines_nonempty origin) as Hs.
    destruct (split_lines origin); [contradiction|].
    inversion E; subst. discriminate. }
  unfold parseContent. rewrite split_lines_join; [|exact Hne|].
  2:{ rewrite Forall_map. eapply Forall_impl; [exact Hall|].
      intros rs (_ & _ & H). exact H. }
  rewrite map_map.
  assert (Hstrip : map (fun rs => strip_spaces (serialize rs)) rss
                   = map serialize rss).
  { clear - Hall. induction Hall as [|rs rss (_ & H & _) _ IH]; simpl;
      [reflexivity|]. now rewrite IH, strip_spaces_id. }
  rewrite Hstrip, map_parse_serialize; [reflexivity|].
  eapply Forall_impl; [exact Hall|]. intros rs (H & _). exact H.
Qed.

Lemma parseContent_idempotent_witness :
  parseContent ("Div.a,b" +:+ String line_feed "[x=y z]")
  = Ok ("Div.a,b" +:+ String line_feed "[x=y z]").
Proof.
  apply (parseContent_idempotent
           ("  Div.A , b" +:+ String line_feed "[x='Y z']")).
  - vm_compute. reflexivity.
  - intros line rs Hin Hp. vm_compute in Hin.
    destruct Hin as [<-|[<-|[]]]; vm_compute in Hp; inversion Hp;
      repeat constructor.
Defined.

(** X24.  The handler of the page keeps the lines apart: the text it
    writes has as many lines as the text it reads, and each line written
    is the serialization of the selectors parsed from the line read at the
    same place, without its leading spaces.  No attribute value and no
    other part of a serialization brings a line feed in. *)
Theorem parseContent_line_by_line (origin out : string) :
  parseContent origin = Ok out ->
  Forall2 (fun line written_line =>
             exists rs, parse (strip_spaces line) = Ok rs
                        /\ written_line = serialize rs)
          (split_lines origin) (split_lines out).
Proof.
  unfold parseContent. intros H.
  apply bind_Ok in H as (rss & E & H). inversion H; subst. clear H.
  apply map_parse_Ok in E.
  pose proof (split_lines_nonempty origin) as Hne.
  pose proof (split_lines_chars origin) as Hc.
  revert E Hne Hc. generalize (split_lines origin). intros ls E Hne Hc.
  assert (Hall : Forall (fun rs => forall_chars no_line_feed (serialize rs)
                                   = true) rss).
  { clear Hne. revert rss E Hc.
    induction ls as [|l ls IH]; intros rss E Hc; simpl in E;
      inversion E as [|? rs ? rss' Hp E']; subst; constructor;
      inversion Hc; subst.
    - apply (text_parse no_line_feed lower_no_line_feed eq_refl
               (strip_spaces l)); [|exact Hp].
      now apply strip_spaces_chars.
    - now apply IH. }
  rewrite split_lines_join.
  - clear Hne Hc Hall. revert rss E.
    induction ls as [|l ls IH]; intros rss E; simpl in E;
      inversion E as [|? rs ? rss' Hp E']; subst; simpl; constructor;
      eauto.
  - destruct ls; [contradiction|]. inversion E; subst. discriminate.
  - now rewrite Forall_map.
Qed.

Lemma parseContent_line_by_line_witness :
  Forall2 (fun line written_line =>
             exists rs, parse (strip_spaces line) = Ok rs
                        /\ written_line = serialize rs)
          (split_lines ("  Div.A , b" +:+ String line_feed "[x='Y z']"))
          (split_lines ("Div.a,b" +:+ String line_feed "[x=y z]")).
Proof.
  apply (parseContent_line_by_line
           ("  Div.A , b" +:+ String line_feed "[x='Y z']")).
  vm_compute. reflexivity.
Defined.

(** ** The element [*] of a selector of negations *)

Lemma only_negations_dec c :
  only_negations c <->
  (0 <? length (notSelectors c)) && negb (truthy (element c))
  && (length (classNames c) =? 0) && (length (attrs c) =? 0) = true.
Proof.
  unfold only_negations. rewrite !andb_true_iff, negb_true_iff.
  destruct (notSelectors c), (classNames c), (attrs c); simpl;
    intuition (try congruence; try discriminate).
Qed.

Lemma sealed_only_negations c :
  (only_negations c -> sealed c = setElement (Some "*") c)
  /\ (~ only_negations c -> sealed c = c).
Proof.
  rewrite only_negations_dec. unfold sealed.
  destruct ((0 <? length (notSelectors c)) && negb (truthy (element c))
            && (length (classNames c) =? 0) && (length (attrs c) =? 0));
    split; intros X; congruence.
Qed.

Lemma sealed_from_end c b : sealed_from c b [] (sealed c).
Proof.
  exists (mkParseState [] c b). split; [reflexivity|].
  apply sealed_only_negations.
Qed.

(** A match that is no separator leaves the results alone, and what it
    does to the selector being built does not depend on them. *)
Lemma parse_step_frame m R c b st1 :
  Token m -> is_separator m = false ->
  parse_step m (mkParseState R c b) = Ok st1 ->
  results st1 = R
  /\ parse_step m (mkParseState [] c b)
     = Ok (mkParseState [] (cssSelector st1) (inNot st1)).
Proof.
  intros T Hsep. unfold parse_step.
  destruct T as [|prefix run Hrun Hp _|name quote value Hname _ _| |sep Hs];
    unfold step_not, step_attribute, step_separator, step_not_end, step_tag,
      on_current; simpl.
  - destruct b; [discriminate|]. intros H; inversion H; subst. auto.
  - destruct (nonempty (prefix +:+ run));
      repeat case_bool_decide; destruct b;
      intros X; inversion X; subst; auto.
  - rewrite Hname. destruct (unescapeAttribute name) as [n|e]; simpl;
      [|discriminate].
    destruct b; intros H; inversion H; subst; auto.
  - intros H; inversion H; subst. auto.
  - unfold is_separator in Hsep. simpl in Hsep. congruence.
Qed.

Lemma parse_step_separator_Token m R c b st1 :
  Token m -> is_separator m = true ->
  parse_step m (mkParseState R c b) = Ok st1 ->
  b = false /\ st1 = mkParseState (R ++ [sealed c]) new_CssSelector false.
Proof.
  intros T Hsep. unfold parse_step.
  destruct T as [|prefix run Hrun Hp _|name quote value Hname _ _| |sep Hs];
    try (unfold is_separator in Hsep; simpl in Hsep; discriminate).
  unfold step_not, step_attribute, step_separator, step_not_end, step_tag;
    simpl. rewrite Hs. destruct b; [discriminate|].
  intros H; inversion H; subst. now rewrite _addResult_sealed.
Qed.

Lemma parse_loop_segments ms : forall R c b st',
  Forall Token ms ->
  parse_loop ms (mkParseState R c b) = Ok st' ->
  exists seg0 segs r0 outs,
    segments ms = seg0 :: segs
    /\ results st' ++ [sealed (cssSelector st')] = R ++ r0 :: outs
    /\ sealed_from c b seg0 r0
    /\ Forall2 sealed_segment segs outs.
Proof.
  induction ms as [|m ms IH]; intros R c b st' HT H.
  - inversion H; subst. exists [], [], (sealed c), []. simpl.
    split; [reflexivity|]. split; [reflexivity|].
    split; [apply sealed_from_end | constructor].
  - inversion HT as [|? ? Tm HT']; subst. simpl in H.
    apply bind_Ok in H as (st1 & E1 & H).
    cbn [segments]. destruct (is_separator m) eqn:Hsep.
    + apply parse_step_separator_Token in E1 as [-> ->]; [|exact Tm|exact Hsep].
      destruct (IH _ _ _ _ HT' H) as (seg0 & segs & r0 & outs
                                        & Hs & Hr & H0 & Hrest).
      exists [], (seg0 :: segs), (sealed c), (r0 :: outs).
      split; [now rewrite Hs|]. split; [now rewrite Hr, <- app_assoc|].
      split; [apply sealed_from_end|]. constructor; assumption.
    + destruct st1 as [R1 c1 b1].
      apply parse_step_frame in E1 as [HR E1]; [|exact Tm|exact Hsep].
      simpl in HR, E1. subst R1.
      destruct (IH _ _ _ _ HT' H) as (seg0 & segs & r0 & outs
                                        & Hs & Hr & H0 & Hrest).
      rewrite Hs. exists (m :: seg0), segs, r0, outs.
      split; [reflexivity|]. split; [exact Hr|]. split; [|exact Hrest].
      destruct H0 as (st & Hst & Hseal). exists st.
      split; [|exact Hseal]. simpl. now rewrite E1.
Qed.

Lemma parse_segments text rs :
  parse text = Ok rs -> Forall2 sealed_segment (segments (matches text)) rs.
Proof.
  intros H. unfold parse in H. apply bind_Ok in H as (st & E & H).
  inversion H; subst. rewrite _addResult_sealed.
  destruct (parse_loop_segments _ _ _ _ _ (matches_Token text) E)
    as (seg0 & segs & r0 & outs & Hs & Hr & H0 & Hrest).
  rewrite Hs, Hr. simpl. constructor; assumption.
Qed.

(** C7.  Every selector that [parse] returns is sealed by [_addResult]:
    the selector that the loop built from the matches between two
    separators, when it has negations but neither an element nor class
    names nor attributes, is returned with the element [*], and otherwise
    as it is.  So no selector that [parse] returns has negations and
    nothing else, and the element [*] is that of a sealed selector of
    negations only.  [parse(":not(.x)")] is the one selector with element
    [*], no class names, no attributes and the single negation group with
    the class name [x]. *)
Theorem parse_universal_normalization :
  (forall (text : string) (rs : list CssSelector),
      parse text = Ok rs ->
      Forall2 sealed_segment (segments (matches text)) rs)
  /\ (forall (res : list CssSelector) (c : CssSelector),
        only_negations c ->
        _addResult res c = res ++ [setElement (Some "*") c])
  /\ (forall (s : string) (rs : list CssSelector) (c : CssSelector),
        parse s = Ok rs -> In c rs ->
        classNames c = [] -> attrs c = [] -> notSelectors c <> [] ->
        truthy (element c) = true)
  /\ (forall (s : string) (rs : list CssSelector) (c : CssSelector),
        parse s = Ok rs -> In c rs -> element c = Some "*" ->
        classNames c = [] /\ attrs c = [] /\ notSelectors c <> [])
  /\ parse ":not(.x)"
     = Ok [mkCssSelector (Some "*") [] []
             [mkCssSelector None ["x"] [] []]].
Proof.
  split; [|split; [|split; [|split]]].
  - apply parse_segments.
  - intros res c (Hn & He & Hc & Ha). unfold _addResult.
    rewrite He, Hc, Ha. destruct (notSelectors c); [congruence|reflexivity].
  - intros s rs c Hp Hin Hc Ha Hn.
    pose proof (parse_results (fun c => ~ only_negations c) s rs
                  (fun _ H => H) Hp) as HF.
    rewrite Forall_forall in HF. specialize (HF c).
    destruct (truthy (element c)) eqn:E; [reflexivity|].
    exfalso. apply HF; [now apply list_elem_of_In | now repeat split].
  - intros s rs r Hp Hin He. apply parse_ok in Hp as [_ Hp].
    rewrite Forall_forall in Hp.
    destruct (Hp r (proj2 (list_elem_of_In _ _) Hin)) as (c & Hc & ->).
    revert He. unfold sealed.
    destruct ((0 <? length (notSelectors c)) && negb (truthy (element c))
              && (length (classNames c) =? 0) && (length (attrs c) =? 0))
      eqn:E.
    + intros _. apply only_negations_dec in E as (Hn & _ & Hk & Ha).
      simpl. auto.
    + intros He. destruct Hc as (Hel & _). rewrite He in Hel.
      destruct Hel as [_ Hel]. discriminate Hel.
  - vm_compute. reflexivity.
Qed.

Lemma parse_universal_normalization_witness :
  Forall2 sealed_segment (segments (matches ":not(.x),a:not(.y), :not(b)"))
    [mkCssSelector (Some "*") [] [] [mkCssSelector None ["x"] [] []];
     mkCssSelector (Some "a") [] [] [mkCssSelector None ["y"] [] []];
     mkCssSelector (Some "*") [] [] [mkCssSelector (Some "b") [] [] []]]
  /\ _addResult [] (mkCssSelector None [] [] [new_CssSelector])
     = [mkCssSelector (Some "*") [] [] [new_CssSelector]]
  /\ truthy (element (mkCssSelector (Some "*") [] []
                        [mkCssSelector None ["x"] [] []])) = true.
Proof.
  split; [|split].
  - apply (proj1 parse_universal_normalization ":not(.x),a:not(.y), :not(b)").
    vm_compute. reflexivity.
  - apply (proj1 (proj2 parse_universal_normalization) []
             (mkCssSelector None [] [] [new_CssSelector])).
    repeat split; simpl; congruence.
  - apply (proj1 (proj2 (proj2 parse_universal_normalization)) ":not(.x)"
             [mkCssSelector (Some "*") [] [] [mkCssSelector None ["x"] [] []]]).
    + vm_compute; reflexivity.
    + left; reflexivity.
    + reflexivity.
    + reflexivity.
    + simpl; congruence.
Defined.

(** ** Repeated queries and the flags of the list contexts *)

(** C9.  On a matcher built by [addSelectables], a call of [match] changes
    nothing but the flags of the list contexts: the index is a value that
    [match] only reads, and the store it returns has the selectors it had.
    Every call starts by resetting the list contexts of the matcher, before
    the first probe; the reset writes false into exactly these flags, and
    they are all list contexts there are, among them those of all entries a
    query can reach: after it no flag is set.  A flag is set only by the
    write of [finalize], which does set it, for the entry that calls the
    callback, and an entry whose flag is set calls nothing.  So a query
    [q2] made after a
    query [q1] returns the same boolean, makes the same calls of the
    callback and leaves the same state as [q2] made on the matcher as
    built. *)
Theorem queries_are_independent
    (batches : list Batch) (q1 q2 : CssSelector) (cb1 cb2 : bool) :
  (exists r1 st1,
    SelectorMatcher_match (fst (build batches)) q1 cb1
      (mkState (snd (build batches)) []) = Some (r1, st1)
    /\ map selectors (store st1) = map selectors (snd (build batches))
    /\ SelectorMatcher_match (fst (build batches)) q2 cb2
         (mkState (store st1) [])
       = SelectorMatcher_match (fst (build batches)) q2 cb2
           (mkState (snd (build batches)) [])
    /\ (forall q cb st,
          SelectorMatcher_match (fst (build batches)) q cb st =
          SelectorMatcher_match (fst (build batches)) q cb
            (reset_listContexts (_listContexts (fst (build batches))) st))
    /\ (forall q e g,
          In (Finalize e) (trace (fst (build batches)) q) ->
          listContext e = Some g ->
          In g (_listContexts (fst (build batches)))
          /\ g < length (snd (build batches))))
  /\ (forall lcs st g,
        flag (store (reset_listContexts lcs st)) g
        = if decide (g ∈ lcs) then false else flag (store st) g)
  /\ (forall lcs st,
        map selectors (store (reset_listContexts lcs st))
        = map selectors (store st)
        /\ calls (reset_listContexts lcs st) = calls st)
  /\ (forall q cb st,
        SelectorMatcher_match (fst (build batches)) q cb st
        = run_events notMatch q cb (body (fst (build batches)) q)
            (false,
             reset_listContexts (_listContexts (fst (build batches))) st))
  /\ _listContexts (fst (build batches))
     = seq 0 (length (snd (build batches)))
  /\ (forall st g,
        length (store st) = length (snd (build batches)) ->
        flag (store (reset_listContexts
                       (_listContexts (fst (build batches))) st)) g
        = false)
  /\ (forall b g (s : Store) g',
        flag (set_alreadyMatched b g s) g'
        = if decide (g = g')
          then (if decide (g < length s) then b else false)
          else flag s g')
  /\ (forall q cb st r st',
        SelectorMatcher_match (fst (build batches)) q cb st = Some (r, st') ->
        map selectors (store st') = map selectors (store st))
  /\ (forall q st r st',
        SelectorMatcher_match (fst (build batches)) q false st
        = Some (r, st') ->
        st' = reset_listContexts (_listContexts (fst (build batches))) st)
  /\ (forall e q st g,
        listContext e = Some g -> g < length (store st) ->
        flag (store st) g = false -> passes notMatch q e = true ->
        exists st',
          finalize notMatch e q true st = Some (true, st')
          /\ flag (store st') g = true
          /\ (forall g', g' <> g -> flag (store st') g' = flag (store st) g')
          /\ calls st' = calls st ++ [call_of e])
  /\ (forall e q cb st g,
        listContext e = Some g -> flag (store st) g = true ->
        finalize notMatch e q cb st = Some (true, st)).
Proof.
  assert (Hlcs : _listContexts (fst (build batches))
                 = seq 0 (length (snd (build batches)))).
  { pose proof (build_spec batches q1) as Hb.
    destruct (build batches) as [m s]. now destruct Hb as (_ & Hl & _). }
  split; [|split; [|split; [|split; [|split; [|split; [|split; [|split;
    [|split; [|split]]]]]]]]].
  - destruct (SelectorMatcher_match_total (fst (build batches)) q1 cb1
                (mkState (snd (build batches)) [])) as (r1 & st1 & H1).
    exists r1, st1. split; [exact H1|].
    assert (Hsel : map selectors (store st1)
                   = map selectors (snd (build batches))).
    { rewrite SelectorMatcher_match_run in H1.
      now apply run_events_selectors in H1. }
    split; [exact Hsel|]. split; [|split].
    + destruct (build_match batches q2) as (es & Hrun & _).
      rewrite !Hrun. now rewrite (reset_all_eq _ _ [] Hsel).
    + intros q cb st. rewrite !SelectorMatcher_match_run, !trace_probes.
      simpl. now rewrite reset_idempotent.
    + intros q e g He Hg. apply build_events in He.
      pose proof (build_spec batches q) as Hb.
      rewrite Hlcs.
      destruct (build batches) as [m s]. destruct Hb as (_ & _ & _ & Hr).
      simpl. rewrite Forall_forall in Hr.
      apply list_elem_of_In, Hr in He. rewrite Hg in He.
      split; [|exact He]. apply in_seq. lia.
  - intros lcs st g. apply flag_reset.
  - intros lcs st. split; [apply selectors_reset | apply calls_reset].
  - intros q cb st. now rewrite SelectorMatcher_match_run, trace_probes.
  - exact Hlcs.
  - intros st g Hlen. rewrite flag_reset, Hlcs.
    destruct (decide (g ∈ seq 0 (length (snd (build batches)))))
      as [|Hg]; [reflexivity|].
    apply flag_ge. rewrite Hlen.
    destruct (le_lt_dec (length (snd (build batches))) g); [assumption|].
    contradict Hg. apply elem_of_seq. lia.
  - intros b g s g'. apply flag_set_alreadyMatched.
  - intros q cb st r st' H. rewrite SelectorMatcher_match_run in H.
    now apply run_events_selectors in H.
  - intros q st r st' H.
    destruct (build_match batches q) as (es & Hrun & _).
    rewrite Hrun in H.
    destruct (run_finalize_silent q es false
                (reset_listContexts (seq 0 (length (snd (build batches)))) st))
      as [r' H'].
    rewrite H' in H. inversion H. now rewrite Hlcs.
  - intros e q st g Hg Hlt Hf Hp. rewrite finalize_spec, Hg.
    rewrite not_yet_matched_flag, Hf, Hp. cbn [negb andb]. eexists.
    split; [reflexivity|]. cbn [store calls].
    split; [|split; [|reflexivity]].
    + rewrite flag_set_alreadyMatched.
      destruct (decide (g = g)); [|congruence].
      destruct (decide (g < length (store st))); [reflexivity | lia].
    + intros g' Hne. rewrite flag_set_alreadyMatched.
      destruct (decide (g = g')); [congruence | reflexivity].
  - intros e q cb st g Hg Hf. rewrite finalize_spec, Hg.
    now rewrite not_yet_matched_flag, Hf.
Qed.

Lemma queries_are_independent_witness :
  (exists r1 st1,
      SelectorMatcher_match
        (fst (build [([mkCssSelector None ["a"] [] [];
                       mkCssSelector None ["b"] [] []], Some 0)]))
        (mkCssSelector None ["a"] [] []) true
        (mkState (snd (build [([mkCssSelector None ["a"] [] [];
                                mkCssSelector None ["b"] [] []], Some 0)]))
                 [])
      = Some (r1, st1)
      /\ SelectorMatcher_match
           (fst (build [([mkCssSelector None ["a"] [] [];
                          mkCssSelector None ["b"] [] []], Some 0)]))
           (mkCssSelector None ["b"] [] []) true (mkState (store st1) [])
         = SelectorMatcher_match
             (fst (build [([mkCssSelector None ["a"] [] [];
                            mkCssSelector None ["b"] [] []], Some 0)]))
             (mkCssSelector None ["b"] [] []) true
             (mkState (snd (build [([mkCssSelector None ["a"] [] [];
                                     mkCssSelector None ["b"] [] []],
                                    Some 0)]))
                      []))
  /\ In 0 (_listContexts
             (fst (build [([mkCssSelector None ["a"] [] [];
                            mkCssSelector None ["b"] [] []], Some 0)])))
  /\ flag (store (reset_listContexts
                    (_listContexts
                       (fst (build [([mkCssSelector None ["a"] [] [];
                                      mkCssSelector None ["b"] [] []],
                                     Some 0)])))
                    (mkState [mkSelectorListContext [] true] []))) 0
     = false.
Proof.
  destruct (queries_are_independent
              [([mkCssSelector None ["a"] [] [];
                 mkCssSelector None ["b"] [] []], Some 0)]
              (mkCssSelector None ["a"] [] [])
              (mkCssSelector None ["b"] [] []) true true)
    as ((r1 & st1 & H1 & _ & H3 & _ & H5) & _ & _ & _ & _ & H6 & _).
  split; [|split].
  - exists r1, st1. split; [exact H1 | exact H3].
  - apply (H5 (mkCssSelector None ["a"] [] [])
             (mkSelectorContext (mkCssSelector None ["a"] [] []) (Some 0)
                (Some 0)) 0).
    + vm_compute. auto.
    + reflexivity.
  - apply (H6 (mkState [mkSelectorListContext [] true] []) 0). reflexivity.
Defined.

(** ** The callback of a batch, entry by entry *)





